(** * Sudoku generator and backtracking solver (sudoku.cpp)

    A shallow embedding of the [Sudoku] class and of [bruteForceSolver].

    - The grid is the [vector<vector<int>>] of the source: a list of rows
      of [Z] cells, read with [cell] and written with [setCell].
      Indexing a vector out of range is undefined behaviour in C++; the
      model reads 0 and writes nothing there, and the theorems carry the
      well-formedness hypothesis [wf] (size rows of size cells) under
      which every index the code computes is in range.
    - [int] loop counters and the dimension are natural numbers; the step
      counter is an unbounded [Z] (signed overflow of the C++ [int] is
      undefined behaviour and outside the model).
    - Recursive searches take a fuel argument; the termination lemmas show
      which fuel always suffices.
    - What [displayBoard] writes is a [string]; the searches record only
      that the display was called, and with which step count.
    - Part 1 ends with the same functions once more, every vector index
      checked, to show where the indices stay in range and where they do
      not. *)

From Stdlib Require Import String Ascii DecimalString DecimalPos DecimalZ.
From Stdlib Require Import ZArith List Lia Bool Permutation SpecFloat.
From stdpp Require Import base list.

Abbreviation Board := (list (list Z)).

(** * Part 1. The program *)

(** ** Cell access: [board[row][col]] and [board[row][col] = v] *)

Definition cell (b : Board) (row col : nat) : Z :=
  match b !! row with
  | Some r => match r !! col with Some v => v | None => 0%Z end
  | None => 0%Z
  end.

Definition setCell (b : Board) (row col : nat) (v : Z) : Board :=
  alter (fun r => <[col := v]> r) row b.

(** [targetBoard[row]], the whole row vector. *)
Definition rowOf (b : Board) (row : nat) : list Z :=
  match b !! row with Some r => r | None => [] end.

Section Grid.

Variables size boxSize : nat.

(** [createEmptyBoard]: size rows of size zeros. *)
Definition createEmptyBoard : Board := replicate size (replicate size 0%Z).

(** ** Constraint queries *)

(** [std::find(row.begin(), row.end(), num) == row.end()] *)
Definition isValidInRow (b : Board) (row : nat) (num : Z) : bool :=
  forallb (fun v => negb (v =? num)%Z) (rowOf b row).

Definition isValidInColumn (b : Board) (col : nat) (num : Z) : bool :=
  forallb (fun i => negb (cell b i col =? num)%Z) (seq 0 size).

Definition isValidInBox (b : Board) (row col : nat) (num : Z) : bool :=
  let boxRow := row - row mod boxSize in
  let boxCol := col - col mod boxSize in
  forallb (fun i =>
    forallb (fun j => negb (cell b (boxRow + i) (boxCol + j) =? num)%Z)
            (seq 0 boxSize))
          (seq 0 boxSize).

Definition isValidPlacement (b : Board) (row col : nat) (num : Z) : bool :=
  isValidInRow b row num && isValidInColumn b col num
  && isValidInBox b row col num.

End Grid.

(** ** The generation-time search: [Sudoku::solveBoard]

    [generatePuzzle] calls [solveBoard(board)], so [targetBoard] is the
    member [board] itself and the assignment [board = targetBoard] on
    success is a self-assignment: one grid is threaded through. *)

Section Search.

Variables size boxSize : nat.

(** The candidates of [for (int num = 1; num <= size; ++num)]. *)
Definition digits : list Z := map Z.of_nat (seq 1 size).

(** The cells in the order the nested [for i / for j] loops visit them
    (also the [allCells] vector of [removeDigits]). *)
Definition allCells : list (nat * nat) := list_prod (seq 0 size) (seq 0 size).

Definition findEmptyCell (b : Board) : option (nat * nat) :=
  List.find (fun p => (cell b (fst p) (snd p) =? 0)%Z) allCells.

(** The [for num] loop of [solveBoard] at the cell [(row, col)];
    [rec] is the recursive call. *)
Fixpoint placeDigits (rec : Board -> option (bool * Board))
    (row col : nat) (nums : list Z) (b : Board) : option (bool * Board) :=
  match nums with
  | [] => Some (false, b)
  | num :: rest =>
      if isValidPlacement size boxSize b row col num then
        match rec (setCell b row col num) with
        | None => None
        | Some (true, b') => Some (true, b')
        | Some (false, b') => placeDigits rec row col rest (setCell b' row col 0%Z)
        end
      else placeDigits rec row col rest b
  end.

Fixpoint solveBoard (fuel : nat) (b : Board) : option (bool * Board) :=
  match fuel with
  | O => None
  | S fuel' =>
      match findEmptyCell b with
      | None => Some (true, b)
      | Some (row, col) => placeDigits (solveBoard fuel') row col digits b
      end
  end.

(** ** The pluggable default strategy: [bruteForceSolver]

    Its effects on the session, through [getSteps()], [getBoard()] and the
    display callback, are the step counter, the grid, and a log of the
    grid writes and display calls in the order they happen. The two
    [sleep_for] pauses have no effect on the state and are left out. *)

Inductive event : Type :=
| Write (row col : nat) (v : Z)     (* sudoku.getBoard()[row][col] = v *)
| Display (shown : Z).              (* displayFunction(), showing the step count *)

Record Run : Type := mkRun { board : Board; steps : Z; log : list event }.

Definition tick (s : Run) : Run :=
  mkRun (board s) (steps s + 1) (log s).

Definition write (row col : nat) (v : Z) (s : Run) : Run :=
  mkRun (setCell (board s) row col v) (steps s) (log s ++ [Write row col v]).

Definition display (s : Run) : Run :=
  mkRun (board s) (steps s) (log s ++ [Display (steps s)]).

(** The [for num] loop of the [backtrack] lambda. *)
Fixpoint tryDigits (rec : Run -> option (bool * Run))
    (row col : nat) (nums : list Z) (s : Run) : option (bool * Run) :=
  match nums with
  | [] => Some (false, s)
  | num :: rest =>
      if isValidPlacement size boxSize (board s) row col num then
        match rec (display (write row col num s)) with
        | None => None
        | Some (true, s') => Some (true, s')
        | Some (false, s') =>
            tryDigits rec row col rest (display (write row col 0%Z s'))
        end
      else tryDigits rec row col rest s
  end.

Fixpoint backtrack (fuel : nat) (row col : nat) (s : Run) : option (bool * Run) :=
  match fuel with
  | O => None
  | S fuel' =>
      let s := tick s in
      if col =? size then backtrack fuel' (row + 1) 0 s
      else if row =? size then Some (true, s)
      else if negb (cell (board s) row col =? 0)%Z then backtrack fuel' row (col + 1) s
      else tryDigits (backtrack fuel' row (col + 1)) row col digits s
  end.

Definition bruteForceSolver (fuel : nat) (s : Run) : option (bool * Run) :=
  match backtrack fuel 0 0 s with
  | None => None
  | Some (true, s') => Some (true, display s')
  | Some (false, s') => Some (false, s')
  end.

(** Calls of [backtrack] on the path from [(row, col)] to [(size, 0)]. *)
Definition callsFrom (row col : nat) : nat :=
  S (size * S size - (row * S size + col)).

End Search.

(** ** binary64 arithmetic of [removeDigits]

    [double] values are the [spec_float]s of the Standard Library with
    53 bits of precision and exponent bound 1024, rounded to nearest even
    as IEEE 754 prescribes. *)

Definition doubleOfInt (z : Z) : spec_float := binary_normalize 53 1024 z 0 false.

Definition doubleMul (x y : spec_float) : spec_float := SFmul 53 1024 x y.

(** [static_cast<int>(x)]: the fraction is discarded (rounding toward
    zero). The conversion is undefined for a NaN, for an infinity, and
    for a value whose integer part is beyond the range of a 32-bit
    [int]: [None]. *)
Definition intOfDouble (x : spec_float) : option Z :=
  match x with
  | S754_zero _ => Some 0%Z
  | S754_finite s m e =>
      let z := cond_Zopp s (Z.shiftl (Zpos m) e) in
      if (- 2 ^ 31 <=? z)%Z && (z <? 2 ^ 31)%Z then Some z else None
  | S754_infinity _ | S754_nan => None
  end.

(** [DEFAULT_DIFFICULTY = 0.7], the binary64 value 0x1.6666666666666p-1. *)
Definition DEFAULT_DIFFICULTY : spec_float :=
  S754_finite false 6305039478318694 (-53).

(** ** The generator *)

Section Generator.

(** The state of the [std::mt19937] engine, and [std::shuffle] as a
    function of it. *)
Variable G : Type.
Variable shuffle : forall A : Type, list A -> G -> list A * G.

Variables size boxSize : nat.

(** [fillBox]: a shuffled [1..size] written row by row into the box at
    [(startRow, startCol)]. *)
Definition fillBox (startRow startCol : nat) (bg : Board * G) : Board * G :=
  let (numbers, g) := shuffle Z (digits size) (snd bg) in
  (fold_left
     (fun b ij => setCell b (startRow + fst ij) (startCol + snd ij)
                    (nth (fst ij * boxSize + snd ij) numbers 0%Z))
     (list_prod (seq 0 boxSize) (seq 0 boxSize)) (fst bg),
   g).

(** The values [i = 0, boxSize, 2 * boxSize, ...] below [size]. *)
Definition diagonalStarts : list nat :=
  List.filter (fun i => i mod boxSize =? 0) (seq 0 size).

(** [fillDiagonalBoxes]; with [boxSize = 0] and [size > 0] the loop
    [for (i = 0; i < size; i += boxSize)] never ends: [None]. *)
Definition fillDiagonalBoxes (bg : Board * G) : option (Board * G) :=
  if (boxSize =? 0) && (0 <? size) then None
  else Some (fold_left (fun bg i => fillBox i i bg) diagonalStarts bg).

(** [static_cast<int>(size * size * difficulty)]: the [int] product
    [size * size] (its overflow is undefined and outside the model) is
    converted to [double], multiplied and converted back. *)
Definition cellsToRemove (difficulty : spec_float) : option Z :=
  intOfDouble (doubleMul (doubleOfInt (Z.of_nat (size * size))) difficulty).

(** [removeDigits]: the first [min(cellsToRemove, allCells.size())] cells
    of the shuffled list of all cells are set to 0. *)
Definition removeDigits (difficulty : spec_float) (bg : Board * G) : option (Board * G) :=
  match cellsToRemove difficulty with
  | None => None
  | Some n =>
      let (cells, g) := shuffle (nat * nat) (allCells size) (snd bg) in
      Some (fold_left (fun b rc => setCell b (fst rc) (snd rc) 0%Z)
              (take (Z.to_nat (Z.min n (Z.of_nat (length cells)))) cells) (fst bg),
            g)
  end.

End Generator.

(** ** The session: class [Sudoku] *)

(** A solver strategy, [function<bool(Sudoku&, function<void()>)>]: through
    [getSize], [isValidPlacement], [getBoard], [getSteps] and the display
    callback it sees the dimensions and acts on the grid, the step
    counter and the display; [None] stands for a call that does not
    return. *)
Definition Strategy : Type := nat -> nat -> Run -> option (bool * Run).

(** The default strategy handed to the constructor in [main]. *)
Definition defaultStrategy : Strategy :=
  fun size boxSize s => bruteForceSolver size boxSize (callsFrom size 0 0) s.

Record Sudoku (G : Type) : Type := mkSudoku {
  size : nat;
  boxSize : nat;
  state : Run;                  (* board, steps, and what was displayed *)
  solution : Board;
  solver : option Strategy;
  rng : G
}.

Arguments mkSudoku {G}.
Arguments size {G}.
Arguments boxSize {G}.
Arguments state {G}.
Arguments solution {G}.
Arguments solver {G}.
Arguments rng {G}.

(** How a call of [solve] ends. *)
Inductive outcome : Type :=
| Threw (what : String.string)
| Returned (solved : bool).

Section Session.

Variable G : Type.
Variable shuffle : forall A : Type, list A -> G -> list A * G.

(** [generatePuzzle]; the result of [solveBoard] is not looked at.
    [None] is a run that leaves the model: a loop without end, a search
    out of fuel, or an undefined conversion in [removeDigits]. *)
Definition generatePuzzle (s : Sudoku G) : option (Sudoku G) :=
  match fillDiagonalBoxes G shuffle (size s) (boxSize s) (board (state s), rng s) with
  | None => None
  | Some (seeded, g1) =>
      match solveBoard (size s) (boxSize s) (S (size s * size s)) seeded with
      | None => None
      | Some (_, solvedBoard) =>
          match removeDigits G shuffle (size s) DEFAULT_DIFFICULTY (solvedBoard, g1) with
          | None => None
          | Some (puzzle, g2) =>
              Some (mkSudoku (size s) (boxSize s)
                      (mkRun puzzle (steps (state s)) (log (state s)))
                      solvedBoard (solver s) g2)
          end
      end
  end.

(** The constructor: [boxSize] is the integer part of the square root,
    the grid starts empty, the counter at 0, and the puzzle is generated
    at once. [seed] is the engine state made from the clock. *)
Definition Sudoku_new (boardSize : nat) (solverFunc : option Strategy) (seed : G)
  : option (Sudoku G) :=
  generatePuzzle
    (mkSudoku boardSize (Nat.sqrt boardSize)
       (mkRun (createEmptyBoard boardSize) 0 []) [] solverFunc seed).

(** [solve]: throws without a solver; otherwise shows the grid and hands
    over to the strategy. *)
Definition solve (s : Sudoku G) : option (outcome * Sudoku G) :=
  match solver s with
  | None => Some (Threw "No solver function provided"%string, s)
  | Some strategy =>
      match strategy (size s) (boxSize s) (display (state s)) with
      | None => None
      | Some (r, st) =>
          Some (Returned r,
                mkSudoku (size s) (boxSize s) st (solution s) (solver s) (rng s))
      end
  end.

End Session.

(** ** The display: [displayBoard], [createHorizontalLine], [createRowString]

    A [std::string] is a [string]; [+=] and the [<<] of [cout] append.
    What [displayBoard] writes to [cout], after [system("clear")] has
    wiped the terminal, is one string. [i % boxSize] is undefined in C++
    for [boxSize = 0]; the model computes with the [mod] of the library
    there, and the theorems about the display carry [0 < boxSize]. *)

Definition LF : ascii := "010"%char.    (* '\n', also what [endl] writes *)
Definition ESC : ascii := "027"%char.   (* '\033' *)

(** [std::to_string(int)]: the decimal numeral, with a minus sign below 0. *)
Definition to_string (z : Z) : string := NilZero.string_of_int (Z.to_int z).

(** [std::string(n, c)]: [n] copies of [c]. *)
Definition fill (n : nat) (c : ascii) : string := string_of_list_ascii (repeat c n).

Section Display.

Variables size boxSize : nat.

Definition createHorizontalLine : string :=
  fold_left
    (fun line i =>
       let line := if 0 <? i then (line ++ "+")%string else line in
       (line ++ fill (boxSize * 2 + 1) "-")%string)
    (seq 0 boxSize) "  "%string.

Definition createRowString (b : Board) (rowIndex : nat) : string :=
  let rowStr :=
    fold_left
      (fun rowStr colIndex =>
         let rowStr :=
           if colIndex mod boxSize =? 0 then (rowStr ++ "| ")%string else rowStr in
         let cellValue := cell b rowIndex colIndex in
         if (cellValue =? 0)%Z then (rowStr ++ ". ")%string
         else (rowStr ++ (String ESC "[97m" ++ to_string cellValue ++ String ESC "[0m "))%string)
      (seq 0 size) "  "%string in
  (rowStr ++ "|")%string.

Definition displayBoard (s : Run) : string :=
  let out :=
    (String LF "  SUDOKU SOLVER v1.0  |  Steps: " ++ to_string (steps s)
       ++ String LF "" ++ String LF "")%string in
  let horizontalLine := createHorizontalLine in
  let out :=
    fold_left
      (fun out i =>
         let out :=
           if i mod boxSize =? 0
           then (out ++ horizontalLine ++ String LF "")%string else out in
         (out ++ createRowString (board s) i ++ String LF "")%string)
      (seq 0 size) out in
  (out ++ horizontalLine ++ String LF "" ++ String LF "")%string.

End Display.

(** ** The program: [main] *)

Section Program.

Variable G : Type.
Variable shuffle : forall A : Type, list A -> G -> list A * G.

(** [main]: a session of dimension 9 with the default strategy, then one
    call of [solve], whose boolean is dropped. The outcome is kept here
    to tell a return from an exception that nothing catches. *)
Definition main (seed : G) : option (outcome * Sudoku G) :=
  match Sudoku_new G shuffle 9 (Some defaultStrategy) seed with
  | None => None
  | Some sudoku => solve G sudoku
  end.

End Program.

(** ** The program once more, with the vector indices checked

    [operator[]] of a vector does not check its index, and an index out of
    range is undefined behaviour. [cell] and [setCell] read 0 and write
    nothing there. The definitions of this section follow the same
    source functions again with every index checked: [None] is now also
    the answer at the first index out of range. The loops that return at
    the first hit, and [&&], which skips its right operand, are followed
    as written, since what they skip is not read. *)

Definition cellChecked (b : Board) (row col : nat) : option Z :=
  r ← b !! row; r !! col.

Definition setCellChecked (b : Board) (row col : nat) (v : Z) : option Board :=
  match b !! row with
  | Some r => if col <? length r then Some (setCell b row col v) else None
  | None => None
  end.

Definition writeChecked (row col : nat) (v : Z) (s : Run) : option Run :=
  b ← setCellChecked (board s) row col v;
  Some (mkRun b (steps s) (log s ++ [Write row col v])).

Section Checked.

Variable G : Type.
Variable shuffle : forall A : Type, list A -> G -> list A * G.

Variables size boxSize : nat.

Definition isValidInRowChecked (b : Board) (row : nat) (num : Z) : option bool :=
  r ← b !! row; Some (forallb (fun v => negb (v =? num)%Z) r).

(** A loop over cells that returns false at the first cell holding [num]. *)
Fixpoint scanChecked (b : Board) (num : Z) (cells : list (nat * nat)) : option bool :=
  match cells with
  | [] => Some true
  | rc :: rest =>
      v ← cellChecked b (fst rc) (snd rc);
      if (v =? num)%Z then Some false else scanChecked b num rest
  end.

Definition isValidInColumnChecked (b : Board) (col : nat) (num : Z) : option bool :=
  scanChecked b num (map (fun i => (i, col)) (seq 0 size)).

(** [row % boxSize] is undefined for [boxSize = 0]. *)
Definition isValidInBoxChecked (b : Board) (row col : nat) (num : Z) : option bool :=
  if boxSize =? 0 then None
  else
    let boxRow := row - row mod boxSize in
    let boxCol := col - col mod boxSize in
    scanChecked b num
      (map (fun ij => (boxRow + fst ij, boxCol + snd ij))
           (list_prod (seq 0 boxSize) (seq 0 boxSize))).

Definition isValidPlacementChecked (b : Board) (row col : nat) (num : Z)
  : option bool :=
  inRow ← isValidInRowChecked b row num;
  if inRow : bool then
    inColumn ← isValidInColumnChecked b col num;
    if inColumn : bool then isValidInBoxChecked b row col num else Some false
  else Some false.

(** The loop of [findEmptyCell], which returns at the first empty cell. *)
Fixpoint findChecked (b : Board) (cells : list (nat * nat))
  : option (option (nat * nat)) :=
  match cells with
  | [] => Some None
  | rc :: rest =>
      v ← cellChecked b (fst rc) (snd rc);
      if (v =? 0)%Z then Some (Some rc) else findChecked b rest
  end.

Definition findEmptyCellChecked (b : Board) : option (option (nat * nat)) :=
  findChecked b (allCells size).

Fixpoint placeDigitsChecked (rec : Board -> option (bool * Board))
    (row col : nat) (nums : list Z) (b : Board) : option (bool * Board) :=
  match nums with
  | [] => Some (false, b)
  | num :: rest =>
      ok ← isValidPlacementChecked b row col num;
      if ok : bool then
        b1 ← setCellChecked b row col num;
        rb ← rec b1;
        if fst rb : bool then Some (true, snd rb)
        else
          b2 ← setCellChecked (snd rb) row col 0%Z;
          placeDigitsChecked rec row col rest b2
      else placeDigitsChecked rec row col rest b
  end.

Fixpoint solveBoardChecked (fuel : nat) (b : Board) : option (bool * Board) :=
  match fuel with
  | O => None
  | S fuel' =>
      emptyCell ← findEmptyCellChecked b;
      match emptyCell with
      | None => Some (true, b)
      | Some (row, col) =>
          placeDigitsChecked (solveBoardChecked fuel') row col (digits size) b
      end
  end.

Fixpoint tryDigitsChecked (rec : Run -> option (bool * Run))
    (row col : nat) (nums : list Z) (s : Run) : option (bool * Run) :=
  match nums with
  | [] => Some (false, s)
  | num :: rest =>
      ok ← isValidPlacementChecked (board s) row col num;
      if ok : bool then
        s1 ← writeChecked row col num s;
        rs ← rec (display s1);
        if fst rs : bool then Some (true, snd rs)
        else
          s2 ← writeChecked row col 0%Z (snd rs);
          tryDigitsChecked rec row col rest (display s2)
      else tryDigitsChecked rec row col rest s
  end.

Fixpoint backtrackChecked (fuel : nat) (row col : nat) (s : Run)
  : option (bool * Run) :=
  match fuel with
  | O => None
  | S fuel' =>
      let s := tick s in
      if col =? size then backtrackChecked fuel' (row + 1) 0 s
      else if row =? size then Some (true, s)
      else
        v ← cellChecked (board s) row col;
        if negb (v =? 0)%Z then backtrackChecked fuel' row (col + 1) s
        else tryDigitsChecked (backtrackChecked fuel' row (col + 1))
               row col (digits size) s
  end.

Definition bruteForceSolverChecked (fuel : nat) (s : Run) : option (bool * Run) :=
  match backtrackChecked fuel 0 0 s with
  | None => None
  | Some (true, s') => Some (true, display s')
  | Some (false, s') => Some (false, s')
  end.

(** One pass of the inner loop body of [fillBox]:
    [board[startRow + i][startCol + j] = numbers[index++]]. *)
Definition fillCellChecked (numbers : list Z) (startRow startCol : nat)
    (ob : option Board) (ij : nat * nat) : option Board :=
  b ← ob;
  v ← numbers !! (fst ij * boxSize + snd ij);
  setCellChecked b (startRow + fst ij) (startCol + snd ij) v.

Definition fillBoxChecked (startRow startCol : nat) (bg : Board * G)
  : option (Board * G) :=
  let (numbers, g) := shuffle Z (digits size) (snd bg) in
  b ← fold_left (fillCellChecked numbers startRow startCol)
        (list_prod (seq 0 boxSize) (seq 0 boxSize)) (Some (fst bg));
  Some (b, g).

Definition fillDiagonalBoxesChecked (bg : Board * G) : option (Board * G) :=
  if (boxSize =? 0) && (0 <? size) then None
  else fold_left (fun obg i => bg ← obg; fillBoxChecked i i bg)
         (diagonalStarts size boxSize) (Some bg).

Definition removeDigitsChecked (difficulty : spec_float) (bg : Board * G)
  : option (Board * G) :=
  n ← cellsToRemove size difficulty;
  let (cells, g) := shuffle (nat * nat)%type (allCells size) (snd bg) in
  b ← fold_left (fun ob rc => b ← ob; setCellChecked b (fst rc) (snd rc) 0%Z)
        (take (Z.to_nat (Z.min n (Z.of_nat (length cells)))) cells) (Some (fst bg));
  Some (b, g).

End Checked.

Section SessionChecked.

Variable G : Type.
Variable shuffle : forall A : Type, list A -> G -> list A * G.

Definition generatePuzzleChecked (s : Sudoku G) : option (Sudoku G) :=
  sg ← fillDiagonalBoxesChecked G shuffle (size s) (boxSize s)
         (board (state s), rng s);
  rb ← solveBoardChecked (size s) (boxSize s) (S (size s * size s)) (fst sg);
  pg ← removeDigitsChecked G shuffle (size s) DEFAULT_DIFFICULTY (snd rb, snd sg);
  Some (mkSudoku (size s) (boxSize s)
          (mkRun (fst pg) (steps (state s)) (log (state s)))
          (snd rb) (solver s) (snd pg)).

Definition Sudoku_newChecked (boardSize : nat) (solverFunc : option Strategy)
    (seed : G) : option (Sudoku G) :=
  generatePuzzleChecked
    (mkSudoku boardSize (Nat.sqrt boardSize)
       (mkRun (createEmptyBoard boardSize) 0 []) [] solverFunc seed).

End SessionChecked.

(** * Part 2. The vocabulary of the specification and of the proofs *)

Section Vocabulary.

Variables size boxSize : nat.

(** A grid of the right shape: [size] rows of [size] cells. *)
Definition wf (b : Board) : Prop :=
  length b = size /\ Forall (fun r => length r = size) b.

(** ** The rules of the grid *)

(** Column [c] read top to bottom, and the box in box-row [br] and
    box-column [bc] read row by row. *)
Definition columnOf (b : Board) (c : nat) : list Z :=
  map (fun r => cell b r c) (seq 0 size).

Definition boxCells (br bc : nat) : list (nat * nat) :=
  list_prod (seq (br * boxSize) boxSize) (seq (bc * boxSize) boxSize).

Definition boxOf (b : Board) (br bc : nat) : list Z :=
  map (fun p => cell b (fst p) (snd p)) (boxCells br bc).

(** The list holds each value of [1, size] exactly once. *)
Definition exactlyOnce (l : list Z) : Prop :=
  forall v, (1 <= v <= Z.of_nat size)%Z -> count_occ Z.eq_dec l v = 1.

(** Solved state: every row, every column and every box holds each value
    of [1, size] exactly once. *)
Definition solved (b : Board) : Prop :=
  (forall r, r < size -> exactlyOnce (rowOf b r)) /\
  (forall c, c < size -> exactlyOnce (columnOf b c)) /\
  (forall br bc, br < boxSize -> bc < boxSize -> exactlyOnce (boxOf b br bc)).

(** Two different cells that share a row, a column or a box. *)
Definition sameBox (r c r' c' : nat) : Prop :=
  r - r mod boxSize = r' - r' mod boxSize /\
  c - c mod boxSize = c' - c' mod boxSize.

Definition peers (r c r' c' : nat) : Prop :=
  (r, c) <> (r', c') /\ (r = r' \/ c = c' \/ sameBox r c r' c').

(** Valid partial state: cells hold values of [0, size] and no nonzero
    value repeats within a row, a column or a box. *)
Definition validPartial (b : Board) : Prop :=
  (forall r c, r < size -> c < size -> (0 <= cell b r c <= Z.of_nat size)%Z) /\
  (forall r c r' c',
      r < size -> c < size -> r' < size -> c' < size ->
      peers r c r' c' -> cell b r c <> 0%Z -> cell b r c <> cell b r' c').

(** No empty cell. *)
Definition full (b : Board) : Prop :=
  forall r c, r < size -> c < size -> cell b r c <> 0%Z.

(** [s] keeps every filled cell of [b]. *)
Definition extends (b s : Board) : Prop :=
  forall r c, r < size -> c < size -> cell b r c <> 0%Z -> cell s r c = cell b r c.

(** A valid partial state without an empty cell. *)
Definition complete (b : Board) : Prop :=
  validPartial b /\ full b.

(** Empty cells of a grid. *)
Definition emptyCount (b : Board) : nat :=
  length (filter (fun rc => cell b (fst rc) (snd rc) = 0%Z) (allCells size)).

(** ** Positions of the two searches *)

(** A position of the walk of [backtrack]: a cell, the end of a row, or
    the start of the row after the last. *)
Definition walkPos (row col : nat) : Prop :=
  (row < size /\ col <= size) \/ (row = size /\ col = 0).

(** Every cell before [(row, col)] in row-major order is filled. *)
Definition filledBefore (b : Board) (row col : nat) : Prop :=
  forall i j, i < size -> j < size -> i < row \/ (i = row /\ j < col) ->
              cell b i j <> 0%Z.

(** Cells at or after [(row, col)] in row-major order. *)
Definition cellsFrom (row col : nat) : nat := size * size - (row * size + col).

(** ** Seeding *)

(** The diagonal boxes that start before row [m] hold each a permutation
    of [1..size]; every other cell is empty. *)
Definition seededUpTo (m : nat) (b : Board) : Prop :=
  wf b /\
  (forall r c, r < size -> c < size ->
     ~ (r / boxSize = c / boxSize /\ r / boxSize * boxSize < m) -> cell b r c = 0%Z) /\
  (forall r c, r < size -> c < size ->
     r / boxSize = c / boxSize -> r / boxSize * boxSize < m ->
     (1 <= cell b r c <= Z.of_nat size)%Z) /\
  (forall r c r' c', r < size -> c < size -> r' < size -> c' < size ->
     r / boxSize = c / boxSize -> r' / boxSize = c' / boxSize ->
     r / boxSize = r' / boxSize -> r / boxSize * boxSize < m ->
     (r, c) <> (r', c') -> cell b r c <> cell b r' c').

(** ** A checker for valid partial states *)

Definition peersb (r c r' c' : nat) : bool :=
  negb ((r =? r') && (c =? c')) &&
  ((r =? r') || (c =? c')
   || ((r - r mod boxSize =? r' - r' mod boxSize)
       && (c - c mod boxSize =? c' - c' mod boxSize))).

Definition validPartialb (b : Board) : bool :=
  forallb (fun p =>
    let v := cell b (fst p) (snd p) in
    (0 <=? v)%Z && (v <=? Z.of_nat size)%Z &&
    forallb (fun q =>
      implb (peersb (fst p) (snd p) (fst q) (snd q))
            (implb (negb (v =? 0)%Z) (negb (v =? cell b (fst q) (snd q))%Z)))
      (allCells size))
    (allCells size).

End Vocabulary.

(** ** Frame: what a search may change

    A search that reports failure hands the grid back as it found it; any
    search keeps the shape of the grid and the cells that were filled. *)

Definition frame_post (size : nat) (b : Board) (r : bool) (b' : Board) : Prop :=
  (r = false -> b' = b) /\
  (forall i j, cell b i j <> 0%Z -> cell b' i j = cell b i j) /\
  (wf size b -> wf size b').

(** ** Accounting: the step counter and the log of a pass *)

(** Placement attempts in a stretch of the log: the writes of a digit
    (the undo writes 0). *)
Definition isPlacement (e : event) : bool :=
  match e with Write _ _ v => negb (v =? 0)%Z | Display _ => false end.

Definition placements (evs : list event) : nat :=
  length (List.filter isPlacement evs).

(** The step counts the display callback was shown, in order. *)
Definition shown (evs : list event) : list Z :=
  omap (fun e => match e with Display n => Some n | Write _ _ _ => None end) evs.

(** [lo <= x1 <= x2 <= ... <= hi] *)
Fixpoint nondecr (lo : Z) (l : list Z) (hi : Z) : Prop :=
  match l with
  | [] => (lo <= hi)%Z
  | x :: l' => (lo <= x)%Z /\ nondecr x l' hi
  end.

(** A write lands on a cell that is empty in [b]. *)
Definition onEmpty (b : Board) (e : event) : Prop :=
  match e with Write r c _ => cell b r c = 0%Z | Display _ => True end.

(** [s'] comes after [s]: the log only grows, by [new]; the counter moved
    up by at least [k] plus the placements in [new]; every write in [new]
    is to a cell empty in [s]; the displayed counts rise from the count in
    [s] to the count in [s']. *)
Definition log_post (k : Z) (s s' : Run) : Prop :=
  exists new,
    log s' = log s ++ new /\
    (steps s + k + Z.of_nat (placements new) <= steps s')%Z /\
    Forall (onEmpty (board s)) new /\
    nondecr (steps s) (shown new) (steps s').

(** *** The calls of a pass

    A call of [backtrack] at a filled cell or at the end of a row only
    advances: it calls [backtrack] for the next position. [advances]
    counts these calls from [(row, col)] on, up to the first empty cell
    or the end of the grid; [n] is the number of positions that are left
    before the end. *)
Fixpoint advances (size : nat) (b : Board) (n row col : nat) : nat :=
  match n with
  | O => 0
  | S n' =>
      if col =? size then S (advances size b n' (row + 1) 0)
      else if row =? size then 0
      else if negb (cell b row col =? 0)%Z then S (advances size b n' row (col + 1))
      else 0
  end.

(** The calls of [backtrack] from the call at [(row, col)] to the call
    that stops advancing, both included. *)
Definition callsTo (size : nat) (b : Board) (row col : nat) : nat :=
  S (advances size b (size * S size - (row * S size + col)) row col).

(** The calls that an event of the log is followed by: a placement at
    [(row, col)] by the calls from [(row, col + 1)] on. *)
Definition callsAfter (size : nat) (b : Board) (e : event) : nat :=
  match e with
  | Write row col v => if (v =? 0)%Z then 0 else callsTo size b row (col + 1)
  | Display _ => 0
  end.

Definition callsOf (size : nat) (b : Board) (evs : list event) : nat :=
  list_sum (map (callsAfter size b) evs).

(** A write at [(row, col)] or later in the order of the walk. *)
Definition notBefore (row col : nat) (e : event) : Prop :=
  match e with
  | Write r c _ => row < r \/ (row = r /\ col <= c)
  | Display _ => True
  end.

(** [s'] comes after [s]: the log grew by [new], whose writes are at
    [(row, col)] or later, and the counter moved up by exactly [k] plus
    the calls that follow the placements in [new]. *)
Definition count_post (size : nat) (row col : nat) (k : nat) (s s' : Run) : Prop :=
  exists new,
    log s' = log s ++ new /\
    Forall (notBefore row col) new /\
    steps s' = (steps s + Z.of_nat k + Z.of_nat (callsOf size (board s) new))%Z.

(** ** Values of doubles *)

(** The largest integer not above the value of [x] (0 where [x] has no
    value). *)
Definition floorDouble (x : spec_float) : Z :=
  match x with
  | S754_finite s m e =>
      if (0 <=? e)%Z then (cond_Zopp s (Zpos m) * 2 ^ e)%Z
      else (cond_Zopp s (Zpos m) / 2 ^ (- e))%Z
  | _ => 0%Z
  end.

Definition double_zero : spec_float := S754_zero false.
Definition double_one : spec_float := S754_finite false 4503599627370496 (-52).

(** The largest integer not above [n * x], the product of an integer and
    the value of a double taken exactly, without rounding (0 where [x]
    has no value). *)
Definition floorTimes (n : Z) (x : spec_float) : Z :=
  match x with
  | S754_finite s m e =>
      if (0 <=? e)%Z then (n * cond_Zopp s (Zpos m) * 2 ^ e)%Z
      else (n * cond_Zopp s (Zpos m) / 2 ^ (- e))%Z
  | _ => 0%Z
  end.

(** A double that is zero, or positive and finite. *)
Definition nonnegDouble (x : spec_float) : Prop :=
  (exists s, x = S754_zero s) \/ (exists m e, x = S754_finite false m e).

(** ** Examples: 4x4 grids (boxes of 2x2), a shuffle, a strategy *)

Definition seeded4 : Board :=
  [[1; 2; 0; 0]; [3; 4; 0; 0]; [0; 0; 1; 2]; [0; 0; 3; 4]]%Z.

Definition solved4 : Board :=
  [[1; 2; 4; 3]; [3; 4; 2; 1]; [4; 3; 1; 2]; [2; 1; 3; 4]]%Z.

(** Row 3 holds the digit 3 twice among the given cells. *)
Definition conflict4 : Board :=
  [[0; 2; 4; 3]; [3; 4; 2; 1]; [4; 3; 1; 2]; [2; 1; 3; 3]]%Z.

(** Row 3 holds the digit 4 twice among the given cells. *)
Definition clash4 : Board :=
  [[1; 2; 3; 4]; [3; 4; 1; 2]; [2; 1; 4; 3]; [4; 3; 0; 4]]%Z.

(** No digit fits the cell in the corner of row 0. *)
Definition stuck4 : Board :=
  [[1; 2; 3; 0]; [0; 0; 0; 4]; [0; 0; 0; 0]; [0; 0; 0; 0]]%Z.

(** No digit fits the corner of row 0 either, but the search meets the
    empty cell at the start of the row first, where 1 and 4 fit. *)
Definition dead4 : Board :=
  [[0; 2; 3; 0]; [0; 0; 0; 4]; [0; 0; 0; 1]; [0; 0; 0; 0]]%Z.

(** A shuffle that reverses; the engine state counts the calls. *)
Definition revShuffle (A : Type) (l : list A) (g : nat) : list A * nat := (rev l, S g).

(** A strategy that reports failure at once. *)
Definition giveUp : Strategy := fun _ _ s => Some (false, s).

(** ** Examples: a solved 9x9 grid and a difficulty below one third *)

Definition solved9 : Board :=
  [[1; 2; 3; 4; 5; 6; 7; 8; 9];
   [4; 5; 6; 7; 8; 9; 1; 2; 3];
   [7; 8; 9; 1; 2; 3; 4; 5; 6];
   [2; 3; 4; 5; 6; 7; 8; 9; 1];
   [5; 6; 7; 8; 9; 1; 2; 3; 4];
   [8; 9; 1; 2; 3; 4; 5; 6; 7];
   [3; 4; 5; 6; 7; 8; 9; 1; 2];
   [6; 7; 8; 9; 1; 2; 3; 4; 5];
   [9; 1; 2; 3; 4; 5; 6; 7; 8]]%Z.

(** The double 0x1.5555555555555p-2, the nearest below 1/3. *)
Definition third : spec_float := S754_finite false 6004799503160661 (-54).

(** ** The order of the search, and clashes *)

Section SearchOrder.

Variables size boxSize : nat.

(** [b1] comes no later than [b2] in the order of the search: the grids
    agree, or at the first cell, row by row, where they differ [b1] holds
    the smaller value. *)
Definition lexLe (b1 b2 : Board) : Prop :=
  (forall r c, r < size -> c < size -> cell b1 r c = cell b2 r c) \/
  (exists r c, r < size /\ c < size /\ (cell b1 r c < cell b2 r c)%Z /\
     forall i j, i < size -> j < size -> i < r \/ (i = r /\ j < c) ->
                 cell b1 i j = cell b2 i j).

(** Every clash of [b'] (two peers holding the same digit) is a clash of
    two cells that were filled in [b]. *)
Definition clashesWithin (b b' : Board) : Prop :=
  forall r c r' c',
    r < size -> c < size -> r' < size -> c' < size ->
    peers boxSize r c r' c' -> cell b' r c <> 0%Z -> cell b' r c = cell b' r' c' ->
    cell b r c <> 0%Z /\ cell b r' c' <> 0%Z.

End SearchOrder.

(** ** The log of a pass, write by write *)

(** The undo writes of a stretch of the log: the writes of 0. *)
Definition isUndo (e : event) : bool :=
  match e with Write _ _ v => (v =? 0)%Z | Display _ => false end.

Definition undos (evs : list event) : nat :=
  length (List.filter isUndo evs).

(** The log is a run of pairs: a write, then the display that shows it. *)
Fixpoint paired (evs : list event) : bool :=
  match evs with
  | [] => true
  | Write _ _ _ :: Display _ :: rest => paired rest
  | _ => false
  end.

(** A write lands inside the grid and holds a value of [0, size]. *)
Definition inGrid (size : nat) (e : event) : Prop :=
  match e with
  | Write r c v => r < size /\ c < size /\ (0 <= v <= Z.of_nat size)%Z
  | Display _ => True
  end.

(** What a pass adds to the log, and how it balances against the empty
    cells of the grid. *)
Definition trace_post (size : nat) (s s' : Run) : Prop :=
  exists new,
    log s' = log s ++ new /\
    paired new = true /\
    Forall (inGrid size) new /\
    emptyCount size (board s') + placements new
    = emptyCount size (board s) + undos new.

(** The counter after a pass is at most [k] calls, and one walk of [K]
    calls for each placement, above the counter before it. *)
Definition cost_post (k K : Z) (s s' : Run) : Prop :=
  exists new,
    log s' = log s ++ new /\
    (steps s' <= steps s + k + Z.of_nat (placements new) * K)%Z.

(** A checker for [extends]. *)
Definition extendsb (size : nat) (b t : Board) : bool :=
  forallb (fun p => (cell b (fst p) (snd p) =? 0)%Z
                    || (cell t (fst p) (snd p) =? cell b (fst p) (snd p))%Z)
          (allCells size).

(** ** The text of the display *)

(** The character does not occur in the string. *)
Fixpoint absent (c : ascii) (s : string) : Prop :=
  match s with
  | EmptyString => True
  | String a s' => a <> c /\ absent c s'
  end.

(** A decimal digit or the minus sign. *)
Definition numeralChar (c : ascii) : Prop :=
  c = "-"%char \/ (48 <= nat_of_ascii c <= 57).

Fixpoint allChars (P : ascii -> Prop) (s : string) : Prop :=
  match s with
  | EmptyString => True
  | String a s' => P a /\ allChars P s'
  end.

(** The text of one cell, and of one cell with the bar that opens its
    box. *)
Definition cellText (v : Z) : string :=
  if (v =? 0)%Z then ". "%string
  else (String ESC "[97m" ++ to_string v ++ String ESC "[0m ")%string.

Definition colText (boxSize : nat) (b : Board) (row col : nat) : string :=
  ((if (col mod boxSize =? 0)%nat then "| " else "") ++ cellText (cell b row col))%string.

(** The text of one row of the screen, with the line that opens its band. *)
Definition rowText (size boxSize : nat) (b : Board) (row : nat) : string :=
  ((if (row mod boxSize =? 0)%nat
    then createHorizontalLine boxSize ++ String LF "" else "")
   ++ createRowString size boxSize b row ++ String LF "")%string.

Fixpoint joined {A} (f : A -> string) (l : list A) : string :=
  match l with
  | [] => ""%string
  | x :: l' => (f x ++ joined f l')%string
  end.

(** ** A shuffle that deals a seeding without completion *)

(** A shuffle that hands the digits to the first box in order and swaps
    the two middle digits for the second; the engine state counts the
    calls. *)
Definition swapShuffle (A : Type) (l : list A) (g : nat) : list A * nat :=
  (match g, l with
   | 1, [a; b; c; d] => [a; c; b; d]
   | _, _ => l
   end, S g).

(** * Part 3. Lemmas *)

(** ** Reading and writing cells *)

Lemma cell_setCell_ne (b : Board) r c v r' c' :
  (r', c') <> (r, c) -> cell (setCell b r c v) r' c' = cell b r' c'.
Proof.
  intros Hne. unfold cell, setCell.
  destruct (decide (r = r')) as [->|Hr].
  - rewrite list_lookup_alter_eq. destruct (b !! r') as [rw|]; simpl; [|done].
    rewrite list_lookup_insert_ne; [done|]. intros ->. by apply Hne.
  - by rewrite list_lookup_alter_ne.
Qed.

Lemma cell_setCell_eq size (b : Board) r c v :
  wf size b -> r < size -> c < size -> cell (setCell b r c v) r c = v.
Proof.
  intros [Hlen Hrows] Hr Hc. unfold cell, setCell.
  rewrite list_lookup_alter_eq.
  destruct (b !! r) as [rw|] eqn:E; simpl.
  - rewrite list_lookup_insert_eq; [done|].
    rewrite Forall_lookup in Hrows. rewrite (Hrows _ _ E). done.
  - apply lookup_ge_None in E. lia.
Qed.

Lemma wf_setCell size (b : Board) r c v : wf size b -> wf size (setCell b r c v).
Proof.
  intros [Hlen Hrows]. split.
  - unfold setCell. by rewrite length_alter.
  - apply Forall_alter; [done|]. intros rw _ Hl. by rewrite length_insert.
Qed.

(** Undoing a placement on a cell that was empty gives the grid back. *)
Lemma setCell_undo (b : Board) r c v :
  cell b r c = 0%Z -> setCell (setCell b r c v) r c 0%Z = b.
Proof.
  unfold cell, setCell. intros H.
  apply list_eq. intros i.
  destruct (decide (r = i)) as [->|]; [|by rewrite !list_lookup_alter_ne].
  rewrite !list_lookup_alter_eq.
  destruct (b !! i) as [rw|] eqn:E; simpl; [|done]. f_equal.
  destruct (rw !! c) as [x|] eqn:Ec.
  - subst x. rewrite list_insert_insert_eq. by apply list_insert_id.
  - apply lookup_ge_None in Ec. rewrite !list_insert_ge; [done|lia|].
    rewrite length_insert. lia.
Qed.

Lemma rowOf_lookup size (b : Board) r c :
  wf size b -> r < size -> c < size -> rowOf b r !! c = Some (cell b r c).
Proof.
  intros [Hlen Hrows] Hr Hc. unfold rowOf, cell.
  destruct (b !! r) as [rw|] eqn:E.
  - rewrite Forall_lookup in Hrows. pose proof (Hrows _ _ E) as Hl.
    destruct (rw !! c) eqn:Ec; [done|]. apply lookup_ge_None in Ec. lia.
  - apply lookup_ge_None in E. lia.
Qed.

Lemma rowOf_length size (b : Board) r :
  wf size b -> r < size -> length (rowOf b r) = size.
Proof.
  intros [Hlen Hrows] Hr. unfold rowOf.
  destruct (b !! r) as [rw|] eqn:E.
  - rewrite Forall_lookup in Hrows. by apply (Hrows _ _ E).
  - apply lookup_ge_None in E. lia.
Qed.

(** ** What the three constraint scans decide *)

Lemma isValidInRow_iff size (b : Board) row num :
  wf size b -> row < size ->
  isValidInRow b row num = true <-> (forall c, c < size -> cell b row c <> num).
Proof.
  intros Hwf Hr. unfold isValidInRow. rewrite forallb_forall. split.
  - intros H c Hc.
    pose proof (rowOf_lookup size b row c Hwf Hr Hc) as Hl.
    apply list_elem_of_lookup_2, list_elem_of_In, H in Hl.
    apply negb_true_iff, Z.eqb_neq in Hl. done.
  - intros H v Hv. apply negb_true_iff, Z.eqb_neq.
    apply list_elem_of_In, list_elem_of_lookup in Hv as [c Hc].
    pose proof (lookup_lt_Some _ _ _ Hc) as Hlt.
    rewrite (rowOf_length size) in Hlt by done.
    rewrite (rowOf_lookup size) in Hc by done.
    injection Hc as <-. by apply H.
Qed.

Lemma isValidInColumn_iff size (b : Board) col num :
  isValidInColumn size b col num = true <->
  (forall r, r < size -> cell b r col <> num).
Proof.
  unfold isValidInColumn. rewrite forallb_forall. split.
  - intros H r Hr. apply Z.eqb_neq, negb_true_iff, H, in_seq. lia.
  - intros H r Hr. apply in_seq in Hr. apply negb_true_iff, Z.eqb_neq, H. lia.
Qed.

Lemma isValidInBox_iff boxSize (b : Board) row col num :
  isValidInBox boxSize b row col num = true <->
  (forall r c,
      row - row mod boxSize <= r < row - row mod boxSize + boxSize ->
      col - col mod boxSize <= c < col - col mod boxSize + boxSize ->
      cell b r c <> num).
Proof.
  unfold isValidInBox. rewrite forallb_forall. split.
  - intros H r c Hr Hc.
    specialize (H (r - (row - row mod boxSize))).
    rewrite forallb_forall in H.
    assert (Hi : In (r - (row - row mod boxSize)) (seq 0 boxSize))
      by (apply in_seq; lia).
    specialize (H Hi (c - (col - col mod boxSize))).
    assert (Hj : In (c - (col - col mod boxSize)) (seq 0 boxSize))
      by (apply in_seq; lia).
    apply H, negb_true_iff, Z.eqb_neq in Hj.
    replace (row - row mod boxSize + (r - (row - row mod boxSize))) with r in Hj by lia.
    replace (col - col mod boxSize + (c - (col - col mod boxSize))) with c in Hj by lia.
    done.
  - intros H i Hi. apply forallb_forall. intros j Hj.
    apply in_seq in Hi, Hj. apply negb_true_iff, Z.eqb_neq, H; lia.
Qed.

Lemma isValidPlacement_iff size boxSize (b : Board) row col num :
  wf size b -> row < size ->
  isValidPlacement size boxSize b row col num = true <->
  (forall c, c < size -> cell b row c <> num) /\
  (forall r, r < size -> cell b r col <> num) /\
  (forall r c,
      row - row mod boxSize <= r < row - row mod boxSize + boxSize ->
      col - col mod boxSize <= c < col - col mod boxSize + boxSize ->
      cell b r c <> num).
Proof.
  intros Hwf Hr. unfold isValidPlacement.
  rewrite !andb_true_iff, (isValidInRow_iff size) by done.
  rewrite isValidInColumn_iff, isValidInBox_iff. tauto.
Qed.

(** ** What a search may change *)

Lemma frame_post_refl size b r : frame_post size b r b.
Proof. unfold frame_post. auto. Qed.

(** A placement on an empty cell followed by a framed search. *)
Lemma frame_post_place size (b b' : Board) row col num :
  cell b row col = 0%Z ->
  frame_post size (setCell b row col num) true b' ->
  frame_post size b true b'.
Proof.
  intros Hz (_ & Hkeep & Hwf). split; [done|split].
  - intros i j Hij.
    assert (Hne : (i, j) <> (row, col)) by (intros [= -> ->]; done).
    rewrite Hkeep; rewrite cell_setCell_ne; done.
  - intros H. by apply Hwf, wf_setCell.
Qed.

Section SearchFrame.

Variables size boxSize : nat.

Lemma placeDigits_frame rec row col nums :
  (forall b r b', rec b = Some (r, b') -> frame_post size b r b') ->
  forall b r b',
    cell b row col = 0%Z ->
    placeDigits size boxSize rec row col nums b = Some (r, b') ->
    frame_post size b r b'.
Proof.
  intros Hrec. induction nums as [|num rest IH]; intros b r b' Hz; simpl.
  - intros [= <- <-]. apply frame_post_refl.
  - destruct (isValidPlacement size boxSize b row col num); [|by apply IH].
    destruct (rec (setCell b row col num)) as [[[] b1]|] eqn:E; [| |done].
    + intros [= <- <-]. apply Hrec in E. by eapply frame_post_place.
    + apply Hrec in E as [Hsame _]. rewrite (Hsame eq_refl), setCell_undo by done.
      by apply IH.
Qed.

Lemma solveBoard_frame fuel :
  forall b r b', solveBoard size boxSize fuel b = Some (r, b') ->
                 frame_post size b r b'.
Proof.
  induction fuel as [|fuel IH]; intros b r b'; simpl; [done|].
  destruct (findEmptyCell size b) as [[row col]|] eqn:E.
  - apply placeDigits_frame; [done|].
    apply find_some in E as [_ E]. simpl in E. by apply Z.eqb_eq in E.
  - intros [= <- <-]. apply frame_post_refl.
Qed.

Lemma tryDigits_frame rec row col nums :
  (forall s r s', rec s = Some (r, s') -> frame_post size (board s) r (board s')) ->
  forall s r s',
    cell (board s) row col = 0%Z ->
    tryDigits size boxSize rec row col nums s = Some (r, s') ->
    frame_post size (board s) r (board s').
Proof.
  intros Hrec. induction nums as [|num rest IH]; intros s r s' Hz; simpl.
  - intros [= <- <-]. apply frame_post_refl.
  - destruct (isValidPlacement size boxSize (board s) row col num); [|by apply IH].
    destruct (rec _) as [[[] s1]|] eqn:E; [| |done].
    + intros [= <- <-]. apply Hrec in E. simpl in E. by eapply frame_post_place.
    + apply Hrec in E as [Hsame _]. specialize (Hsame eq_refl). simpl in Hsame.
      intros H. apply IH in H; simpl in *;
        rewrite Hsame, setCell_undo in * by done; done.
Qed.

Lemma backtrack_frame fuel :
  forall row col s r s',
    backtrack size boxSize fuel row col s = Some (r, s') ->
    frame_post size (board s) r (board s').
Proof.
  induction fuel as [|fuel IH]; intros row col s r s'; simpl; [done|].
  destruct (col =? size); [by intros H; apply IH in H|].
  destruct (row =? size); [intros [= <- <-]; apply frame_post_refl|].
  destruct (cell (board s) row col =? 0)%Z eqn:Ez; simpl.
  - intros H. apply tryDigits_frame in H; [done|by apply IH|].
    by apply Z.eqb_eq in Ez.
  - by intros H; apply IH in H.
Qed.

End SearchFrame.

(** ** Fuel: more never hurts, and [callsFrom] is enough *)

Section SearchFuel.

Variables size boxSize : nat.

Lemma placeDigits_mono (rec rec' : Board -> option (bool * Board)) row col nums :
  (forall b x, rec b = Some x -> rec' b = Some x) ->
  forall b x,
    placeDigits size boxSize rec row col nums b = Some x ->
    placeDigits size boxSize rec' row col nums b = Some x.
Proof.
  intros Hrec. induction nums as [|num rest IH]; intros b x; simpl; [done|].
  destruct (isValidPlacement size boxSize b row col num); [|by apply IH].
  destruct (rec _) as [[[] b1]|] eqn:E; [| |done];
    rewrite (Hrec _ _ E); [done|by apply IH].
Qed.

Lemma solveBoard_mono fuel :
  forall fuel' b x,
    fuel <= fuel' ->
    solveBoard size boxSize fuel b = Some x ->
    solveBoard size boxSize fuel' b = Some x.
Proof.
  induction fuel as [|fuel IH]; intros fuel' b x Hle; simpl; [done|].
  destruct fuel' as [|fuel']; [lia|]. simpl.
  destruct (findEmptyCell size b) as [[row col]|]; [|done].
  apply placeDigits_mono. intros b1 x1. apply IH. lia.
Qed.

Lemma tryDigits_mono (rec rec' : Run -> option (bool * Run)) row col nums :
  (forall s x, rec s = Some x -> rec' s = Some x) ->
  forall s x,
    tryDigits size boxSize rec row col nums s = Some x ->
    tryDigits size boxSize rec' row col nums s = Some x.
Proof.
  intros Hrec. induction nums as [|num rest IH]; intros s x; simpl; [done|].
  destruct (isValidPlacement size boxSize (board s) row col num); [|by apply IH].
  destruct (rec _) as [[[] s1]|] eqn:E; [| |done];
    rewrite (Hrec _ _ E); [done|by apply IH].
Qed.

Lemma backtrack_mono fuel :
  forall fuel' row col s x,
    fuel <= fuel' ->
    backtrack size boxSize fuel row col s = Some x ->
    backtrack size boxSize fuel' row col s = Some x.
Proof.
  induction fuel as [|fuel IH]; intros fuel' row col s x Hle; simpl; [done|].
  destruct fuel' as [|fuel']; [lia|]. simpl.
  destruct (col =? size); [apply IH; lia|].
  destruct (row =? size); [done|].
  destruct (negb _); [apply IH; lia|].
  apply tryDigits_mono. intros s1 x1. apply IH. lia.
Qed.

Lemma tryDigits_total (rec : Run -> option (bool * Run)) row col nums :
  (forall s, is_Some (rec s)) ->
  forall s, is_Some (tryDigits size boxSize rec row col nums s).
Proof.
  intros Hrec. induction nums as [|num rest IH]; intros s; simpl; [done|].
  destruct (isValidPlacement size boxSize (board s) row col num); [|done].
  destruct (Hrec (display (write row col num s))) as [[[] s1] ->]; done.
Qed.

Lemma backtrack_total fuel :
  forall row col s,
    0 < size -> walkPos size row col -> callsFrom size row col <= fuel ->
    is_Some (backtrack size boxSize fuel row col s).
Proof.
  unfold walkPos, callsFrom.
  induction fuel as [|fuel IH]; intros row col s Hpos Hw Hf; [lia|].
  simpl. destruct (Nat.eqb_spec col size) as [->|Hcs].
  - apply IH; [done| |]; nia.
  - destruct (Nat.eqb_spec row size) as [->|Hrs]; [done|].
    assert (row < size) by nia.
    assert (Hnext : is_Some (backtrack size boxSize fuel row (col + 1) (tick s)))
      by (apply IH; [done| |]; nia).
    destruct (negb _); [done|].
    apply tryDigits_total. intros s1. apply IH; [done| |]; nia.
Qed.

End SearchFuel.

(** ** The step counter and the log *)

Lemma placements_app l1 l2 : placements (l1 ++ l2) = placements l1 + placements l2.
Proof. unfold placements. by rewrite List.filter_app, length_app. Qed.

Lemma shown_app l1 l2 : shown (l1 ++ l2) = shown l1 ++ shown l2.
Proof. unfold shown. by rewrite omap_app. Qed.

Lemma nondecr_le lo l hi : nondecr lo l hi -> (lo <= hi)%Z.
Proof.
  revert lo. induction l as [|x l IH]; simpl; intros lo; [done|].
  intros [H1 H2]. apply IH in H2. lia.
Qed.

Lemma nondecr_app a l1 b l2 c :
  nondecr a l1 b -> nondecr b l2 c -> nondecr a (l1 ++ l2) c.
Proof.
  revert a. induction l1 as [|x l1 IH]; simpl; intros a.
  - intros Hab Hbc. destruct l2 as [|y l2]; simpl in *.
    + lia.
    + split; [lia|tauto].
  - intros [H1 H2] H3. split; [done|]. by apply IH.
Qed.

Lemma placements_write_le r c v : placements [Write r c v] <= 1.
Proof. unfold placements. simpl. destruct (negb _); simpl; lia. Qed.

Lemma onEmpty_setCell (b : Board) row col num e :
  cell b row col = 0%Z -> onEmpty (setCell b row col num) e -> onEmpty b e.
Proof.
  destruct e as [r c v|n]; simpl; [|done]. intros Hz H.
  destruct (decide ((r, c) = (row, col))) as [[= -> ->]|Hne]; [done|].
  by rewrite cell_setCell_ne in H.
Qed.

Lemma log_post_tick k s s' : log_post k (tick s) s' -> log_post (k + 1) s s'.
Proof.
  intros (new & Hlog & Hst & Hw & Hnd). exists new. simpl in *.
  split; [done|]. split; [lia|]. split; [done|].
  destruct (shown new); simpl in *; [lia|]. split; [lia|tauto].
Qed.

Lemma log_post_weaken k k' s s' : (k' <= k)%Z -> log_post k s s' -> log_post k' s s'.
Proof.
  intros Hk (new & Hlog & Hst & Hw & Hnd). exists new.
  split; [done|]. split; [lia|done].
Qed.

Section SearchLog.

Variables size boxSize : nat.

Lemma tryDigits_log rec row col nums :
  (forall s r s', rec s = Some (r, s') ->
                  frame_post size (board s) r (board s') /\ log_post 1 s s') ->
  forall s r s',
    cell (board s) row col = 0%Z ->
    tryDigits size boxSize rec row col nums s = Some (r, s') ->
    log_post 0 s s'.
Proof.
  intros Hrec. induction nums as [|num rest IH]; intros s r s' Hz; simpl.
  - intros [= <- <-]. exists []. simpl. rewrite app_nil_r.
    split; [done|]. change (placements []) with 0. split; [lia|]. split; [done|lia].
  - destruct (isValidPlacement size boxSize (board s) row col num); [|by apply IH].
    pose proof (placements_write_le row col num) as Hle.
    destruct (rec _) as [[[] s1]|] eqn:E; [| |done];
      apply Hrec in E as [Hfr (new1 & Hlog1 & Hst1 & Hw1 & Hnd1)]; simpl in *.
    + intros [= <- <-]. exists ([Write row col num; Display (steps s)] ++ new1).
      rewrite Hlog1, <- !app_assoc. split; [done|].
      rewrite placements_app, shown_app.
      change (placements [Write row col num; Display (steps s)])
        with (placements [Write row col num]).
      split; [lia|]. split.
      * apply Forall_app. split; [by repeat constructor|].
        eapply Forall_impl; [exact Hw1|]. intros e. by apply onEmpty_setCell.
      * simpl. split; [lia|done].
    + destruct Hfr as [Hsame _]. specialize (Hsame eq_refl).
      intros H. apply IH in H; simpl; [|by rewrite Hsame, setCell_undo].
      destruct H as (new2 & Hlog2 & Hst2 & Hw2 & Hnd2). simpl in *.
      rewrite Hsame, setCell_undo in Hw2 by done.
      exists (([Write row col num; Display (steps s)] ++ new1)
                ++ [Write row col 0%Z; Display (steps s1)] ++ new2).
      rewrite Hlog2, Hlog1, <- !app_assoc. split; [done|].
      rewrite !placements_app, !shown_app.
      change (placements [Write row col num; Display (steps s)])
        with (placements [Write row col num]).
      change (placements [Write row col 0%Z; Display (steps s1)]) with 0.
      split; [lia|]. split.
      * rewrite !Forall_app. split; [by repeat constructor|]. split.
        -- eapply Forall_impl; [exact Hw1|]. intros e. by apply onEmpty_setCell.
        -- split; [by repeat constructor|done].
      * change (shown [Write row col num; Display (steps s)]) with [steps s].
        change (shown [Write row col 0%Z; Display (steps s1)]) with [steps s1].
        simpl. split; [lia|]. eapply nondecr_app; [exact Hnd1|].
        simpl. split; [lia|done].
Qed.

Lemma backtrack_log fuel :
  forall row col s r s',
    backtrack size boxSize fuel row col s = Some (r, s') -> log_post 1 s s'.
Proof.
  induction fuel as [|fuel IH]; intros row col s r s'; simpl; [done|].
  destruct (col =? size).
  { intros H. apply IH, log_post_tick in H. revert H. apply log_post_weaken. lia. }
  destruct (row =? size).
  { intros [= <- <-]. exists []. simpl. rewrite app_nil_r.
    split; [done|]. change (placements []) with 0. split; [lia|]. split; [done|lia]. }
  destruct (cell (board s) row col =? 0)%Z eqn:Ez; simpl.
  - apply Z.eqb_eq in Ez. intros H.
    apply tryDigits_log in H; [by apply log_post_tick in H| |done].
    intros s1 r1 s1' H1. split; [by eapply backtrack_frame|by eapply IH].
  - intros H. apply IH, log_post_tick in H. revert H. apply log_post_weaken. lia.
Qed.

(** On a grid without empty cells the walk only advances. *)
Lemma backtrack_full fuel :
  forall row col s,
    0 < size -> walkPos size row col -> callsFrom size row col <= fuel ->
    (forall i j, i < size -> j < size -> cell (board s) i j <> 0%Z) ->
    backtrack size boxSize fuel row col s
    = Some (true, mkRun (board s) (steps s + Z.of_nat (callsFrom size row col)) (log s)).
Proof.
  unfold walkPos, callsFrom.
  induction fuel as [|fuel IH]; intros row col s Hpos Hw Hf Hfull; [lia|].
  simpl. destruct (Nat.eqb_spec col size) as [->|Hcs].
  - assert (row * S size + S size <= size * S size) by nia.
    rewrite IH; [|done|lia|lia|done]. simpl. do 3 f_equal. lia.
  - destruct (Nat.eqb_spec row size) as [->|Hrs].
    + unfold tick. do 3 f_equal. lia.
    + assert (row < size) by lia. assert (col < size) by lia.
      assert (row * S size + S size <= size * S size) by nia.
      destruct (Z.eqb_spec (cell (board s) row col) 0) as [Hz|_]; simpl.
      * by apply Hfull in Hz.
      * rewrite IH; [|done|lia|lia|done]. simpl. do 3 f_equal. lia.
Qed.

End SearchLog.

(** ** Peers, boxes, and lists without duplicates *)

Section Rules.

Variables size boxSize : nat.

Lemma peers_sym r c r' c' : peers boxSize r c r' c' -> peers boxSize r' c' r c.
Proof.
  unfold peers, sameBox. intros [Hne H]. split; [congruence|].
  destruct H as [->| [->|[H1 H2]]]; auto.
Qed.

Lemma box_start k r : r - r mod k = k * (r / k).
Proof. pose proof (Nat.div_mod_eq r k). lia. Qed.

Lemma box_range k r r' :
  0 < k -> (r - r mod k = r' - r' mod k <-> r - r mod k <= r' < r - r mod k + k).
Proof.
  intros Hk. rewrite !box_start.
  pose proof (Nat.div_mod_eq r' k) as Hd.
  pose proof (Nat.mod_upper_bound r' k ltac:(lia)) as Hm.
  split.
  - intros E. rewrite E. lia.
  - intros [H1 H2]. f_equal.
    apply (Nat.div_unique r' k (r / k) (r' - k * (r / k))); lia.
Qed.

Lemma box_of_index k q r : q * k <= r < q * k + k -> r - r mod k = q * k.
Proof.
  intros H. assert (0 < k) by lia. rewrite box_start.
  rewrite (Nat.mul_comm q k). f_equal. symmetry.
  apply (Nat.div_unique r k q (r - k * q)); lia.
Qed.

End Rules.

Lemma NoDup_list_prod {A B} (l : list A) (l' : list B) :
  NoDup l -> NoDup l' -> NoDup (list_prod l l').
Proof.
  intros Hl Hl'. induction Hl as [|a l Ha Hl IH]; simpl; [constructor|].
  apply NoDup_app. split; [|split; [|done]].
  - apply NoDup_fmap_2; [|done]. by intros x y [= ->].
  - intros [x y] Hin1 Hin2. apply list_elem_of_In, in_prod_iff in Hin2 as [Hx _].
    apply list_elem_of_In, in_map_iff in Hin1 as (y' & [= <- <-] & _).
    by apply Ha, list_elem_of_In.
Qed.

(** A duplicate-free list of [size] values of [1, size] holds each once,
    and conversely. *)
Lemma exactlyOnce_of_NoDup size (l : list Z) :
  length l = size -> NoDup l ->
  (forall x, x ∈ l -> (1 <= x <= Z.of_nat size)%Z) ->
  exactlyOnce size l.
Proof.
  intros Hlen Hnd Hrange v Hv. apply NoDup_ListNoDup in Hnd.
  apply (proj1 (NoDup_count_occ' Z.eq_dec l) Hnd).
  apply (NoDup_length_incl Hnd (l' := digits size)).
  - unfold digits. rewrite length_map, length_seq. lia.
  - intros x Hx. apply list_elem_of_In, Hrange in Hx. unfold digits.
    apply in_map_iff. exists (Z.to_nat x). split; [lia|]. apply in_seq. lia.
  - unfold digits. apply in_map_iff. exists (Z.to_nat v). split; [lia|].
    apply in_seq. lia.
Qed.

Lemma exactlyOnce_inv size (l : list Z) :
  length l = size -> exactlyOnce size l ->
  NoDup l /\ (forall x, x ∈ l -> (1 <= x <= Z.of_nat size)%Z).
Proof.
  intros Hlen Hex.
  assert (Hnd : NoDup (digits size)).
  { unfold digits. apply NoDup_fmap_2; [|apply NoDup_seq].
    intros x y. lia. }
  assert (Hperm : digits size ≡ₚ l).
  { apply NoDup_Permutation_bis; [by apply NoDup_ListNoDup| |].
    - unfold digits. rewrite length_map, length_seq. lia.
    - intros v Hv. apply (count_occ_In Z.eq_dec). rewrite Hex; [lia|].
      unfold digits in Hv. apply in_map_iff in Hv as (n & <- & Hn).
      apply in_seq in Hn. lia. }
  split.
  - by rewrite <- Hperm.
  - intros x Hx. rewrite <- Hperm in Hx. unfold digits in Hx.
    apply list_elem_of_In, in_map_iff in Hx as (n & <- & Hn).
    apply in_seq in Hn. lia.
Qed.

Lemma NoDup_map_inj {A B} (f : A -> B) (l : list A) x y :
  NoDup (map f l) -> x ∈ l -> y ∈ l -> f x = f y -> x = y.
Proof.
  intros Hnd Hx Hy Hf.
  apply list_elem_of_lookup in Hx as [i Hi], Hy as [j Hj].
  assert (i = j) as ->; [|congruence].
  eapply (NoDup_lookup _ _ _ (f x) Hnd).
  - change (map f l) with (f <$> l). by rewrite list_lookup_fmap, Hi.
  - change (map f l) with (f <$> l). by rewrite list_lookup_fmap, Hj, Hf.
Qed.

Section RulesFacts.

Variables size boxSize : nat.
Hypothesis Hsquare : boxSize * boxSize = size.

Lemma columnOf_lookup (b : Board) c i :
  i < size -> columnOf size b c !! i = Some (cell b i c).
Proof using Type.
  intros Hi. unfold columnOf. change (map ?f ?l) with (f <$> l).
  by rewrite list_lookup_fmap, lookup_seq_lt.
Qed.

Lemma columnOf_length (b : Board) c : length (columnOf size b c) = size.
Proof using Type. unfold columnOf. by rewrite length_map, length_seq. Qed.

Lemma boxOf_length (b : Board) br bc : length (boxOf boxSize b br bc) = size.
Proof using Hsquare.
  unfold boxOf, boxCells. by rewrite length_map, length_prod, !length_seq.
Qed.

Lemma boxCells_elem br bc r c :
  (r, c) ∈ boxCells boxSize br bc <->
  (br * boxSize <= r < br * boxSize + boxSize) /\
  (bc * boxSize <= c < bc * boxSize + boxSize).
Proof using Type.
  unfold boxCells. rewrite list_elem_of_In, in_prod_iff, !in_seq. done.
Qed.

Lemma boxCells_home r c :
  r < size -> c < size ->
  r / boxSize < boxSize /\ c / boxSize < boxSize /\
  (r, c) ∈ boxCells boxSize (r / boxSize) (c / boxSize).
Proof using Hsquare.
  intros Hr Hc. assert (0 < boxSize) by nia.
  pose proof (Nat.div_mod_eq r boxSize). pose proof (Nat.div_mod_eq c boxSize).
  pose proof (Nat.mod_upper_bound r boxSize ltac:(lia)).
  pose proof (Nat.mod_upper_bound c boxSize ltac:(lia)).
  split; [apply Nat.Div0.div_lt_upper_bound; lia|].
  split; [apply Nat.Div0.div_lt_upper_bound; lia|].
  apply boxCells_elem. lia.
Qed.

(** On a well-formed grid the rule-by-rule statement of the solved state
    says the same as: valid partial state without an empty cell. *)
Lemma solved_iff (b : Board) :
  wf size b -> solved size boxSize b <-> validPartial size boxSize b /\ full size b.
Proof using Hsquare.
  intros Hwf. split.
  - intros (Hrows & Hcols & Hboxes).
    assert (Hrange : forall r c, r < size -> c < size ->
                                 (1 <= cell b r c <= Z.of_nat size)%Z).
    { intros r c Hr Hc.
      destruct (exactlyOnce_inv size (rowOf b r)) as [_ Hin];
        [by apply rowOf_length|by apply Hrows|].
      apply Hin. eapply list_elem_of_lookup_2. by apply (rowOf_lookup size). }
    split; [split|].
    + intros r c Hr Hc. specialize (Hrange r c Hr Hc). lia.
    + intros r c r' c' Hr Hc Hr' Hc' [Hne Hp] _ Heq.
      destruct Hp as [<-|[<-|[Hb1 Hb2]]].
      * destruct (exactlyOnce_inv size (rowOf b r)) as [Hnd _];
          [by apply rowOf_length|by apply Hrows|].
        apply Hne. f_equal.
        eapply (NoDup_lookup _ _ _ _ Hnd); [by apply (rowOf_lookup size)|].
        rewrite Heq. by apply (rowOf_lookup size).
      * destruct (exactlyOnce_inv size (columnOf size b c)) as [Hnd _];
          [by apply columnOf_length|by apply Hcols|].
        apply Hne. f_equal.
        eapply (NoDup_lookup _ _ _ _ Hnd); [by apply columnOf_lookup|].
        rewrite Heq. by apply columnOf_lookup.
      * destruct (boxCells_home r c Hr Hc) as (Hbr & Hbc & Hin).
        destruct (boxCells_home r' c' Hr' Hc') as (_ & _ & Hin').
        assert (r' / boxSize = r / boxSize /\ c' / boxSize = c / boxSize) as [E1 E2].
        { rewrite !box_start in Hb1, Hb2. split; nia. }
        rewrite E1, E2 in Hin'.
        destruct (exactlyOnce_inv size (boxOf boxSize b (r / boxSize) (c / boxSize)))
          as [Hnd _]; [by apply boxOf_length|by apply Hboxes|].
        apply Hne.
        apply (NoDup_map_inj _ _ (r, c) (r', c') Hnd Hin Hin' Heq).
    + intros r c Hr Hc. specialize (Hrange r c Hr Hc). lia.
  - intros [[Hrange Hdiff] Hfull]. split; [|split].
    + intros r Hr. apply exactlyOnce_of_NoDup; [by apply rowOf_length| |].
      * apply NoDup_alt. intros i j x Hi Hj.
        pose proof (lookup_lt_Some _ _ _ Hi) as Hli.
        pose proof (lookup_lt_Some _ _ _ Hj) as Hlj.
        rewrite (rowOf_length size) in Hli, Hlj by done.
        rewrite (rowOf_lookup size) in Hi, Hj by done.
        destruct (decide (i = j)) as [|Hne]; [done|]. exfalso.
        apply (Hdiff r i r j); try done; [|by apply Hfull|congruence].
        split; [congruence|auto].
      * intros x Hx. apply list_elem_of_lookup in Hx as [i Hi].
        pose proof (lookup_lt_Some _ _ _ Hi) as Hli.
        rewrite (rowOf_length size) in Hli by done.
        rewrite (rowOf_lookup size) in Hi by done. injection Hi as <-.
        specialize (Hrange r i Hr Hli). specialize (Hfull r i Hr Hli). lia.
    + intros c Hc. apply exactlyOnce_of_NoDup; [by apply columnOf_length| |].
      * apply NoDup_alt. intros i j x Hi Hj.
        pose proof (lookup_lt_Some _ _ _ Hi) as Hli.
        pose proof (lookup_lt_Some _ _ _ Hj) as Hlj.
        rewrite columnOf_length in Hli, Hlj.
        rewrite columnOf_lookup in Hi, Hj by done.
        destruct (decide (i = j)) as [|Hne]; [done|]. exfalso.
        apply (Hdiff i c j c); try done; [|by apply Hfull|congruence].
        split; [congruence|auto].
      * intros x Hx. apply list_elem_of_lookup in Hx as [i Hi].
        pose proof (lookup_lt_Some _ _ _ Hi) as Hli.
        rewrite columnOf_length in Hli.
        rewrite columnOf_lookup in Hi by done. injection Hi as <-.
        specialize (Hrange i c Hli Hc). specialize (Hfull i c Hli Hc). lia.
    + intros br bc Hbr Hbc.
      assert (Hin : forall r c, (r, c) ∈ boxCells boxSize br bc ->
                r < size /\ c < size /\
                r - r mod boxSize = br * boxSize /\ c - c mod boxSize = bc * boxSize).
      { intros r c [H1 H2]%boxCells_elem.
        rewrite (box_of_index boxSize br r), (box_of_index boxSize bc c) by done.
        repeat split; nia. }
      apply exactlyOnce_of_NoDup; [by apply boxOf_length| |].
      * unfold boxOf. apply NoDup_fmap_2_strong.
        -- intros [r c] [r' c'] Hp Hq Heq. simpl in Heq.
           apply Hin in Hp as (Hr & Hc & Hbr1 & Hbc1).
           apply Hin in Hq as (Hr' & Hc' & Hbr2 & Hbc2).
           destruct (decide ((r, c) = (r', c'))) as [|Hne]; [done|]. exfalso.
           apply (Hdiff r c r' c'); try done; [|by apply Hfull].
           split; [done|]. right; right. split; congruence.
        -- apply NoDup_list_prod; apply NoDup_seq.
      * intros x Hx. unfold boxOf in Hx.
        apply list_elem_of_In, in_map_iff in Hx as ([r c] & <- & Hp). simpl.
        apply list_elem_of_In, Hin in Hp as (Hr & Hc & _).
        specialize (Hrange r c Hr Hc). specialize (Hfull r c Hr Hc). lia.
Qed.

End RulesFacts.

(** ** Placements and the rules *)

Section Scan.

Variable size : nat.

Lemma findEmptyCell_Some (b : Board) row col :
  findEmptyCell size b = Some (row, col) ->
  row < size /\ col < size /\ cell b row col = 0%Z.
Proof.
  intros [Hin Hz]%find_some. simpl in Hz. apply Z.eqb_eq in Hz.
  unfold allCells in Hin. apply in_prod_iff in Hin as [H1 H2].
  apply in_seq in H1, H2. lia.
Qed.

Lemma findEmptyCell_None (b : Board) :
  findEmptyCell size b = None -> full size b.
Proof.
  intros H r c Hr Hc. apply find_none with (x := (r, c)) in H.
  - simpl in H. by apply Z.eqb_neq in H.
  - apply in_prod_iff. split; apply in_seq; lia.
Qed.

Lemma digits_range num : In num (digits size) <-> (1 <= num <= Z.of_nat size)%Z.
Proof.
  unfold digits. rewrite in_map_iff. split.
  - intros (n & <- & Hn%in_seq). lia.
  - intros H. exists (Z.to_nat num). split; [lia|]. apply in_seq. lia.
Qed.

Lemma extends_place (b s : Board) row col :
  wf size b -> row < size -> col < size ->
  extends size b s -> extends size (setCell b row col (cell s row col)) s.
Proof.
  intros Hwf Hr Hc Hext r c Hr' Hc'.
  destruct (decide ((r, c) = (row, col))) as [[= -> ->]|Hne].
  - by rewrite (cell_setCell_eq size).
  - rewrite cell_setCell_ne by done. by apply Hext.
Qed.

End Scan.

Section Placement.

Variables size boxSize : nat.
Hypothesis Hsquare : boxSize * boxSize = size.

(** A digit may be placed exactly when no peer of the cell holds it. *)
Lemma isValidPlacement_peers (b : Board) row col num :
  wf size b -> row < size -> col < size -> cell b row col <> num ->
  isValidPlacement size boxSize b row col num = true <->
  (forall r c, r < size -> c < size -> peers boxSize row col r c -> cell b r c <> num).
Proof using Hsquare.
  intros Hwf Hr Hc Hself. assert (Hk : 0 < boxSize) by nia.
  rewrite (isValidPlacement_iff size boxSize) by done. split.
  - intros (Hrow & Hcol & Hbox) r c Hr' Hc' [Hne [<-|[<-|[Hb1 Hb2]]]].
    + by apply Hrow.
    + by apply Hcol.
    + apply Hbox; by apply box_range.
  - intros H. split; [|split].
    + intros c Hc'. destruct (decide (c = col)) as [->|Hne]; [done|].
      apply H; [done..|]. split; [congruence|auto].
    + intros r Hr'. destruct (decide (r = row)) as [->|Hne]; [done|].
      apply H; [done..|]. split; [congruence|auto].
    + intros r c Hr' Hc'.
      destruct (decide ((row, col) = (r, c))) as [[= <- <-]|Hne]; [done|].
      pose proof (Nat.div_mod_eq row boxSize).
      pose proof (Nat.div_mod_eq col boxSize).
      assert (row / boxSize < boxSize) by (apply Nat.Div0.div_lt_upper_bound; lia).
      assert (col / boxSize < boxSize) by (apply Nat.Div0.div_lt_upper_bound; lia).
      rewrite !box_start in Hr', Hc'.
      apply H; [nia|nia|]. split; [done|]. right; right.
      split; apply box_range; rewrite ?box_start; lia.
Qed.

Lemma validPartial_place (b : Board) row col num :
  wf size b -> row < size -> col < size ->
  cell b row col = 0%Z -> (1 <= num <= Z.of_nat size)%Z ->
  isValidPlacement size boxSize b row col num = true ->
  validPartial size boxSize b ->
  validPartial size boxSize (setCell b row col num).
Proof using Hsquare.
  intros Hwf Hr Hc Hz Hnum Hok [Hrange Hdiff].
  assert (Hself : cell b row col <> num) by lia.
  pose proof (proj1 (isValidPlacement_peers b row col num Hwf Hr Hc Hself) Hok)
    as Hfree. clear Hok.
  assert (Hget : forall r c, cell (setCell b row col num) r c
                   = if decide ((r, c) = (row, col)) then num else cell b r c).
  { intros r c. destruct (decide _) as [[= -> ->]|Hne].
    - by apply (cell_setCell_eq size).
    - by apply cell_setCell_ne. }
  split.
  - intros r c Hr' Hc'. rewrite Hget. destruct (decide _); [lia|by apply Hrange].
  - intros r c r' c' Hr1 Hc1 Hr2 Hc2 Hp. rewrite !Hget.
    destruct (decide ((r, c) = (row, col))) as [[= -> ->]|Hne1];
      destruct (decide ((r', c') = (row, col))) as [[= -> ->]|Hne2].
    + by destruct Hp.
    + intros _ Heq. by apply (Hfree r' c').
    + intros _ Heq. apply peers_sym in Hp. by apply (Hfree r c).
    + by apply Hdiff.
Qed.

(** *** A successful search ends in a solved grid *)

Lemma placeDigits_sound rec row col nums :
  (forall b r b', rec b = Some (r, b') -> frame_post size b r b') ->
  (forall b b', wf size b -> validPartial size boxSize b ->
                rec b = Some (true, b') -> complete size boxSize b') ->
  row < size -> col < size ->
  (forall num, In num nums -> (1 <= num <= Z.of_nat size)%Z) ->
  forall b b',
    wf size b -> validPartial size boxSize b -> cell b row col = 0%Z ->
    placeDigits size boxSize rec row col nums b = Some (true, b') ->
    complete size boxSize b'.
Proof using Hsquare.
  intros Hfr Hrec Hr Hc. induction nums as [|num rest IH];
    intros Hnums b b' Hwf Hvp Hz; simpl; [done|].
  assert (Hrest : forall n, In n rest -> (1 <= n <= Z.of_nat size)%Z)
    by (intros n Hn; apply Hnums; by right).
  destruct (isValidPlacement size boxSize b row col num) eqn:Hok; [|by apply IH].
  destruct (rec _) as [[[] b1]|] eqn:E; [| |done].
  - intros [= <-]. apply Hrec in E; [done|by apply wf_setCell|].
    apply validPartial_place; [done..|apply Hnums; by left|done|done].
  - apply Hfr in E as [Hsame _]. rewrite (Hsame eq_refl), setCell_undo by done.
    by apply IH.
Qed.

Lemma solveBoard_sound fuel :
  forall b b',
    wf size b -> validPartial size boxSize b ->
    solveBoard size boxSize fuel b = Some (true, b') -> complete size boxSize b'.
Proof using Hsquare.
  induction fuel as [|fuel IH]; intros b b' Hwf Hvp; simpl; [done|].
  destruct (findEmptyCell size b) as [[row col]|] eqn:E.
  - apply findEmptyCell_Some in E as (Hr & Hc & Hz).
    apply placeDigits_sound; try done.
    + apply solveBoard_frame.
    + intros num. apply digits_range.
  - intros [= <-]. split; [done|by apply findEmptyCell_None].
Qed.

(** *** A search on a grid that has a completion succeeds *)

Lemma completion_valid (b s : Board) row col :
  wf size b -> row < size -> col < size -> cell b row col = 0%Z ->
  complete size boxSize s -> extends size b s ->
  isValidPlacement size boxSize b row col (cell s row col) = true.
Proof using Hsquare.
  intros Hwf Hr Hc Hz [[Hrange Hdiff] Hfull] Hext.
  pose proof (Hfull row col Hr Hc) as Hnz.
  apply isValidPlacement_peers; [done..|congruence|].
  intros r c Hr' Hc' Hp Heq.
  assert (Hbnz : cell b r c <> 0%Z) by congruence.
  apply Hext in Hbnz; [|done..].
  apply (Hdiff row col r c); [done..|congruence].
Qed.

Lemma placeDigits_complete rec row col nums (s : Board) :
  (forall b r b', rec b = Some (r, b') -> frame_post size b r b') ->
  (forall b r b', wf size b -> extends size b s -> rec b = Some (r, b') -> r = true) ->
  complete size boxSize s -> row < size -> col < size ->
  forall b r b',
    wf size b -> extends size b s -> cell b row col = 0%Z ->
    In (cell s row col) nums ->
    placeDigits size boxSize rec row col nums b = Some (r, b') -> r = true.
Proof using Hsquare.
  intros Hfr Hrec Hs Hr Hc. induction nums as [|num rest IH];
    intros b r b' Hwf Hext Hz Hin; simpl; [done|].
  destruct (isValidPlacement size boxSize b row col num) eqn:Hok.
  - destruct (rec _) as [[[] b1]|] eqn:E; [by intros [= <- _]| |done].
    pose proof E as [Hsame _]%Hfr.
    rewrite (Hsame eq_refl), setCell_undo by done.
    apply IH; [done..|]. destruct Hin as [->|]; [|done].
    apply Hrec in E; [done|by apply wf_setCell|by apply extends_place].
  - apply IH; [done..|]. destruct Hin as [->|]; [|done].
    by rewrite completion_valid in Hok.
Qed.

Lemma solveBoard_complete fuel (s : Board) :
  complete size boxSize s ->
  forall b r b',
    wf size b -> extends size b s ->
    solveBoard size boxSize fuel b = Some (r, b') -> r = true.
Proof using Hsquare.
  intros Hs. induction fuel as [|fuel IH]; intros b r b' Hwf Hext; simpl; [done|].
  destruct (findEmptyCell size b) as [[row col]|] eqn:E; [|by intros [= <- _]].
  apply findEmptyCell_Some in E as (Hr & Hc & Hz).
  apply (placeDigits_complete _ _ _ _ s); try done.
  - apply solveBoard_frame.
  - apply digits_range. destruct Hs as [[Hrange _] Hfull].
    specialize (Hrange row col Hr Hc). specialize (Hfull row col Hr Hc). lia.
Qed.

(** Success on a valid partial state, in the words of the rules. *)
Lemma solveBoard_sound_solved fuel (b b' : Board) :
  wf size b -> validPartial size boxSize b ->
  solveBoard size boxSize fuel b = Some (true, b') -> solved size boxSize b'.
Proof using Hsquare.
  intros Hwf Hvp Hrun.
  pose proof (solveBoard_frame size boxSize fuel b true b' Hrun) as (_ & _ & Hwf').
  apply (solved_iff size boxSize Hsquare); [by apply Hwf'|].
  by apply (solveBoard_sound fuel b b').
Qed.

End Placement.

(** ** The two searches walk the same tree *)

Lemma find_app_first {A} (f : A -> bool) (l1 l2 : list A) :
  List.find f (l1 ++ l2)
  = match List.find f l1 with Some x => Some x | None => List.find f l2 end.
Proof. induction l1 as [|x l1 IH]; simpl; [done|]. by destruct (f x). Qed.

Section Refinement.

Variables size boxSize : nat.

Lemma find_row_first (f : nat * nat -> bool) a c m i j :
  List.find f (map (pair a) (seq c m)) = Some (i, j) ->
  i = a /\ forall j', c <= j' < j -> f (a, j') = false.
Proof.
  revert c. induction m as [|m IH]; intros c; simpl; [done|].
  destruct (f (a, c)) eqn:E.
  - intros [= <- <-]. split; [done|]. lia.
  - intros H. apply IH in H as [-> H]. split; [done|].
    intros j' Hj'. destruct (decide (j' = c)) as [->|]; [done|]. apply H. lia.
Qed.

Lemma find_cells_first (f : nat * nat -> bool) n a i j :
  List.find f (list_prod (seq a n) (seq 0 size)) = Some (i, j) ->
  forall i' j', a <= i' -> j' < size -> i' < i \/ (i' = i /\ j' < j) ->
                f (i', j') = false.
Proof.
  revert a. induction n as [|n IH]; intros a; simpl; [done|].
  rewrite find_app_first.
  destruct (List.find f (map (pair a) (seq 0 size))) as [[i0 j0]|] eqn:E.
  - intros [= -> ->] i' j' Hi' Hj' Hlt.
    pose proof E as [Hin _]%find_some. apply in_map_iff in Hin as (x & [= <- <-] & _).
    apply find_row_first in E as [_ E].
    destruct Hlt as [|[-> Hlt]]; [lia|]. apply E. lia.
  - intros H i' j' Hi' Hj' Hlt.
    destruct (decide (i' = a)) as [->|Hne].
    + apply (find_none _ _ E). apply in_map, in_seq. lia.
    + apply (IH _ H); [lia|done|done].
Qed.

Lemma findEmptyCell_first (b : Board) row col :
  row < size -> col < size -> filledBefore size b row col -> cell b row col = 0%Z ->
  findEmptyCell size b = Some (row, col).
Proof.
  intros Hr Hc Hbefore Hz. unfold findEmptyCell, allCells.
  destruct (List.find _ _) as [[i j]|] eqn:E.
  - pose proof (findEmptyCell_Some size b i j E) as (Hi & Hj & Hz').
    pose proof (find_cells_first _ _ _ _ _ E) as Hfirst.
    destruct (lt_eq_lt_dec i row) as [[Hlt| ->]|Hgt].
    + exfalso. apply (Hbefore i j); auto.
    + destruct (lt_eq_lt_dec j col) as [[Hlt| ->]|Hgt]; [|done|].
      * exfalso. apply (Hbefore row j); auto.
      * specialize (Hfirst row col ltac:(lia) Hc ltac:(lia)). simpl in Hfirst.
        apply Z.eqb_neq in Hfirst. done.
    + specialize (Hfirst row col ltac:(lia) Hc ltac:(lia)). simpl in Hfirst.
      apply Z.eqb_neq in Hfirst. done.
  - apply (findEmptyCell_None size) in E. by apply E in Hz.
Qed.

Lemma findEmptyCell_full (b : Board) : full size b -> findEmptyCell size b = None.
Proof.
  intros Hfull. destruct (findEmptyCell size b) as [[i j]|] eqn:E; [|done].
  apply findEmptyCell_Some in E as (Hi & Hj & Hz). by apply Hfull in Hz.
Qed.

Lemma filledBefore_place (b : Board) row col num :
  wf size b -> row < size -> col < size -> num <> 0%Z ->
  filledBefore size b row col -> filledBefore size (setCell b row col num) row (col + 1).
Proof.
  intros Hwf Hr Hc Hnum Hbefore i j Hi Hj Hlt.
  destruct (decide ((i, j) = (row, col))) as [[= -> ->]|Hne].
  - by rewrite (cell_setCell_eq size).
  - rewrite cell_setCell_ne by done. apply Hbefore; [done..|].
    destruct (decide (j = col)); [|lia]. subst. destruct Hlt as [|[-> _]]; [lia|done].
Qed.

Lemma tryDigits_placeDigits recB recS row col nums :
  (forall s r s', recB s = Some (r, s') -> frame_post size (board s) r (board s')) ->
  (forall s r s',
      wf size (board s) -> filledBefore size (board s) row (col + 1) ->
      recB s = Some (r, s') -> recS (board s) = Some (r, board s')) ->
  row < size -> col < size -> (forall num, In num nums -> num <> 0%Z) ->
  forall s r s',
    wf size (board s) -> filledBefore size (board s) row col ->
    cell (board s) row col = 0%Z ->
    tryDigits size boxSize recB row col nums s = Some (r, s') ->
    placeDigits size boxSize recS row col nums (board s) = Some (r, board s').
Proof.
  intros Hfr Hrec Hr Hc. induction nums as [|num rest IH];
    intros Hnums s r s' Hwf Hbefore Hz; simpl.
  - by intros [= <- <-].
  - assert (Hrest : forall n, In n rest -> n <> 0%Z)
      by (intros n Hn; apply Hnums; by right).
    destruct (isValidPlacement size boxSize (board s) row col num); [|by apply IH].
    destruct (recB _) as [[r1 s1]|] eqn:E; [|done].
    pose proof (Hfr _ _ _ E) as [Hsame _].
    apply Hrec in E; simpl;
      [|by apply wf_setCell|apply filledBefore_place; try done; apply Hnums; by left].
    simpl in E. rewrite E. destruct r1; [by intros [= <- <-]|].
    specialize (Hsame eq_refl). simpl in Hsame.
    intros H. apply IH in H; simpl in *;
      rewrite ?Hsame, ?setCell_undo in * by done; done.
Qed.

Lemma backtrack_solveBoard fuelB :
  forall row col s r s' fuelS,
    0 < size -> wf size (board s) -> walkPos size row col ->
    filledBefore size (board s) row col -> cellsFrom size row col < fuelS ->
    backtrack size boxSize fuelB row col s = Some (r, s') ->
    solveBoard size boxSize fuelS (board s) = Some (r, board s').
Proof.
  unfold walkPos, cellsFrom.
  induction fuelB as [|fuelB IH];
    intros row col s r s' fuelS Hpos Hwf Hw Hbefore Hfuel; simpl; [done|].
  destruct (Nat.eqb_spec col size) as [->|Hcs].
  { intros H. apply (IH (row + 1) 0 (tick s)); [done|done|lia| |nia|done].
    intros i j Hi Hj Hlt. apply Hbefore; [done..|lia]. }
  destruct (Nat.eqb_spec row size) as [->|Hrs].
  { intros [= <- <-]. destruct fuelS as [|fuelS]; [lia|]. simpl.
    rewrite findEmptyCell_full; [done|].
    intros i j Hi Hj. apply Hbefore; [done..|lia]. }
  assert (row < size) by lia. assert (col < size) by lia.
  destruct (Z.eqb_spec (cell (board s) row col) 0) as [Hz|Hnz]; simpl.
  - destruct fuelS as [|fuelS]; [lia|]. simpl.
    rewrite (findEmptyCell_first _ row col) by done.
    intros Hbt.
    apply (tryDigits_placeDigits _ (solveBoard size boxSize fuelS)) in Hbt;
      try done.
    + intros s1 r1 s1'. apply backtrack_frame.
    + intros s1 r1 s1' Hwf1 Hb1. apply IH; [done..|lia|done|nia].
    + intros num Hnum%digits_range. lia.
  - intros Hbt. apply (IH row (col + 1) (tick s)); [done|done|lia| |nia|done].
    intros i j Hi Hj Hlt. destruct (decide ((i, j) = (row, col))) as [[= -> ->]|Hne];
      [done|]. apply Hbefore; [done..|].
    destruct (decide (j = col)); [|lia]. subst. destruct Hlt as [|[-> _]]; [lia|done].
Qed.

(** With no cell to visit, [col == size] holds at every call: the walk of
    [backtrack] never reaches its exit. *)
Lemma backtrack_size0 fuel :
  forall row s, backtrack 0 boxSize fuel row 0 s = None.
Proof. induction fuel as [|fuel IH]; intros row s; simpl; [done|]. apply IH. Qed.

End Refinement.

(** ** Counting the removed cells *)

Lemma filter_ext_elem {A} (P Q : A -> Prop)
    `{!forall x, Decision (P x)} `{!forall x, Decision (Q x)} (l : list A) :
  (forall x, x ∈ l -> (P x <-> Q x)) -> filter P l = filter Q l.
Proof.
  induction l as [|x l IH]; intros Hpq; [done|].
  rewrite !filter_cons. rewrite IH by (intros y Hy; apply Hpq; by right).
  assert (Hx : P x <-> Q x) by (apply Hpq; by left).
  destruct (decide (P x)), (decide (Q x)); tauto.
Qed.

Lemma filter_all {A} (P : A -> Prop) `{!forall x, Decision (P x)} (l : list A) :
  (forall x, x ∈ l -> P x) -> filter P l = l.
Proof.
  induction l as [|x l IH]; intros Hall; [done|].
  rewrite filter_cons, IH by (intros y Hy; apply Hall; by right).
  destruct (decide (P x)) as [|Hn]; [done|]. exfalso. apply Hn, Hall. by left.
Qed.

Lemma filter_none {A} (P : A -> Prop) `{!forall x, Decision (P x)} (l : list A) :
  (forall x, x ∈ l -> ~ P x) -> filter P l = [].
Proof.
  induction l as [|x l IH]; intros Hnone; [done|].
  rewrite filter_cons, IH by (intros y Hy; apply Hnone; by right).
  destruct (decide (P x)) as [Hp|]; [|done]. exfalso. apply (Hnone x); [by left|done].
Qed.

Lemma filter_take_NoDup {A} `{!EqDecision A} (l : list A) k :
  NoDup l -> filter (fun x => x ∈ take k l) l = take k l.
Proof.
  intros Hnd. rewrite <- (take_drop k l) in Hnd.
  apply NoDup_app in Hnd as (_ & Hdisj & _).
  transitivity (filter (fun x => x ∈ take k l) (take k l ++ drop k l));
    [by rewrite take_drop|].
  rewrite filter_app, filter_all by done.
  rewrite filter_none; [by rewrite app_nil_r|].
  intros x Hx Hin. by apply (Hdisj x).
Qed.

Section Removal.

Variable size : nat.

Lemma allCells_elem r c : (r, c) ∈ allCells size <-> r < size /\ c < size.
Proof.
  unfold allCells. rewrite list_elem_of_In, in_prod_iff, !in_seq. lia.
Qed.

Lemma allCells_NoDup : NoDup (allCells size).
Proof. apply NoDup_list_prod; apply NoDup_seq. Qed.

Lemma allCells_length : length (allCells size) = size * size.
Proof. unfold allCells. by rewrite length_prod, !length_seq. Qed.

(** The cells of a grid after a run of [board[row][col] = 0]. *)
Lemma zeroed_cells (l : list (nat * nat)) :
  forall b : Board,
    wf size b -> (forall rc, rc ∈ l -> rc ∈ allCells size) ->
    let b' := fold_left (fun b rc => setCell b (fst rc) (snd rc) 0%Z) l b in
    wf size b' /\
    forall r c, cell b' r c = if decide ((r, c) ∈ l) then 0%Z else cell b r c.
Proof.
  induction l as [|[r0 c0] l IH]; intros b Hwf Hin; simpl.
  - split; [done|]. intros r c.
    destruct (decide ((r, c) ∈ [])) as [H|]; [|done]. by apply elem_of_nil in H.
  - destruct (IH (setCell b r0 c0 0%Z)) as [Hwf' Hcells];
      [by apply wf_setCell|intros rc Hrc; apply Hin; by right|].
    split; [done|]. intros r c. rewrite Hcells.
    assert (Hr0 : r0 < size /\ c0 < size) by (apply allCells_elem, Hin; by left).
    destruct (decide ((r, c) ∈ l)) as [Hl|Hl].
    + rewrite decide_True; [done|by right].
    + destruct (decide ((r, c) = (r0, c0))) as [[= -> ->]|Hne].
      * rewrite decide_True by (by left). destruct Hr0.
        by rewrite (cell_setCell_eq size).
      * rewrite decide_False
          by (intros [?|?]%elem_of_cons; [by apply Hne|by apply Hl]).
        by apply cell_setCell_ne.
Qed.

Lemma zeroed_count (b : Board) (cells : list (nat * nat)) k :
  wf size b -> full size b -> cells ≡ₚ allCells size -> k <= size * size ->
  emptyCount size
    (fold_left (fun b rc => setCell b (fst rc) (snd rc) 0%Z) (take k cells) b) = k.
Proof.
  intros Hwf Hfull Hperm Hk.
  assert (Hin : forall rc, rc ∈ take k cells -> rc ∈ allCells size).
  { intros rc Hrc. rewrite <- Hperm. eapply elem_of_take in Hrc as (i & Hi & _).
    by eapply list_elem_of_lookup_2. }
  destruct (zeroed_cells (take k cells) b Hwf Hin) as [_ Hcells].
  unfold emptyCount.
  rewrite (filter_ext_elem _ (fun rc => rc ∈ take k cells)).
  - rewrite <- Hperm, filter_take_NoDup.
    + rewrite length_take, (Permutation_length Hperm), allCells_length. lia.
    + rewrite Hperm. apply allCells_NoDup.
  - intros [r c] [Hr Hc]%allCells_elem. simpl. rewrite Hcells.
    destruct (decide ((r, c) ∈ take k cells)) as [|Hn]; [done|]. split; [|done].
    intros Hz. by destruct (Hfull r c Hr Hc).
Qed.

End Removal.

(** ** binary64 facts: the product with a difficulty of [0, 1] *)

Section Binary64.

Local Open Scope Z_scope.

Lemma digits2_pos_size p : digits2_pos p = Pos.size p.
Proof. induction p; simpl; congruence. Qed.

Lemma Zdigits2_log2 p : Zdigits2 (Zpos p) = Z.log2 (Zpos p) + 1.
Proof.
  simpl. rewrite digits2_pos_size. destruct p; simpl; lia.
Qed.

Lemma Zdigits2_bound m k : 0 <= m < 2 ^ k -> 0 <= k -> 0 <= Zdigits2 m <= k.
Proof.
  intros [H0 Hk] Hk0. destruct m as [|p|p]; [simpl; lia| |lia].
  rewrite Zdigits2_log2.
  assert (Z.log2 (Zpos p) < k) by (apply Z.log2_lt_pow2; lia).
  pose proof (Z.log2_nonneg (Zpos p)). lia.
Qed.

Lemma Zdigits2_mul_pow2 p k :
  0 <= k -> Zdigits2 (Zpos p * 2 ^ k) = Zdigits2 (Zpos p) + k.
Proof.
  intros Hk.
  assert (Hpos : 0 < Zpos p * 2 ^ k) by (apply Z.mul_pos_pos; [lia|by apply Z.pow_pos_nonneg]).
  destruct (Zpos p * 2 ^ k) as [|q|q] eqn:E; [lia| |lia].
  rewrite !Zdigits2_log2, <- E, Z.log2_mul_pow2 by lia. lia.
Qed.

(** A shift to the right by one place halves the mantissa. *)
Lemma shr_1_m mrs : 0 <= shr_m mrs -> shr_m (shr_1 mrs) = shr_m mrs / 2.
Proof.
  destruct mrs as [m r s]. simpl. intros H.
  destruct m as [|[p|p|]|p]; simpl; [done| | |done|lia].
  - apply (Z.div_unique _ _ _ 1); lia.
  - apply (Z.div_unique _ _ _ 0); lia.
Qed.

Lemma shr_iter_m p :
  forall mrs, 0 <= shr_m mrs ->
    shr_m (SpecFloat.iter_pos shr_1 p mrs) = shr_m mrs / 2 ^ Zpos p.
Proof.
  assert (Hpow : forall q, 0 < 2 ^ Zpos q) by (intros q; by apply Z.pow_pos_nonneg).
  induction p as [p IH|p IH|]; intros mrs H; simpl SpecFloat.iter_pos.
  - assert (H1 : 0 <= shr_m (shr_1 mrs))
      by (rewrite shr_1_m by done; apply Z.div_pos; lia).
    assert (H2 : 0 <= shr_m (SpecFloat.iter_pos shr_1 p (shr_1 mrs)))
      by (rewrite IH by done; apply Z.div_pos; [done|apply Hpow]).
    rewrite IH, IH, shr_1_m by done.
    pose proof (Hpow p).
    rewrite !Z.div_div by lia. f_equal.
    replace (Zpos p~1) with (Zpos p + Zpos p + 1) by lia.
    rewrite !Z.pow_add_r, Z.pow_1_r by lia. ring.
  - assert (H2 : 0 <= shr_m (SpecFloat.iter_pos shr_1 p mrs))
      by (rewrite IH by done; apply Z.div_pos; [done|apply Hpow]).
    rewrite IH, IH by done.
    pose proof (Hpow p).
    rewrite !Z.div_div by lia. f_equal.
    replace (Zpos p~0) with (Zpos p + Zpos p) by lia.
    rewrite !Z.pow_add_r by lia. ring.
  - by apply shr_1_m.
Qed.

(** [shr] by [n] places divides the mantissa by [2 ^ n] and adds [n] to
    the exponent; for [n <= 0] it does nothing. *)
Lemma shr_value mrs e n :
  0 <= shr_m mrs ->
  shr_m (fst (shr mrs e n)) = shr_m mrs / 2 ^ Z.max n 0 /\
  snd (shr mrs e n) = e + Z.max n 0.
Proof.
  intros H. destruct n as [|p|p]; simpl.
  - rewrite Z.div_1_r. split; [done|lia].
  - rewrite shr_iter_m by done. done.
  - rewrite Z.div_1_r. split; [done|lia].
Qed.

Lemma round_nearest_even_bound m l : 0 <= m -> m <= round_nearest_even m l <= m + 1.
Proof. intros H. destruct l as [|[]]; simpl; try lia. destruct (Z.even m); lia. Qed.

Lemma div_succ_le a q : 0 < q -> (a + 1) / q <= a / q + 1.
Proof.
  intros Hq. rewrite <- (Z.div_add a 1 q) by lia.
  apply Z.div_le_mono; lia.
Qed.

(** Rounding a mantissa that needs no shift changes nothing. *)
Lemma binary_round_aux_exact p ex :
  fexp 53 1024 (Zdigits2 (Zpos p) + ex) <= ex -> ex <= 1024 - 53 ->
  binary_round_aux 53 1024 false (Zpos p) ex loc_Exact = S754_finite false p ex.
Proof.
  intros Hn He. unfold binary_round_aux, shr_fexp.
  assert (Hshr : forall mrs,
             shr mrs ex (fexp 53 1024 (Zdigits2 (Zpos p) + ex) - ex) = (mrs, ex)).
  { intros mrs. destruct (fexp 53 1024 (Zdigits2 (Zpos p) + ex) - ex) eqn:E;
      [done|lia|done]. }
  rewrite Hshr. cbn [shr_record_of_loc loc_of_shr_record shr_m round_nearest_even].
  rewrite Hshr. cbn [shr_record_of_loc shr_m].
  by destruct (Z.leb_spec ex (1024 - 53)); [|lia].
Qed.

(** The integer part of a rounded value below [2 ^ 31]: the integer part
    of the exact value, or one more. *)
Lemma binary_round_aux_floor mx ex :
  0 <= mx -> ex <= 0 -> mx < 2 ^ (31 - ex) ->
  nonnegDouble (binary_round_aux 53 1024 false mx ex loc_Exact) /\
  mx / 2 ^ (- ex)
  <= floorDouble (binary_round_aux 53 1024 false mx ex loc_Exact)
  <= mx / 2 ^ (- ex) + 1.
Proof.
  intros Hm He Hlt. unfold binary_round_aux, shr_fexp.
  set (n1 := fexp 53 1024 (Zdigits2 mx + ex) - ex).
  destruct (shr_value (shr_record_of_loc mx loc_Exact) ex n1) as [Hm1 He1];
    [simpl; lia|].
  destruct (shr (shr_record_of_loc mx loc_Exact) ex n1) as [mrs1 e1].
  cbn [fst snd shr_record_of_loc shr_m] in Hm1, He1.
  set (m1 := round_nearest_even (shr_m mrs1) (loc_of_shr_record mrs1)).
  assert (Hd : 0 <= Zdigits2 mx <= 31 - ex) by (apply Zdigits2_bound; lia).
  assert (Hk1 : 0 <= Z.max n1 0 /\ e1 <= 0).
  { unfold fexp, emin in n1. lia. }
  assert (Hp1 : 0 < 2 ^ Z.max n1 0) by (apply Z.pow_pos_nonneg; lia).
  assert (Hq1 : 0 < 2 ^ (- e1)) by (apply Z.pow_pos_nonneg; lia).
  assert (Hb1 : 0 <= shr_m mrs1 < 2 ^ (31 - e1)).
  { rewrite Hm1. split; [by apply Z.div_pos|].
    apply Z.div_lt_upper_bound; [done|].
    rewrite <- Z.pow_add_r by lia.
    by replace (Z.max n1 0 + (31 - e1)) with (31 - ex) by lia. }
  pose proof (round_nearest_even_bound (shr_m mrs1) (loc_of_shr_record mrs1)
                ltac:(lia)) as Hr.
  fold m1 in Hr.
  set (n2 := fexp 53 1024 (Zdigits2 m1 + e1) - e1).
  destruct (shr_value (shr_record_of_loc m1 loc_Exact) e1 n2) as [Hm2 He2];
    [simpl; lia|].
  destruct (shr (shr_record_of_loc m1 loc_Exact) e1 n2) as [mrs2 e2].
  cbn [fst snd shr_record_of_loc shr_m] in Hm2, He2.
  assert (Hd1 : 0 <= Zdigits2 m1 <= 32 - e1).
  { apply Zdigits2_bound; [|lia]. split; [lia|].
    replace (32 - e1) with (1 + (31 - e1)) by lia.
    rewrite Z.pow_add_r by lia. lia. }
  assert (Hk2 : 0 <= Z.max n2 0 /\ e2 <= 0).
  { unfold fexp, emin in n2. lia. }
  assert (Hp2 : 0 < 2 ^ Z.max n2 0) by (apply Z.pow_pos_nonneg; lia).
  assert (Hq2 : 0 < 2 ^ (- e2)) by (apply Z.pow_pos_nonneg; lia).
  assert (Hv2 : shr_m mrs2 / 2 ^ (- e2) = m1 / 2 ^ (- e1)).
  { rewrite Hm2, Z.div_div, <- Z.pow_add_r by lia.
    by replace (Z.max n2 0 + - e2) with (- e1) by lia. }
  assert (Hv1 : shr_m mrs1 / 2 ^ (- e1) = mx / 2 ^ (- ex)).
  { rewrite Hm1, Z.div_div, <- Z.pow_add_r by lia.
    by replace (Z.max n1 0 + - e1) with (- ex) by lia. }
  assert (Hbr : mx / 2 ^ (- ex) <= m1 / 2 ^ (- e1) <= mx / 2 ^ (- ex) + 1).
  { rewrite <- Hv1. split; [apply Z.div_le_mono; lia|].
    etransitivity; [|by apply div_succ_le].
    apply Z.div_le_mono; lia. }
  assert (Hnn : 0 <= shr_m mrs2) by (rewrite Hm2; apply Z.div_pos; lia).
  destruct (shr_m mrs2) as [|m|m] eqn:Em; [| |lia].
  - split; [left; by eexists|]. cbn [floorDouble].
    rewrite Z.div_0_l in Hv2 by lia. lia.
  - destruct (Z.leb_spec e2 (1024 - 53)); [|lia].
    split; [right; by eexists _, _|]. cbn [floorDouble cond_Zopp].
    destruct (Z.leb_spec 0 e2); [|lia].
    assert (e2 = 0) as -> by lia.
    change (- 0) with 0 in Hv2. rewrite Z.pow_0_r, Z.div_1_r in Hv2.
    rewrite Z.pow_0_r. lia.
Qed.

Lemma pos_iter_xO p d : Zpos (Pos.iter xO p d) = Zpos p * 2 ^ Zpos d.
Proof.
  rewrite (Pos.iter_swap_gen _ _ Zpos xO (Z.mul 2)) by done.
  change (Pos.iter (Z.mul 2) (Zpos p) d) with (Z.shiftl (Zpos p) (Zpos d)).
  apply Z.shiftl_mul_pow2. lia.
Qed.

(** An [int] above 0 converts to a double exactly. *)
Lemma doubleOfInt_exact z :
  0 < z < 2 ^ 31 ->
  exists m e, doubleOfInt z = S754_finite false m e /\
              -52 <= e <= 0 /\ Zpos m = z * 2 ^ (- e).
Proof.
  intros Hz. unfold doubleOfInt, binary_normalize.
  destruct z as [|p|p]; [lia| |lia].
  unfold binary_round, shl_align.
  assert (Hd : 0 <= Zdigits2 (Zpos p) <= 31) by (apply Zdigits2_bound; lia).
  assert (Hd1 : 1 <= Zdigits2 (Zpos p)).
  { rewrite Zdigits2_log2. pose proof (Z.log2_nonneg (Zpos p)). lia. }
  change (Zdigits2 (Zpos p)) with (Zpos (digits2_pos p)) in Hd, Hd1.
  set (e' := fexp 53 1024 (Zpos (digits2_pos p) + 0)).
  assert (He' : e' = Zpos (digits2_pos p) - 53) by (unfold e', fexp, emin; lia).
  destruct (e' - 0) as [|q|q] eqn:Eq; [lia|lia|].
  assert (Hq : Zpos q = - e') by lia.
  rewrite binary_round_aux_exact.
  - eexists _, _. split; [done|]. split; [lia|].
    by rewrite pos_iter_xO, Hq.
  - rewrite pos_iter_xO, Zdigits2_mul_pow2 by lia.
    change (Zdigits2 (Zpos p)) with (Zpos (digits2_pos p)).
    unfold fexp, emin. lia.
  - lia.
Qed.

(** A double of [0, 1] is zero, or has a value of at most 1. *)
Lemma unit_double_le d :
  valid_binary 53 1024 d = true ->
  SFleb double_zero d = true -> SFleb d double_one = true ->
  (exists s, d = S754_zero s) \/
  (exists m e, d = S754_finite false m e /\ e <= -52 /\ Zpos m <= 2 ^ (- e)).
Proof.
  destruct d as [s|s| |s m e]; intros Hv H0 H1.
  - left. by eexists.
  - by destruct s.
  - done.
  - right. destruct s; [done|]. exists m, e. split; [done|].
    unfold valid_binary, bounded, canonical_mantissa, fexp, emin in Hv.
    apply andb_prop in Hv as [Hc _]. apply Z.eqb_eq in Hc.
    unfold SFleb, SFcompare, double_one in H1.
    destruct (Z.compare_spec e (-52)) as [->|Hlt|Hgt]; [| |done].
    + split; [lia|]. change (2 ^ (- -52)) with 4503599627370496.
      pose proof (Pos.compare_spec m 4503599627370496) as Hsp.
      unfold Pos.compare in Hsp. destruct Hsp as [Heq|Hlt|Hgt].
      * rewrite Heq. done.
      * apply Pos2Z.pos_lt_pos in Hlt. apply Z.lt_le_incl, Hlt.
      * done.
    + split; [lia|].
      assert (Hdig : Zpos (digits2_pos m) <= 53) by lia.
      change (Zpos (digits2_pos m)) with (Zdigits2 (Zpos m)) in Hdig.
      rewrite Zdigits2_log2 in Hdig.
      assert (Zpos m < 2 ^ 53) by (apply Z.log2_lt_pow2; lia).
      assert (2 ^ 53 <= 2 ^ (- e)) by (apply Z.pow_le_mono_r; lia).
      lia.
Qed.

(** The product the code computes, [n] converted to [double] and
    multiplied by a difficulty of [0, 1]: its integer part is the
    integer part of the exact product, or one more. *)
Lemma doubleMul_floor z d :
  0 <= z < 2 ^ 31 ->
  valid_binary 53 1024 d = true ->
  SFleb double_zero d = true -> SFleb d double_one = true ->
  nonnegDouble (doubleMul (doubleOfInt z) d) /\
  floorTimes z d <= floorDouble (doubleMul (doubleOfInt z) d) <= floorTimes z d + 1 /\
  0 <= floorTimes z d <= z.
Proof.
  intros Hz Hv H0 H1.
  destruct (unit_double_le d Hv H0 H1) as [[sd ->]|(md & ed & -> & Hed & Hmd)].
  { assert (Hp : exists s, doubleMul (doubleOfInt z) (S754_zero sd) = S754_zero s).
    { destruct (decide (z = 0)) as [->|Hnz]; [by eexists|].
      destruct (doubleOfInt_exact z ltac:(lia)) as (m & e & -> & _). by eexists. }
    destruct Hp as [s ->]. split; [left; by eexists|]. simpl. lia. }
  assert (Hq : 0 < 2 ^ (- ed)) by (apply Z.pow_pos_nonneg; lia).
  assert (Hft : floorTimes z (S754_finite false md ed) = z * Zpos md / 2 ^ (- ed)).
  { cbn [floorTimes cond_Zopp]. by destruct (Z.leb_spec 0 ed); [lia|]. }
  assert (Hrange : 0 <= z * Zpos md / 2 ^ (- ed) <= z).
  { split; [apply Z.div_pos; lia|].
    apply Z.div_le_upper_bound; [done|]. nia. }
  destruct (decide (z = 0)) as [->|Hnz].
  { split; [left; by eexists|]. rewrite Hft. simpl. lia. }
  destruct (doubleOfInt_exact z ltac:(lia)) as (mz & ez & -> & Hez & Hmz).
  rewrite Hft. split; [|split; [|done]]; unfold doubleMul, SFmul;
    cbn [xorb].
  - apply binary_round_aux_floor; try lia.
    rewrite Pos2Z.inj_mul, Hmz.
    replace (31 - (ez + ed)) with (31 + (- ez) + (- ed)) by lia.
    rewrite !Z.pow_add_r by lia.
    assert (0 < 2 ^ (- ez)) by (apply Z.pow_pos_nonneg; lia). nia.
  - assert (Hval : Zpos (mz * md) / 2 ^ (- (ez + ed)) = z * Zpos md / 2 ^ (- ed)).
    { rewrite Pos2Z.inj_mul, Hmz.
      replace (- (ez + ed)) with (- ez + - ed) by lia.
      rewrite Z.pow_add_r by lia.
      assert (0 < 2 ^ (- ez)) by (apply Z.pow_pos_nonneg; lia).
      replace (z * 2 ^ (- ez) * Zpos md) with (2 ^ (- ez) * (z * Zpos md)) by lia.
      apply Z.div_mul_cancel_l; lia. }
    rewrite <- Hval. apply binary_round_aux_floor; try lia.
    rewrite Pos2Z.inj_mul, Hmz.
    replace (31 - (ez + ed)) with (31 + (- ez) + (- ed)) by lia.
    rewrite !Z.pow_add_r by lia.
    assert (0 < 2 ^ (- ez)) by (apply Z.pow_pos_nonneg; lia). nia.
Qed.

(** A double that is not negative and whose integer part fits an [int]
    converts to it. *)
Lemma intOfDouble_floor x :
  nonnegDouble x -> floorDouble x < 2 ^ 31 ->
  intOfDouble x = Some (floorDouble x) /\ 0 <= floorDouble x.
Proof.
  intros [[s ->]|(m & e & ->)]; cbn [intOfDouble floorDouble cond_Zopp];
    [done|].
  assert (Hv : Z.shiftl (Zpos m) e
               = if 0 <=? e then Zpos m * 2 ^ e else Zpos m / 2 ^ (- e)).
  { destruct (Z.leb_spec 0 e).
    - by rewrite Z.shiftl_mul_pow2.
    - by rewrite Z.shiftl_div_pow2 by lia. }
  rewrite Hv. intros Hlt.
  assert (Hnn : 0 <= (if 0 <=? e then Zpos m * 2 ^ e else Zpos m / 2 ^ (- e))).
  { destruct (Z.leb_spec 0 e).
    - apply Z.mul_nonneg_nonneg; lia.
    - apply Z.div_pos; [lia|]. apply Z.pow_pos_nonneg; lia. }
  split; [|done].
  destruct (Z.leb_spec (- 2 ^ 31) (if 0 <=? e then Zpos m * 2 ^ e else Zpos m / 2 ^ (- e)));
    [|lia].
  by destruct (Z.ltb_spec (if 0 <=? e then Zpos m * 2 ^ e else Zpos m / 2 ^ (- e)) (2 ^ 31));
    [|lia].
Qed.

End Binary64.

(** ** The checker is sound *)

Section Checker.

Variables size boxSize : nat.

Lemma peersb_true r c r' c' : peers boxSize r c r' c' -> peersb boxSize r c r' c' = true.
Proof.
  unfold peers, sameBox, peersb. intros [Hne H].
  apply andb_true_iff. split.
  - apply negb_true_iff, andb_false_iff.
    destruct (Nat.eqb_spec r r') as [->|]; [|by left].
    destruct (Nat.eqb_spec c c') as [->|]; [done|by right].
  - destruct H as [->|[->|[-> ->]]]; rewrite ?Nat.eqb_refl, ?orb_true_r; done.
Qed.

Lemma validPartialb_true (b : Board) :
  validPartialb size boxSize b = true -> validPartial size boxSize b.
Proof.
  unfold validPartialb. rewrite forallb_forall. intros H. split.
  - intros r c Hr Hc.
    specialize (H (r, c) ltac:(apply list_elem_of_In, allCells_elem; lia)).
    simpl in H. apply andb_true_iff in H as [H _]. lia.
  - intros r c r' c' Hr Hc Hr' Hc' Hp Hnz.
    specialize (H (r, c) ltac:(apply list_elem_of_In, allCells_elem; lia)).
    simpl in H. apply andb_true_iff in H as [_ H].
    rewrite forallb_forall in H.
    specialize (H (r', c') ltac:(apply list_elem_of_In, allCells_elem; lia)).
    simpl in H. rewrite (peersb_true _ _ _ _ Hp) in H. simpl in H.
    apply Z.eqb_neq in Hnz. rewrite Hnz in H. simpl in H.
    by apply negb_true_iff, Z.eqb_neq in H.
Qed.

End Checker.

(** ** Removal, with the shuffle a permutation *)

Section RemovalCount.

Variable G : Type.
Variable shuffle : forall A : Type, list A -> G -> list A * G.
Hypothesis shuffle_perm : forall A (l : list A) g, fst (shuffle A l g) ≡ₚ l.

Variable size : nat.

Lemma removeDigits_count (d : spec_float) (b : Board) (g : G) n :
  wf size b -> full size b -> cellsToRemove size d = Some n ->
  exists b' g',
    removeDigits G shuffle size d (b, g) = Some (b', g') /\
    emptyCount size b' = Z.to_nat (Z.min n (Z.of_nat (size * size))).
Proof.
  intros Hwf Hfull Hn. unfold removeDigits. rewrite Hn. simpl.
  pose proof (shuffle_perm _ (allCells size) g) as Hperm.
  destruct (shuffle (nat * nat)%type (allCells size) g) as [cells g']. simpl in Hperm.
  eexists _, _. split; [done|].
  rewrite (Permutation_length Hperm), allCells_length.
  apply zeroed_count; [done..|]. lia.
Qed.

Lemma cellsToRemove_unit (d : spec_float) :
  (Z.of_nat (size * size) < 2 ^ 31)%Z ->
  valid_binary 53 1024 d = true ->
  SFleb double_zero d = true -> SFleb d double_one = true ->
  let p := doubleMul (doubleOfInt (Z.of_nat (size * size))) d in
  cellsToRemove size d = Some (floorDouble p) /\ (0 <= floorDouble p)%Z.
Proof.
  intros Hsz Hv H0 H1 p. unfold cellsToRemove. fold p.
  destruct (doubleMul_floor (Z.of_nat (size * size)) d ltac:(lia) Hv H0 H1)
    as (Hnn & Hbr & Hft).
  fold p in Hnn, Hbr. apply intOfDouble_floor; [done|].
  rewrite Nat2Z.inj_mul in *. change (2 ^ 31)%Z with 2147483648%Z in *.
  assert (Z.of_nat size <= 46340)%Z by nia.
  assert (Z.of_nat size * Z.of_nat size <= 46340 * 46340)%Z by nia. lia.
Qed.

End RemovalCount.

(** ** Seeding: the diagonal boxes make a valid partial state *)

Lemma fold_setCell_cells {A} size (pos : A -> nat * nat) (val : A -> Z) (l : list A) :
  forall b : Board,
    wf size b ->
    (forall a, a ∈ l -> fst (pos a) < size /\ snd (pos a) < size) ->
    NoDup (map pos l) ->
    let b' := fold_left (fun b a => setCell b (fst (pos a)) (snd (pos a)) (val a)) l b in
    wf size b' /\
    (forall a, a ∈ l -> cell b' (fst (pos a)) (snd (pos a)) = val a) /\
    (forall r c, (r, c) ∉ map pos l -> cell b' r c = cell b r c).
Proof.
  induction l as [|a l IH]; intros b Hwf Hin Hnd; simpl.
  - split; [done|]. split; [|done]. intros a Ha. by apply elem_of_nil in Ha.
  - apply NoDup_cons in Hnd as [Hfresh Hnd].
    destruct (Hin a ltac:(by left)) as [Hr Hc].
    destruct (IH (setCell b (fst (pos a)) (snd (pos a)) (val a)))
      as (Hwf' & Hval & Hrest);
      [by apply wf_setCell|intros x Hx; apply Hin; by right|done|].
    split; [done|]. split.
    + intros x [->|Hx]%elem_of_cons; [|by apply Hval].
      rewrite Hrest by (by destruct (pos a)). by apply (cell_setCell_eq size).
    + intros r c Hrc. apply not_elem_of_cons in Hrc as [Hne Hrc].
      rewrite Hrest by done. apply cell_setCell_ne. by destruct (pos a).
Qed.

Lemma fold_left_filter {A X} (f : X -> A -> X) (P : A -> bool) (l : list A) x :
  fold_left f (List.filter P l) x = fold_left (fun x a => if P a then f x a else x) l x.
Proof.
  revert x. induction l as [|a l IH]; intros x; simpl; [done|].
  destruct (P a); simpl; apply IH.
Qed.

Lemma fold_seq_inv {X} (Inv : nat -> X -> Prop) (step : X -> nat -> X) n :
  forall a x,
    Inv a x ->
    (forall i y, a <= i < a + n -> Inv i y -> Inv (S i) (step y i)) ->
    Inv (a + n) (fold_left step (seq a n) x).
Proof.
  induction n as [|n IH]; intros a x Hx Hstep; simpl.
  - by rewrite Nat.add_0_r.
  - replace (a + S n) with (S a + n) by lia. apply IH.
    + apply Hstep; [lia|done].
    + intros i y Hi. apply Hstep. lia.
Qed.

Section Seeding.

Variable G : Type.
Variable shuffle : forall A : Type, list A -> G -> list A * G.
Hypothesis shuffle_perm : forall A (l : list A) g, fst (shuffle A l g) ≡ₚ l.

Variables size boxSize : nat.
Hypothesis Hsquare : boxSize * boxSize = size.

Lemma fillBox_seeds q (b : Board) (g : G) :
  q < boxSize -> seededUpTo size boxSize (q * boxSize) b ->
  seededUpTo size boxSize (S (q * boxSize)) (fst (fillBox G shuffle size boxSize (q * boxSize) (q * boxSize) (b, g))).
Proof.
  intros Hq (Hwf & Hzero & Hrange & Hdiff).
  assert (Hk : 0 < boxSize) by lia.
  unfold fillBox. simpl.
  pose proof (shuffle_perm Z (digits size) g) as Hperm.
  destruct (shuffle Z (digits size) g) as [numbers g']. simpl in *.
  assert (Hlen : length numbers = size).
  { rewrite (Permutation_length Hperm). unfold digits.
    by rewrite length_map, length_seq. }
  assert (Hnd : NoDup numbers).
  { rewrite Hperm. unfold digits. apply NoDup_fmap_2; [|apply NoDup_seq].
    intros x y. lia. }
  assert (Hnum : forall i, i < size ->
            (1 <= nth i numbers 0 <= Z.of_nat size)%Z).
  { intros i Hi. apply (digits_range size).
    apply list_elem_of_In. rewrite <- Hperm. apply list_elem_of_In, nth_In. lia. }
  set (pos := fun ij : nat * nat => (q * boxSize + fst ij, q * boxSize + snd ij)).
  set (val := fun ij : nat * nat => nth (fst ij * boxSize + snd ij) numbers 0%Z).
  set (l := list_prod (seq 0 boxSize) (seq 0 boxSize)).
  destruct (fold_setCell_cells size pos val l b Hwf) as (Hwf' & Hval & Hrest).
  { intros [i j] [Hi Hj]%list_elem_of_In%in_prod_iff.
    apply in_seq in Hi, Hj. simpl. nia. }
  { apply NoDup_fmap_2; [|apply NoDup_list_prod; apply NoDup_seq].
    intros [i j] [i' j'] [= H1 H2]. f_equal; lia. }
  change (fold_left _ l b) with
    (fold_left (fun b a => setCell b (fst (pos a)) (snd (pos a)) (val a)) l b).
  set (b' := fold_left _ l b) in *.
  (* a cell lies in box q, at offsets (i, j), or outside it *)
  assert (Hbox : forall r c, r < size -> c < size ->
            (r / boxSize = q /\ c / boxSize = q /\
             cell b' r c = val (r - q * boxSize, c - q * boxSize) /\
             r - q * boxSize < boxSize /\ c - q * boxSize < boxSize /\
             q * boxSize <= r /\ q * boxSize <= c) \/
            (~ (r / boxSize = q /\ c / boxSize = q) /\ cell b' r c = cell b r c)).
  { intros r c Hr Hc.
    pose proof (Nat.div_mod_eq r boxSize). pose proof (Nat.div_mod_eq c boxSize).
    pose proof (Nat.mod_upper_bound r boxSize ltac:(lia)).
    pose proof (Nat.mod_upper_bound c boxSize ltac:(lia)).
    destruct (decide (r / boxSize = q /\ c / boxSize = q)) as [[Hrq Hcq]|Hn].
    - left. split; [done|]. split; [done|].
      assert (Hin : (r - q * boxSize, c - q * boxSize) ∈ l).
      { apply list_elem_of_In, in_prod_iff. split; apply in_seq; nia. }
      specialize (Hval _ Hin). simpl in Hval.
      replace (q * boxSize + (r - q * boxSize)) with r in Hval by nia.
      replace (q * boxSize + (c - q * boxSize)) with c in Hval by nia.
      split; [done|]. nia.
    - right. split; [done|]. apply Hrest.
      intros Hin. apply list_elem_of_In, in_map_iff in Hin as ([i j] & [= <- <-] & Hij).
      apply in_prod_iff in Hij as [Hi Hj]. apply in_seq in Hi, Hj. apply Hn.
      split; symmetry;
        [apply (Nat.div_unique _ boxSize q i)|apply (Nat.div_unique _ boxSize q j)];
        lia. }
  split; [done|]. split; [|split].
  - intros r c Hr Hc Hn. destruct (Hbox r c Hr Hc) as [(Hrq & Hcq & _)|[_ ->]].
    + exfalso. apply Hn. split; [congruence|]. subst q. lia.
    + apply Hzero; [done..|]. intros [H1 H2]. apply Hn. split; [done|]. lia.
  - intros r c Hr Hc Hd Hm. destruct (Hbox r c Hr Hc) as [(Hrq & Hcq & -> & Hi & Hj & _)|[Hn ->]].
    + unfold val. simpl. apply Hnum. nia.
    + apply Hrange; [done..|].
      assert (r / boxSize <> q) by (intros E; apply Hn; split; congruence).
      nia.
  - intros r c r' c' Hr Hc Hr' Hc' Hd Hd' Hsame Hm Hne.
    destruct (Hbox r c Hr Hc) as [(Hrq & Hcq & -> & Hi & Hj & Hlo1 & Hlo2)|[Hn ->]];
      destruct (Hbox r' c' Hr' Hc') as [(Hrq' & Hcq' & -> & Hi' & Hj' & Hlo1' & Hlo2')|[Hn' ->]].
    + unfold val. simpl. intros Heq.
      apply NoDup_ListNoDup in Hnd.
      apply (proj1 (NoDup_nth numbers 0%Z) Hnd) in Heq; [|nia..].
      assert (Hii : r - q * boxSize = r' - q * boxSize).
      { destruct (Nat.lt_trichotomy (r - q * boxSize) (r' - q * boxSize))
          as [Hlt|[Heq'|Hgt]]; [|done|]; exfalso; nia. }
      apply Hne. f_equal; nia.
    + exfalso. apply Hn'. split; congruence.
    + exfalso. apply Hn. split; congruence.
    + apply Hdiff; try done.
      assert (r / boxSize <> q) by (intros E; apply Hn; split; congruence).
      nia.
Qed.

Lemma createEmptyBoard_cell r c : cell (createEmptyBoard size) r c = 0%Z.
Proof.
  unfold cell, createEmptyBoard.
  destruct (replicate size (replicate size 0%Z) !! r) as [rw|] eqn:E; [|done].
  apply lookup_replicate in E as [-> _].
  destruct (replicate size 0%Z !! c) as [v|] eqn:E'; [|done].
  by apply lookup_replicate in E' as [-> _].
Qed.

Lemma createEmptyBoard_wf : wf size (createEmptyBoard size).
Proof.
  unfold createEmptyBoard. split; [by rewrite length_replicate|].
  apply Forall_replicate. by rewrite length_replicate.
Qed.

Lemma seededUpTo_skip i (b : Board) :
  i mod boxSize <> 0 -> seededUpTo size boxSize i b -> seededUpTo size boxSize (S i) b.
Proof.
  intros Hi (Hwf & Hzero & Hrange & Hdiff).
  assert (Hmul : forall x, x * boxSize < S i <-> x * boxSize < i).
  { intros x. split; [|lia]. intros Hlt.
    destruct (decide (x * boxSize = i)) as [<-|]; [|lia].
    by rewrite Nat.Div0.mod_mul in Hi. }
  split; [done|]. split; [|split].
  - intros r c Hr Hc Hn. apply Hzero; [done..|]. by rewrite <- Hmul.
  - intros r c Hr Hc Hd Hm. apply Hrange; [done..|]. by apply Hmul.
  - intros r c r' c' Hr Hc Hr' Hc' Hd Hd' Hsame Hm. apply Hdiff; [done..|]. by apply Hmul.
Qed.

Lemma seededUpTo_validPartial (b : Board) :
  seededUpTo size boxSize size b -> validPartial size boxSize b.
Proof.
  intros (Hwf & Hzero & Hrange & Hdiff).
  assert (Hin : forall r, r < size -> r / boxSize * boxSize < size).
  { intros r Hr. assert (0 < boxSize) by nia.
    assert (r / boxSize < boxSize) by (apply Nat.Div0.div_lt_upper_bound; lia).
    nia. }
  assert (Hnz : forall r c, r < size -> c < size -> cell b r c <> 0%Z ->
                            r / boxSize = c / boxSize).
  { intros r c Hr Hc Hv. destruct (decide (r / boxSize = c / boxSize)); [done|].
    exfalso. apply Hv, Hzero; [done..|]. by intros [? _]. }
  split.
  - intros r c Hr Hc. destruct (decide (r / boxSize = c / boxSize)) as [Hd|Hd].
    + specialize (Hrange r c Hr Hc Hd (Hin r Hr)). lia.
    + rewrite Hzero; [lia|done..|]. by intros [? _].
  - intros r c r' c' Hr Hc Hr' Hc' [Hne Hp] Hv Heq.
    pose proof (Hnz r c Hr Hc Hv) as Hd.
    assert (Hv' : cell b r' c' <> 0%Z) by congruence.
    pose proof (Hnz r' c' Hr' Hc' Hv') as Hd'.
    apply (Hdiff r c r' c'); try done; [|by apply Hin].
    destruct Hp as [->|[->|[Hb _]]]; [done|congruence|].
    rewrite !box_start in Hb. assert (0 < boxSize) by nia. nia.
Qed.

Lemma fillDiagonalBoxes_seeds (g : G) :
  exists seeded g',
    fillDiagonalBoxes G shuffle size boxSize (createEmptyBoard size, g) = Some (seeded, g') /\
    wf size seeded /\ validPartial size boxSize seeded.
Proof.
  unfold fillDiagonalBoxes.
  replace ((boxSize =? 0) && (0 <? size)) with false.
  2:{ symmetry. apply andb_false_iff.
      destruct (Nat.eqb_spec boxSize 0) as [E|]; [|by left].
      right. apply Nat.ltb_ge. nia. }
  unfold diagonalStarts. rewrite fold_left_filter.
  pose proof (fold_seq_inv (fun i (bg : Board * G) => seededUpTo size boxSize i (fst bg))
                (fun bg i => if i mod boxSize =? 0
                             then fillBox G shuffle size boxSize i i bg else bg)
                size 0 (createEmptyBoard size, g)) as Hfold.
  simpl in Hfold.
  destruct (fold_left _ (seq 0 size) _) as [seeded g'] eqn:E.
  exists seeded, g'. split; [done|].
  assert (Hseeded : seededUpTo size boxSize size seeded).
  { apply Hfold.
    - split; [apply createEmptyBoard_wf|]. split; [|split].
      + intros. apply createEmptyBoard_cell.
      + intros. lia.
      + intros. lia.
    - intros i [b gi] Hi Hinv. simpl in Hinv.
      destruct (Nat.eqb_spec (i mod boxSize) 0) as [Hm|Hm].
      + assert (exists q, q < boxSize /\ i = q * boxSize) as (q & Hq & ->).
        { assert (0 < boxSize) by nia.
          pose proof (Nat.div_mod_eq i boxSize) as Hdm.
          exists (i / boxSize). split; [|lia].
          apply Nat.Div0.div_lt_upper_bound. lia. }
        by apply fillBox_seeds.
      + by apply seededUpTo_skip. }
  split; [by destruct Hseeded|by apply seededUpTo_validPartial].
Qed.

End Seeding.

(** ** The generator as a whole *)

Section GeneratorFacts.

Variable G : Type.
Variable shuffle : forall A : Type, list A -> G -> list A * G.
Hypothesis shuffle_perm : forall A (l : list A) g, fst (shuffle A l g) ≡ₚ l.

(** The fuel [generatePuzzle] gives [solveBoard] is enough. *)
Lemma solveBoard_total size boxSize (b : Board) :
  wf size b -> is_Some (solveBoard size boxSize (S (size * size)) b).
Proof.
  intros Hwf. destruct (decide (size = 0)) as [->|Hpos].
  - simpl. done.
  - destruct (backtrack_total size boxSize (callsFrom size 0 0) 0 0 (mkRun b 0 []))
      as [[r s1] Hrun]; [lia|left; lia|done|].
    exists (r, board s1).
    apply (backtrack_solveBoard size boxSize (callsFrom size 0 0) 0 0 (mkRun b 0 []));
      try done; [lia|left; lia| |unfold cellsFrom; lia].
    intros i j _ _ Hlt. lia.
Qed.

(** For a square dimension whose square fits an [int], construction
    returns a session; its Solution is what [solveBoard] made of the
    seeded grid, and is solved whenever that search reported success. *)
Lemma Sudoku_new_generates boardSize strategy seed :
  Nat.sqrt boardSize * Nat.sqrt boardSize = boardSize ->
  (Z.of_nat (boardSize * boardSize) < 2 ^ 31)%Z ->
  exists s seeded g r,
    Sudoku_new G shuffle boardSize strategy seed = Some s /\
    fillDiagonalBoxes G shuffle boardSize (Nat.sqrt boardSize)
      (createEmptyBoard boardSize, seed) = Some (seeded, g) /\
    solveBoard boardSize (Nat.sqrt boardSize) (S (boardSize * boardSize)) seeded
    = Some (r, solution s) /\
    (r = true -> solved boardSize (Nat.sqrt boardSize) (solution s)).
Proof.
  intros Hsq Hfit.
  destruct (fillDiagonalBoxes_seeds G shuffle shuffle_perm boardSize
              (Nat.sqrt boardSize) Hsq seed) as (seeded & g & Hseed & Hwf & Hvp).
  destruct (solveBoard_total boardSize (Nat.sqrt boardSize) seeded Hwf)
    as [[r solvedBoard] Hsolve].
  destruct (cellsToRemove_unit boardSize DEFAULT_DIFFICULTY Hfit) as [Hn _];
    [reflexivity..|].
  unfold Sudoku_new, generatePuzzle.
  cbn [size boxSize state solution solver rng board steps log].
  rewrite Hseed, Hsolve. unfold removeDigits. rewrite Hn.
  cbn [fst snd].
  destruct (shuffle (nat * nat)%type (allCells boardSize) g) as [cells g2].
  eexists _, seeded, g, r. split; [done|]. split; [done|]. split; [done|].
  intros ->. cbn [solution].
  by apply (solveBoard_sound_solved boardSize (Nat.sqrt boardSize) Hsq
              (S (boardSize * boardSize)) seeded).
Qed.

End GeneratorFacts.

(** ** The counter counts the calls *)

Lemma callsOf_app size b l1 l2 :
  callsOf size b (l1 ++ l2) = callsOf size b l1 + callsOf size b l2.
Proof. unfold callsOf. by rewrite map_app, list_sum_app. Qed.

(** A cell before [(row, col)] is not read by the walk from there. *)
Lemma advances_setCell size (b : Board) r0 c0 v n :
  forall row col,
    r0 < row \/ (r0 = row /\ c0 < col) ->
    advances size (setCell b r0 c0 v) n row col = advances size b n row col.
Proof.
  induction n as [|n IH]; intros row col Hlt; simpl; [done|].
  rewrite cell_setCell_ne by (intros [= -> ->]; lia).
  rewrite !IH by lia. done.
Qed.

Lemma callsTo_setCell size (b : Board) r0 c0 v row col :
  r0 < row \/ (r0 = row /\ c0 < col) ->
  callsTo size (setCell b r0 c0 v) row col = callsTo size b row col.
Proof. intros H. unfold callsTo. by rewrite advances_setCell. Qed.

Lemma callsOf_setCell size (b : Board) r0 c0 v evs :
  Forall (notBefore r0 (c0 + 1)) evs ->
  callsOf size (setCell b r0 c0 v) evs = callsOf size b evs.
Proof.
  unfold callsOf. induction 1 as [|e evs He _ IH]; simpl; [done|].
  rewrite IH. f_equal. destruct e as [r c w|]; simpl in *; [|done].
  destruct (w =? 0)%Z; [done|]. apply callsTo_setCell. lia.
Qed.

Lemma notBefore_weaken row col row' col' e :
  row < row' \/ (row = row' /\ col <= col') ->
  notBefore row' col' e -> notBefore row col e.
Proof. destruct e; simpl; [lia|done]. Qed.

Section SearchCount.

Variables size boxSize : nat.

Lemma callsTo_advance (b : Board) row col row' col' :
  row < size ->
  (col = size /\ row' = row + 1 /\ col' = 0) \/
  (col < size /\ cell b row col <> 0%Z /\ row' = row /\ col' = col + 1) ->
  callsTo size b row col = S (callsTo size b row' col').
Proof.
  intros Hr H. unfold callsTo.
  assert (Hle : row * S size + S size <= size * S size) by nia.
  assert (Hn : size * S size - (row * S size + col)
               = S (size * S size - (row' * S size + col')))
    by (destruct H as [(-> & -> & ->)|(Hc & Hnz & -> & ->)]; lia).
  rewrite Hn. simpl.
  destruct H as [(-> & -> & ->)|(Hc & Hnz & -> & ->)].
  - by rewrite Nat.eqb_refl.
  - destruct (Nat.eqb_spec col size); [lia|].
    destruct (Nat.eqb_spec row size); [lia|].
    by destruct (Z.eqb_spec (cell b row col) 0).
Qed.

Lemma callsTo_stop (b : Board) row col :
  walkPos size row col ->
  (row = size \/ (col < size /\ cell b row col = 0%Z)) ->
  callsTo size b row col = 1.
Proof.
  unfold walkPos, callsTo. intros Hw H.
  destruct (size * S size - (row * S size + col)) as [|n] eqn:En; [done|]. simpl.
  destruct (Nat.eqb_spec col size) as [->|_].
  { exfalso. destruct H as [->|[? _]]; [|lia].
    destruct Hw as [[? _]|[_ E0]]; [lia|]. rewrite E0 in En. simpl in En. lia. }
  destruct (Nat.eqb_spec row size); [done|].
  destruct H as [?|[_ ->]]; [by exfalso|done].
Qed.

Lemma tryDigits_count rec row col nums :
  (forall s r s', rec s = Some (r, s') ->
     frame_post size (board s) r (board s') /\
     count_post size row (col + 1) (callsTo size (board s) row (col + 1)) s s') ->
  (forall num, In num nums -> num <> 0%Z) ->
  forall s r s',
    cell (board s) row col = 0%Z ->
    tryDigits size boxSize rec row col nums s = Some (r, s') ->
    count_post size row col 0 s s'.
Proof.
  intros Hrec. induction nums as [|num rest IH]; intros Hnums s r s' Hz; simpl.
  - intros [= <- <-]. exists []. rewrite app_nil_r. split; [done|].
    split; [done|]. unfold callsOf. simpl. lia.
  - assert (Hrest : forall n, In n rest -> n <> 0%Z)
      by (intros n Hn; apply Hnums; by right).
    assert (Hnum : (num =? 0)%Z = false) by (apply Z.eqb_neq, Hnums; by left).
    destruct (isValidPlacement size boxSize (board s) row col num); [|by apply IH].
    destruct (rec _) as [[[] s1]|] eqn:E; [| |done];
      apply Hrec in E as [Hfr (new1 & Hlog1 & Hpos1 & Hst1)]; simpl in *;
      rewrite callsTo_setCell in Hst1 by lia;
      rewrite callsOf_setCell in Hst1 by done.
    + intros [= <- <-]. exists ([Write row col num; Display (steps s)] ++ new1).
      rewrite Hlog1, <- !app_assoc. split; [done|]. split.
      * apply Forall_app. split; [repeat constructor; simpl; lia|].
        eapply Forall_impl; [exact Hpos1|]. intros e. apply notBefore_weaken. lia.
      * rewrite callsOf_app. unfold callsOf at 1. simpl. rewrite Hnum. lia.
    + destruct Hfr as [Hsame _]. specialize (Hsame eq_refl).
      intros H. apply IH in H; simpl; [|done|by rewrite Hsame, setCell_undo].
      destruct H as (new2 & Hlog2 & Hpos2 & Hst2). simpl in *.
      rewrite Hsame, setCell_undo in Hst2 by done.
      exists (([Write row col num; Display (steps s)] ++ new1)
                ++ [Write row col 0%Z; Display (steps s1)] ++ new2).
      rewrite Hlog2, Hlog1, <- !app_assoc. split; [done|]. split.
      * rewrite !Forall_app. split; [repeat constructor; simpl; lia|]. split.
        -- eapply Forall_impl; [exact Hpos1|]. intros e. apply notBefore_weaken. lia.
        -- split; [repeat constructor; simpl; lia|done].
      * rewrite !callsOf_app. unfold callsOf at 1 3. simpl. rewrite Hnum. lia.
Qed.

Lemma backtrack_count fuel :
  forall row col s r s',
    0 < size -> walkPos size row col ->
    backtrack size boxSize fuel row col s = Some (r, s') ->
    count_post size row col (callsTo size (board s) row col) s s'.
Proof.
  unfold walkPos.
  induction fuel as [|fuel IH]; intros row col s r s' Hpos Hw; simpl; [done|].
  destruct (Nat.eqb_spec col size) as [->|Hcs].
  { intros H. apply IH in H as (new & Hlog & Hp & Hst); [|done|lia]. simpl in *.
    exists new. split; [done|]. split.
    - eapply Forall_impl; [exact Hp|]. intros e. apply notBefore_weaken. lia.
    - rewrite (callsTo_advance (board s) row size (row + 1) 0) by lia. lia. }
  destruct (Nat.eqb_spec row size) as [->|Hrs].
  { intros [= <- <-]. exists []. simpl. rewrite app_nil_r. split; [done|].
    split; [done|]. rewrite callsTo_stop by (unfold walkPos; lia).
    unfold callsOf. simpl. lia. }
  assert (Hr : row < size) by lia. assert (Hc : col < size) by lia.
  destruct (Z.eqb_spec (cell (board s) row col) 0) as [Hz|Hnz]; simpl.
  - intros H. apply tryDigits_count in H.
    + destruct H as (new & Hlog & Hp & Hst). simpl in *.
      exists new. split; [done|]. split; [done|].
      rewrite callsTo_stop by (unfold walkPos; lia). lia.
    + intros s1 r1 s1' H1. split; [by eapply backtrack_frame|].
      apply IH in H1; [done|done|lia].
    + intros num Hnum%digits_range. lia.
    + done.
  - intros H. apply IH in H as (new & Hlog & Hp & Hst); [|done|lia]. simpl in *.
    exists new. split; [done|]. split.
    + eapply Forall_impl; [exact Hp|]. intros e. apply notBefore_weaken. lia.
    + rewrite (callsTo_advance (board s) row col row (col + 1)) by lia. lia.
Qed.

End SearchCount.

(** ** Every index is in range *)

Lemma cellChecked_Some size (b : Board) row col :
  wf size b -> row < size -> col < size ->
  cellChecked b row col = Some (cell b row col).
Proof.
  intros [Hlen Hrows] Hr Hc. unfold cellChecked, cell.
  destruct (b !! row) as [rw|] eqn:E; simpl.
  - rewrite Forall_lookup in Hrows. pose proof (Hrows _ _ E) as Hl.
    destruct (rw !! col) eqn:Ec; [done|]. apply lookup_ge_None in Ec. lia.
  - apply lookup_ge_None in E. lia.
Qed.

Lemma setCellChecked_Some size (b : Board) row col v :
  wf size b -> row < size -> col < size ->
  setCellChecked b row col v = Some (setCell b row col v).
Proof.
  intros [Hlen Hrows] Hr Hc. unfold setCellChecked.
  destruct (b !! row) as [rw|] eqn:E.
  - rewrite Forall_lookup in Hrows. rewrite (Hrows _ _ E).
    by destruct (Nat.ltb_spec col size); [|lia].
  - apply lookup_ge_None in E. lia.
Qed.

Lemma setCellChecked_inv size (b b' : Board) row col v :
  wf size b -> setCellChecked b row col v = Some b' ->
  row < size /\ col < size /\ b' = setCell b row col v.
Proof.
  intros [Hlen Hrows]. unfold setCellChecked.
  destruct (b !! row) as [rw|] eqn:E; [|done].
  rewrite Forall_lookup in Hrows. rewrite (Hrows _ _ E).
  apply lookup_lt_Some in E.
  destruct (Nat.ltb_spec col size); [|done]. intros [= <-].
  split; [lia|]. by split.
Qed.

Lemma writeChecked_Some size (s : Run) row col v :
  wf size (board s) -> row < size -> col < size ->
  writeChecked row col v s = Some (write row col v s).
Proof.
  intros Hwf Hr Hc. unfold writeChecked.
  by rewrite (setCellChecked_Some size).
Qed.

Lemma fold_left_None {A B} (f : option A -> B -> option A) (l : list B) :
  (forall x, f None x = None) -> fold_left f l None = None.
Proof. intros Hf. induction l as [|x l IH]; simpl; [done|]. by rewrite Hf. Qed.

Lemma forallb_map_comp {A B} (f : B -> bool) (g : A -> B) (l : list A) :
  forallb f (map g l) = forallb (fun x => f (g x)) l.
Proof. induction l as [|x l IH]; simpl; [done|]. by rewrite IH. Qed.

Lemma forallb_list_prod {A B} (f : A -> B -> bool) (l1 : list A) (l2 : list B) :
  forallb (fun ij => f (fst ij) (snd ij)) (list_prod l1 l2)
  = forallb (fun i => forallb (fun j => f i j) l2) l1.
Proof.
  induction l1 as [|a l1 IH]; simpl; [done|].
  by rewrite forallb_app, forallb_map_comp, IH.
Qed.

Section ScansChecked.

Variables size boxSize : nat.
Hypothesis Hbox : 0 < boxSize.
Hypothesis Hdiv : size mod boxSize = 0.

Lemma scanChecked_forallb (b : Board) num (cells : list (nat * nat)) :
  wf size b ->
  (forall rc, In rc cells -> fst rc < size /\ snd rc < size) ->
  scanChecked b num cells
  = Some (forallb (fun rc => negb (cell b (fst rc) (snd rc) =? num)%Z) cells).
Proof using Type.
  clear Hbox Hdiv.
  intros Hwf. induction cells as [|[r c] cells IH]; intros Hin; simpl; [done|].
  destruct (Hin (r, c) ltac:(by left)) as [Hr Hc]. simpl in Hr, Hc.
  rewrite (cellChecked_Some size) by done. simpl.
  destruct (cell b r c =? num)%Z; simpl; [done|].
  apply IH. intros rc Hrc. apply Hin. by right.
Qed.

Lemma findChecked_find (b : Board) (cells : list (nat * nat)) :
  wf size b ->
  (forall rc, In rc cells -> fst rc < size /\ snd rc < size) ->
  findChecked b cells
  = Some (List.find (fun p => (cell b (fst p) (snd p) =? 0)%Z) cells).
Proof using Type.
  clear Hbox Hdiv.
  intros Hwf. induction cells as [|[r c] cells IH]; intros Hin; simpl; [done|].
  destruct (Hin (r, c) ltac:(by left)) as [Hr Hc]. simpl in Hr, Hc.
  rewrite (cellChecked_Some size) by done. simpl.
  destruct (cell b r c =? 0)%Z; [done|].
  apply IH. intros rc Hrc. apply Hin. by right.
Qed.

Lemma findEmptyCellChecked_eq (b : Board) :
  wf size b -> findEmptyCellChecked size b = Some (findEmptyCell size b).
Proof using Type.
  clear Hbox Hdiv.
  intros Hwf. apply findChecked_find; [done|].
  intros [r c] [Hr Hc]%in_prod_iff. apply in_seq in Hr, Hc. simpl. lia.
Qed.

(** A box that starts at a multiple of [boxSize] below [size] ends inside
    the grid. *)
Lemma box_inside r : r < size -> r - r mod boxSize + boxSize <= size.
Proof using Hbox Hdiv.
  intros Hr.
  pose proof (Nat.div_mod_eq size boxSize) as Hs. rewrite Hdiv in Hs.
  pose proof (Nat.div_mod_eq r boxSize) as Hd.
  pose proof (Nat.mod_upper_bound r boxSize ltac:(lia)) as Hm.
  assert (r / boxSize < size / boxSize) by nia. nia.
Qed.

Lemma isValidPlacementChecked_eq (b : Board) row col num :
  wf size b -> row < size -> col < size ->
  isValidPlacementChecked size boxSize b row col num
  = Some (isValidPlacement size boxSize b row col num).
Proof using Hbox Hdiv.
  intros Hwf Hr Hc. unfold isValidPlacementChecked, isValidPlacement.
  assert (Hrow : isValidInRowChecked b row num = Some (isValidInRow b row num)).
  { unfold isValidInRowChecked, isValidInRow, rowOf.
    destruct (b !! row) as [rw|] eqn:E; [done|].
    apply lookup_ge_None in E. destruct Hwf. lia. }
  assert (Hcol : isValidInColumnChecked size b col num
                 = Some (isValidInColumn size b col num)).
  { unfold isValidInColumnChecked, isValidInColumn.
    rewrite scanChecked_forallb; [by rewrite forallb_map_comp|done|].
    intros rc (i & <- & Hi%in_seq)%in_map_iff. simpl. lia. }
  assert (Hbx : isValidInBoxChecked boxSize b row col num
                = Some (isValidInBox boxSize b row col num)).
  { unfold isValidInBoxChecked, isValidInBox.
    destruct (Nat.eqb_spec boxSize 0); [lia|].
    pose proof (box_inside row Hr). pose proof (box_inside col Hc).
    rewrite scanChecked_forallb; [|done|].
    - rewrite forallb_map_comp. simpl.
      by rewrite (forallb_list_prod
                    (fun i j => negb (cell b (row - row mod boxSize + i)
                                             (col - col mod boxSize + j) =? num)%Z)).
    - intros rc ([i j] & <- & [Hi Hj]%in_prod_iff)%in_map_iff.
      apply in_seq in Hi, Hj. simpl. lia. }
  rewrite Hrow. simpl. destruct (isValidInRow b row num); simpl; [|done].
  rewrite Hcol. simpl. destruct (isValidInColumn size b col num); simpl; [|done].
  exact Hbx.
Qed.

(** *** The two searches *)

Lemma placeDigitsChecked_eq recC rec row col nums :
  (forall b, wf size b -> recC b = rec b) ->
  (forall b r b', rec b = Some (r, b') -> frame_post size b r b') ->
  row < size -> col < size ->
  forall b, wf size b ->
    placeDigitsChecked size boxSize recC row col nums b
    = placeDigits size boxSize rec row col nums b.
Proof using Hbox Hdiv.
  intros HrecC Hfr Hr Hc. induction nums as [|num rest IH]; intros b Hwf; simpl; [done|].
  rewrite isValidPlacementChecked_eq by done. simpl.
  destruct (isValidPlacement size boxSize b row col num); [|by apply IH].
  rewrite (setCellChecked_Some size) by done. simpl.
  rewrite HrecC by (by apply wf_setCell).
  destruct (rec (setCell b row col num)) as [[[] b1]|] eqn:E; simpl; [done| |done].
  apply Hfr in E as (_ & _ & Hwf1). specialize (Hwf1 (wf_setCell size b row col num Hwf)).
  rewrite (setCellChecked_Some size) by done. simpl. by apply IH, wf_setCell.
Qed.

Lemma solveBoardChecked_eq fuel :
  forall b, wf size b ->
    solveBoardChecked size boxSize fuel b = solveBoard size boxSize fuel b.
Proof using Hbox Hdiv.
  induction fuel as [|fuel IH]; intros b Hwf; simpl; [done|].
  rewrite findEmptyCellChecked_eq by done. simpl.
  destruct (findEmptyCell size b) as [[row col]|] eqn:E; [|done].
  apply findEmptyCell_Some in E as (Hr & Hc & _).
  apply placeDigitsChecked_eq; try done. apply solveBoard_frame.
Qed.

Lemma tryDigitsChecked_eq recC rec row col nums :
  (forall s, wf size (board s) -> recC s = rec s) ->
  (forall s r s', rec s = Some (r, s') -> frame_post size (board s) r (board s')) ->
  row < size -> col < size ->
  forall s, wf size (board s) ->
    tryDigitsChecked size boxSize recC row col nums s
    = tryDigits size boxSize rec row col nums s.
Proof using Hbox Hdiv.
  intros HrecC Hfr Hr Hc. induction nums as [|num rest IH]; intros s Hwf; simpl; [done|].
  rewrite isValidPlacementChecked_eq by done. simpl.
  destruct (isValidPlacement size boxSize (board s) row col num); [|by apply IH].
  rewrite (writeChecked_Some size) by done. simpl.
  rewrite HrecC by (by apply wf_setCell).
  destruct (rec (display (write row col num s))) as [[[] s1]|] eqn:E; simpl;
    [done| |done].
  apply Hfr in E as (_ & _ & Hwf1).
  specialize (Hwf1 (wf_setCell size (board s) row col num Hwf)).
  rewrite (writeChecked_Some size) by done. simpl.
  apply IH. simpl. by apply wf_setCell.
Qed.

Lemma backtrackChecked_eq fuel :
  forall row col s,
    0 < size -> walkPos size row col -> wf size (board s) ->
    backtrackChecked size boxSize fuel row col s
    = backtrack size boxSize fuel row col s.
Proof using Hbox Hdiv.
  unfold walkPos.
  induction fuel as [|fuel IH]; intros row col s Hpos Hw Hwf; simpl; [done|].
  destruct (Nat.eqb_spec col size) as [->|Hcs]; [apply IH; [done|lia|done]|].
  destruct (Nat.eqb_spec row size) as [->|Hrs]; [done|].
  assert (Hr : row < size) by lia. assert (Hc : col < size) by lia.
  rewrite (cellChecked_Some size) by done. simpl.
  destruct (negb (cell (board s) row col =? 0)%Z); [apply IH; [done|lia|done]|].
  apply tryDigitsChecked_eq; try done.
  - intros s1 Hwf1. apply IH; [done|lia|done].
  - intros s1 r1 s1'. apply backtrack_frame.
Qed.

End ScansChecked.

(** *** Seeding and removal *)

Section SeedingBounds.

Variable G : Type.
Variable shuffle : forall A : Type, list A -> G -> list A * G.
Hypothesis shuffle_perm : forall A (l : list A) g, fst (shuffle A l g) ≡ₚ l.

Variables size boxSize : nat.
Hypothesis Hbox : 0 < boxSize.
Hypothesis Hfit : boxSize * boxSize <= size.

(** The checked inner loop, cell by cell: inside the grid it writes what
    the unchecked loop writes, and it goes through only if every cell of
    the list is inside the grid. *)
Lemma fillCells_checked_in (numbers : list Z) start (l : list (nat * nat)) :
  length numbers = size ->
  (forall ij, ij ∈ l -> fst ij < boxSize /\ snd ij < boxSize) ->
  (forall ij, ij ∈ l -> start + fst ij < size /\ start + snd ij < size) ->
  forall b : Board,
    wf size b ->
    fold_left (fillCellChecked boxSize numbers start start) l (Some b)
    = Some (fold_left
              (fun b ij => setCell b (start + fst ij) (start + snd ij)
                             (nth (fst ij * boxSize + snd ij) numbers 0%Z))
              l b).
Proof.
  intros Hlen. induction l as [|[i j] l IH]; intros Hin Hgrid b Hwf; [done|].
  destruct (Hin (i, j) ltac:(by left)) as [Hi Hj].
  destruct (Hgrid (i, j) ltac:(by left)) as [H1 H2]. simpl in *.
  assert (Hk : i * boxSize + j < length numbers) by nia.
  destruct (numbers !! (i * boxSize + j)) as [v|] eqn:Ev;
    [|apply lookup_ge_None in Ev; lia].
  rewrite (nth_lookup_Some _ _ 0%Z _ Ev). simpl.
  rewrite (setCellChecked_Some size) by done.
  apply IH; [intros ij Hij; apply Hin; by right
            |intros ij Hij; apply Hgrid; by right|by apply wf_setCell].
Qed.

Lemma fillCells_checked_out (numbers : list Z) start (l : list (nat * nat)) :
  forall b b' : Board,
    wf size b ->
    fold_left (fillCellChecked boxSize numbers start start) l (Some b) = Some b' ->
    forall ij, ij ∈ l -> start + fst ij < size /\ start + snd ij < size.
Proof.
  induction l as [|[i j] l IH]; intros b b' Hwf Hrun ij Hij.
  - by apply elem_of_nil in Hij.
  - simpl in Hrun.
    destruct (numbers !! (i * boxSize + j)) as [v|]; simpl in Hrun;
      [|by rewrite fold_left_None in Hrun].
    destruct (setCellChecked b (start + i) (start + j) v) as [b1|] eqn:E;
      [|by rewrite fold_left_None in Hrun].
    apply (setCellChecked_inv size) in E as (H1 & H2 & ->); [|done].
    apply elem_of_cons in Hij as [->|Hij]; [done|].
    by apply (IH _ _ (wf_setCell size b _ _ v Hwf) Hrun).
Qed.

Lemma fillBoxChecked_in start (b : Board) (g : G) :
  wf size b -> start + boxSize <= size ->
  fillBoxChecked G shuffle size boxSize start start (b, g)
  = Some (fillBox G shuffle size boxSize start start (b, g)).
Proof.
  intros Hwf Hin. unfold fillBoxChecked, fillBox. simpl.
  pose proof (shuffle_perm Z (digits size) g) as Hperm.
  destruct (shuffle Z (digits size) g) as [numbers g']. simpl in *.
  assert (Hlen : length numbers = size).
  { rewrite (Permutation_length Hperm). unfold digits.
    by rewrite length_map, length_seq. }
  rewrite (fillCells_checked_in numbers start); [done|done| | |done];
    intros [i j] [Hi Hj]%list_elem_of_In%in_prod_iff;
    apply in_seq in Hi, Hj; simpl; lia.
Qed.

Lemma fillBoxChecked_out start (b : Board) (g : G) :
  wf size b -> size < start + boxSize ->
  fillBoxChecked G shuffle size boxSize start start (b, g) = None.
Proof.
  intros Hwf Hout. unfold fillBoxChecked. simpl.
  destruct (shuffle Z (digits size) g) as [numbers g'].
  destruct (fold_left _ _ _) as [b'|] eqn:E; [|done]. exfalso.
  pose proof (fillCells_checked_out numbers start _ b b' Hwf E
                (boxSize - 1, boxSize - 1)) as Hlast.
  simpl in Hlast. destruct Hlast; [|lia].
  apply list_elem_of_In, in_prod_iff. split; apply in_seq; lia.
Qed.

Lemma fillBox_wf start (b : Board) (g : G) :
  wf size b -> wf size (fst (fillBox G shuffle size boxSize start start (b, g))).
Proof.
  intros Hwf. unfold fillBox. simpl.
  destruct (shuffle Z (digits size) g) as [numbers g']. simpl.
  generalize (list_prod (seq 0 boxSize) (seq 0 boxSize)). intros l.
  revert b Hwf. induction l as [|ij l IH]; intros b Hwf; simpl; [done|].
  by apply IH, wf_setCell.
Qed.

Lemma fillBoxes_wf (starts : list nat) :
  forall (b : Board) (g : G),
    wf size b ->
    wf size (fst (fold_left (fun bg i => fillBox G shuffle size boxSize i i bg)
                    starts (b, g))).
Proof.
  induction starts as [|i starts IH]; intros b g Hwf; simpl; [done|].
  pose proof (fillBox_wf i b g Hwf) as Hwf'.
  destruct (fillBox G shuffle size boxSize i i (b, g)) as [b1 g1].
  by apply IH.
Qed.

(** The checked outer loop, box by box. *)
Lemma fillBoxes_checked_in (starts : list nat) :
  forall (b : Board) (g : G),
    wf size b -> Forall (fun i => i + boxSize <= size) starts ->
    fold_left (fun obg i => bg ← obg; fillBoxChecked G shuffle size boxSize i i bg)
      starts (Some (b, g))
    = Some (fold_left (fun bg i => fillBox G shuffle size boxSize i i bg)
              starts (b, g)).
Proof.
  induction starts as [|i starts IH]; intros b g Hwf Hall; simpl; [done|].
  apply Forall_cons in Hall as [Hi Hall].
  rewrite fillBoxChecked_in by done.
  pose proof (fillBox_wf i b g Hwf) as Hwf'.
  destruct (fillBox G shuffle size boxSize i i (b, g)) as [b1 g1].
  by apply IH.
Qed.

Lemma fillBoxes_checked_out (starts : list nat) :
  forall (b : Board) (g : G),
    wf size b -> ~ Forall (fun i => i + boxSize <= size) starts ->
    fold_left (fun obg i => bg ← obg; fillBoxChecked G shuffle size boxSize i i bg)
      starts (Some (b, g))
    = None.
Proof.
  induction starts as [|i starts IH]; intros b g Hwf Hall; simpl.
  - by destruct Hall.
  - destruct (decide (i + boxSize <= size)) as [Hi|Hi].
    + rewrite fillBoxChecked_in by done.
      pose proof (fillBox_wf i b g Hwf) as Hwf'.
      destruct (fillBox G shuffle size boxSize i i (b, g)) as [b1 g1].
      apply IH; [done|]. intros H. apply Hall. by constructor.
    + rewrite fillBoxChecked_out by (done || lia). by apply fold_left_None.
Qed.

Lemma diagonalStarts_in_bounds :
  Forall (fun i => i + boxSize <= size) (diagonalStarts size boxSize)
  <-> size mod boxSize = 0.
Proof using Hbox.
  clear Hfit.
  unfold diagonalStarts. rewrite Forall_forall.
  pose proof (Nat.div_mod_eq size boxSize) as Hdm.
  pose proof (Nat.mod_upper_bound size boxSize ltac:(lia)) as Hm.
  split.
  - intros Hall.
    destruct (decide (size mod boxSize = 0)) as [|Hne]; [done|]. exfalso.
    specialize (Hall (boxSize * (size / boxSize))).
    assert (Hin : boxSize * (size / boxSize)
                  ∈ List.filter (fun i => i mod boxSize =? 0) (seq 0 size)).
    { apply list_elem_of_In, filter_In. split; [apply in_seq; lia|].
      apply Nat.eqb_eq. rewrite Nat.mul_comm. apply Nat.Div0.mod_mul. }
    specialize (Hall Hin). lia.
  - intros Hz i [Hi Hmod]%list_elem_of_In%filter_In.
    apply in_seq in Hi. apply Nat.eqb_eq in Hmod.
    pose proof (Nat.div_mod_eq i boxSize) as Hdi.
    rewrite Hz in Hdm. rewrite Hmod in Hdi.
    assert (i / boxSize < size / boxSize) by nia. nia.
Qed.

Lemma fillDiagonalBoxesChecked_in (b : Board) (g : G) :
  wf size b -> size mod boxSize = 0 ->
  fillDiagonalBoxesChecked G shuffle size boxSize (b, g)
  = fillDiagonalBoxes G shuffle size boxSize (b, g).
Proof.
  intros Hwf Hz. unfold fillDiagonalBoxesChecked, fillDiagonalBoxes.
  destruct (Nat.eqb_spec boxSize 0) as [|_]; [lia|]. simpl.
  apply fillBoxes_checked_in; [done|]. by apply diagonalStarts_in_bounds.
Qed.

Lemma fillDiagonalBoxesChecked_out (b : Board) (g : G) :
  wf size b -> size mod boxSize <> 0 ->
  fillDiagonalBoxesChecked G shuffle size boxSize (b, g) = None.
Proof.
  intros Hwf Hnz. unfold fillDiagonalBoxesChecked.
  destruct (Nat.eqb_spec boxSize 0) as [|_]; [lia|]. simpl.
  apply fillBoxes_checked_out; [done|]. intros H.
  by apply diagonalStarts_in_bounds in H.
Qed.

Lemma removeDigitsChecked_eq (d : spec_float) (b : Board) (g : G) :
  wf size b ->
  removeDigitsChecked G shuffle size d (b, g) = removeDigits G shuffle size d (b, g).
Proof using shuffle_perm.
  clear Hbox Hfit.
  intros Hwf. unfold removeDigitsChecked, removeDigits.
  destruct (cellsToRemove size d) as [n|]; [|done]. simpl.
  pose proof (shuffle_perm _ (allCells size) g) as Hperm.
  destruct (shuffle (nat * nat)%type (allCells size) g) as [cells g']. simpl in *.
  set (l := take _ cells).
  assert (Hin : forall rc, rc ∈ l -> rc ∈ allCells size).
  { intros rc Hrc. rewrite <- Hperm. eapply elem_of_take in Hrc as (i & Hi & _).
    by eapply list_elem_of_lookup_2. }
  clearbody l. clear Hperm.
  assert (Hfold : forall b : Board, wf size b ->
            fold_left (fun ob rc => b ← ob; setCellChecked b (fst rc) (snd rc) 0%Z)
              l (Some b)
            = Some (fold_left (fun b rc => setCell b (fst rc) (snd rc) 0%Z) l b)).
  { induction l as [|[r c] l IH]; intros b0 Hwf0; [done|]. simpl.
    assert (Hrc : r < size /\ c < size) by (apply allCells_elem, Hin; by left).
    destruct Hrc. rewrite (setCellChecked_Some size) by done.
    apply IH; [intros rc Hrc; apply Hin; by right|by apply wf_setCell]. }
  by rewrite Hfold.
Qed.

End SeedingBounds.

(** *** Construction *)

Section ConstructionChecked.

Variable G : Type.
Variable shuffle : forall A : Type, list A -> G -> list A * G.
Hypothesis shuffle_perm : forall A (l : list A) g, fst (shuffle A l g) ≡ₚ l.

(** For a dimension that [boxSize] divides, construction meets no index
    out of range and returns: the checked run and the unchecked one give
    the same session. Its Solution is what [solveBoard] made of the
    seeded grid, its puzzle what [removeDigits] made of the Solution with
    the constant difficulty; the counter is at 0 and nothing has been
    displayed. *)
Lemma Sudoku_newChecked_runs boardSize strategy seed :
  0 < boardSize -> (Z.of_nat (boardSize * boardSize) < 2 ^ 31)%Z ->
  boardSize mod Nat.sqrt boardSize = 0 ->
  exists s seeded g r,
    Sudoku_newChecked G shuffle boardSize strategy seed = Some s /\
    Sudoku_new G shuffle boardSize strategy seed = Some s /\
    fillDiagonalBoxesChecked G shuffle boardSize (Nat.sqrt boardSize)
      (createEmptyBoard boardSize, seed) = Some (seeded, g) /\
    solveBoardChecked boardSize (Nat.sqrt boardSize) (S (boardSize * boardSize)) seeded
    = Some (r, solution s) /\
    removeDigitsChecked G shuffle boardSize DEFAULT_DIFFICULTY (solution s, g)
    = Some (board (state s), rng s) /\
    size s = boardSize /\ boxSize s = Nat.sqrt boardSize /\ solver s = strategy /\
    steps (state s) = 0%Z /\ log (state s) = [].
Proof.
  intros Hpos Hint Hdiv.
  assert (Hbox : 0 < Nat.sqrt boardSize).
  { destruct (Nat.sqrt boardSize) eqn:E; [|lia].
    pose proof (Nat.sqrt_spec boardSize ltac:(lia)) as Hs. rewrite E in Hs. lia. }
  assert (Hfit : Nat.sqrt boardSize * Nat.sqrt boardSize <= boardSize).
  { pose proof (Nat.sqrt_spec boardSize ltac:(lia)). lia. }
  pose proof (createEmptyBoard_wf boardSize) as Hwf.
  destruct (fillDiagonalBoxes G shuffle boardSize (Nat.sqrt boardSize)
              (createEmptyBoard boardSize, seed)) as [[seeded g1]|] eqn:Hseed.
  2:{ unfold fillDiagonalBoxes in Hseed.
      by destruct (Nat.eqb_spec (Nat.sqrt boardSize) 0); [lia|]. }
  assert (HseedC : fillDiagonalBoxesChecked G shuffle boardSize (Nat.sqrt boardSize)
                     (createEmptyBoard boardSize, seed) = Some (seeded, g1)).
  { by rewrite (fillDiagonalBoxesChecked_in G shuffle shuffle_perm boardSize _ Hbox Hfit). }
  assert (Hwfs : wf boardSize seeded).
  { unfold fillDiagonalBoxes in Hseed.
    destruct (Nat.eqb_spec (Nat.sqrt boardSize) 0); [lia|].
    injection Hseed as Hseed.
    pose proof (fillBoxes_wf G shuffle boardSize (Nat.sqrt boardSize)
                  (diagonalStarts boardSize (Nat.sqrt boardSize)) _ seed Hwf) as Hw.
    by rewrite Hseed in Hw. }
  destruct (solveBoard_total boardSize (Nat.sqrt boardSize) seeded Hwfs)
    as [[r solvedBoard] Hsolve].
  assert (HsolveC : solveBoardChecked boardSize (Nat.sqrt boardSize)
                      (S (boardSize * boardSize)) seeded = Some (r, solvedBoard)).
  { by rewrite (solveBoardChecked_eq boardSize (Nat.sqrt boardSize) Hbox Hdiv). }
  pose proof (solveBoard_frame _ _ _ _ _ _ Hsolve) as (_ & _ & Hwf').
  specialize (Hwf' Hwfs).
  destruct (removeDigits G shuffle boardSize DEFAULT_DIFFICULTY (solvedBoard, g1))
    as [[puzzle g2]|] eqn:Hrem.
  2:{ destruct (cellsToRemove_unit boardSize DEFAULT_DIFFICULTY Hint) as [Hn _];
        [reflexivity..|].
      unfold removeDigits in Hrem. rewrite Hn in Hrem.
      by destruct (shuffle (nat * nat)%type (allCells boardSize) (snd (solvedBoard, g1))). }
  assert (HremC : removeDigitsChecked G shuffle boardSize DEFAULT_DIFFICULTY
                    (solvedBoard, g1) = Some (puzzle, g2)).
  { by rewrite (removeDigitsChecked_eq G shuffle shuffle_perm boardSize). }
  exists (mkSudoku boardSize (Nat.sqrt boardSize) (mkRun puzzle 0 []) solvedBoard
            strategy g2), seeded, g1, r.
  split; [|split].
  - unfold Sudoku_newChecked, generatePuzzleChecked.
    cbn [size boxSize state solution solver rng board steps log].
    rewrite HseedC. cbn [mbind option_bind fst snd].
    rewrite HsolveC. cbn [mbind option_bind fst snd]. by rewrite HremC.
  - unfold Sudoku_new, generatePuzzle.
    cbn [size boxSize state solution solver rng board steps log].
    by rewrite Hseed, Hsolve, Hrem.
  - by repeat split.
Qed.

End ConstructionChecked.

(** * Part 4. The claims *)

Lemma revShuffle_perm A (l : list A) g : fst (revShuffle A l g) ≡ₚ l.
Proof. simpl. symmetry. apply Permutation_rev. Qed.

Lemma wf_seeded4 : wf 4 seeded4.
Proof. split; [done|]. repeat constructor. Qed.

Lemma wf_solved4 : wf 4 solved4.
Proof. split; [done|]. repeat constructor. Qed.

(** A search that reports success on a valid partial state leaves a
    solved grid that keeps the cells that were filled. *)
Lemma solveBoard_success_is_solved size boxSize fuel (b b' : Board) :
  boxSize * boxSize = size ->
  wf size b ->
  validPartial size boxSize b ->
  solveBoard size boxSize fuel b = Some (true, b') ->
  solved size boxSize b' /\ extends size b b'.
Proof.
  intros Hsq Hwf Hvp Hrun. split.
  - by apply (solveBoard_sound_solved size boxSize Hsq fuel b).
  - pose proof (solveBoard_frame size boxSize fuel b true b' Hrun) as (_ & Hkeep & _).
    intros r c _ _. apply Hkeep.
Qed.

(** C1. The generation-time solve is the call [solveBoard(board)] of
    [generatePuzzle], on the grid that [fillDiagonalBoxes] has seeded
    from the empty one; what it leaves is captured as the Solution. With
    [std::shuffle] a permutation, for every square dimension whose
    square fits an [int], every engine state and every strategy:
    construction returns, the seeded grid is a valid partial state, and
    if the solve of it reports success, the Solution is fully solved -
    every row, every column and every box holds each value of
    [1, size] exactly once - and keeps the seeded cells. *)
Theorem generated_solution_is_solved (G : Type)
    (shuffle : forall A : Type, list A -> G -> list A * G)
    boardSize strategy (seed : G) :
  (forall A (l : list A) g, fst (shuffle A l g) ≡ₚ l) ->
  Nat.sqrt boardSize * Nat.sqrt boardSize = boardSize ->
  (Z.of_nat (boardSize * boardSize) < 2 ^ 31)%Z ->
  exists s seeded g r,
    Sudoku_new G shuffle boardSize strategy seed = Some s /\
    fillDiagonalBoxes G shuffle boardSize (Nat.sqrt boardSize)
      (createEmptyBoard boardSize, seed) = Some (seeded, g) /\
    wf boardSize seeded /\ validPartial boardSize (Nat.sqrt boardSize) seeded /\
    solveBoard boardSize (Nat.sqrt boardSize) (S (boardSize * boardSize)) seeded
    = Some (r, solution s) /\
    (r = true ->
     solved boardSize (Nat.sqrt boardSize) (solution s) /\
     extends boardSize seeded (solution s)).
Proof.
  intros Hperm Hsq Hfit.
  destruct (Sudoku_new_generates G shuffle Hperm boardSize strategy seed Hsq Hfit)
    as (s & seeded & g & r & Hnew & Hseed & Hsolve & _).
  destruct (fillDiagonalBoxes_seeds G shuffle Hperm boardSize (Nat.sqrt boardSize)
              Hsq seed) as (seeded' & g' & Hseed' & Hwf & Hvp).
  rewrite Hseed in Hseed'. injection Hseed' as <- <-.
  exists s, seeded, g, r. do 4 (split; [done|]). split; [done|].
  intros ->.
  by apply (solveBoard_success_is_solved boardSize (Nat.sqrt boardSize)
              (S (boardSize * boardSize))).
Qed.

Lemma generated_solution_is_solved_witness :
  exists s,
    Sudoku_new nat revShuffle 4 None 0 = Some s /\
    solved 4 2 (solution s) /\
    extends 4 [[4; 3; 0; 0]; [2; 1; 0; 0]; [0; 0; 4; 3]; [0; 0; 2; 1]]%Z (solution s).
Proof.
  destruct (generated_solution_is_solved nat revShuffle 4 None 0
              revShuffle_perm eq_refl eq_refl)
    as (s & seeded & g & r & Hnew & Hseed & _ & _ & Hsolve & Hok).
  vm_compute in Hseed. injection Hseed as <- <-.
  vm_compute in Hsolve. injection Hsolve as <- Hsol.
  exists s. split; [exact Hnew|]. exact (Hok eq_refl).
Defined.

(** [bruteForceSolver] is [backtrack(0, 0)] followed, on success, by one
    more display. *)
Lemma bruteForceSolver_inv size boxSize fuel s r s' :
  bruteForceSolver size boxSize fuel s = Some (r, s') ->
  exists s1,
    backtrack size boxSize fuel 0 0 s = Some (r, s1) /\
    s' = (if r then display s1 else s1).
Proof.
  unfold bruteForceSolver.
  destruct (backtrack size boxSize fuel 0 0 s) as [[[] s1]|]; [| |done];
    intros [= <- <-]; by exists s1.
Qed.




(** C4. For every grid, whenever a pass of [bruteForceSolver] returns,
    with success or with failure, every cell that was filled before the
    call holds the same value after it, and every write made during the
    pass is to a cell that was empty at entry. (For [size > 0] the pass
    does return, given the fuel of one walk.) *)
Theorem solve_preserves_filled_cells size boxSize fuel (s : Run) :
  (0 < size -> callsFrom size 0 0 <= fuel ->
   is_Some (bruteForceSolver size boxSize fuel s)) /\
  (forall r s',
      bruteForceSolver size boxSize fuel s = Some (r, s') ->
      (forall i j, cell (board s) i j <> 0%Z ->
                   cell (board s') i j = cell (board s) i j) /\
      exists new, log s' = log s ++ new /\ Forall (onEmpty (board s)) new).
Proof.
  split.
  - intros Hpos Hfuel. unfold bruteForceSolver.
    destruct (backtrack_total size boxSize fuel 0 0 s Hpos) as [[[] s1] ->];
      [left; lia|done|done|done].
  - intros r s' (s1 & Hrun & ->)%bruteForceSolver_inv.
    pose proof (backtrack_frame _ _ _ _ _ _ _ _ Hrun) as (_ & Hkeep & _).
    pose proof (backtrack_log _ _ _ _ _ _ _ _ Hrun) as (new & Hlog & _ & Hw & _).
    destruct r.
    + split; [done|]. exists (new ++ [Display (steps s1)]). simpl.
      rewrite Hlog, app_assoc. split; [done|].
      apply Forall_app. split; [done|]. by repeat constructor.
    + split; [done|]. by exists new.
Qed.

Lemma solve_preserves_filled_cells_witness :
  exists s',
    bruteForceSolver 4 2 21 (mkRun conflict4 0 []) = Some (true, s') /\
    (forall i j, cell conflict4 i j <> 0%Z -> cell (board s') i j = cell conflict4 i j) /\
    exists new, log s' = [] ++ new /\ Forall (onEmpty conflict4) new.
Proof.
  assert (Hrun : exists s', bruteForceSolver 4 2 21 (mkRun conflict4 0 []) = Some (true, s'))
    by (eexists; vm_compute; reflexivity).
  destruct Hrun as [s' Hrun]. exists s'. split; [exact Hrun|].
  exact (proj2 (solve_preserves_filled_cells 4 2 21 (mkRun conflict4 0 [])) true s' Hrun).
Defined.

(** C9. For every grid without an empty cell (so for every solved grid),
    [bruteForceSolver] returns success; it places nothing and writes no
    cell: the grid is unchanged and the only event of the pass is the
    closing display. The counter advances by the [size * (size + 1) + 1]
    calls of the walk. *)
Theorem resolve_full_grid size boxSize fuel (s : Run) :
  0 < size -> callsFrom size 0 0 <= fuel ->
  full size (board s) ->
  let n := (steps s + Z.of_nat (size * (size + 1) + 1))%Z in
  bruteForceSolver size boxSize fuel s
  = Some (true, mkRun (board s) n (log s ++ [Display n])).
Proof.
  intros Hpos Hfuel Hfull n. unfold bruteForceSolver.
  rewrite (backtrack_full size boxSize fuel 0 0 s Hpos); [|left; lia|done|done].
  unfold display. simpl. unfold callsFrom.
  replace (S (size * S size - (0 * S size + 0))) with (size * (size + 1) + 1) by lia.
  done.
Qed.

Lemma resolve_full_grid_witness :
  bruteForceSolver 4 2 21 (mkRun solved4 0 [])
  = Some (true, mkRun solved4 21 [Display 21]).
Proof.
  apply (resolve_full_grid 4 2 21 (mkRun solved4 0 [])).
  - lia.
  - vm_compute. lia.
  - apply findEmptyCell_None. reflexivity.
Defined.

(** C10. If [bruteForceSolver] returns failure, the grid is exactly the
    grid it was given: every placement of the failed search was undone. *)
Theorem failed_solve_restores_grid size boxSize fuel (s s' : Run) :
  bruteForceSolver size boxSize fuel s = Some (false, s') ->
  board s' = board s.
Proof.
  intros (s1 & Hrun & ->)%bruteForceSolver_inv.
  apply backtrack_frame in Hrun as (Hsame & _). by apply Hsame.
Qed.

Lemma failed_solve_restores_grid_witness :
  exists s',
    bruteForceSolver 4 2 21 (mkRun dead4 0 []) = Some (false, s') /\
    placements (log s') = 2 /\ undos (log s') = 2 /\
    board s' = dead4.
Proof.
  exists (mkRun dead4 7
            [Write 0 0 1; Display 1; Write 0 0 0; Display 4;
             Write 0 0 4; Display 4; Write 0 0 0; Display 7]%Z).
  assert (Hrun : bruteForceSolver 4 2 21 (mkRun dead4 0 [])
                 = Some (false,
                         mkRun dead4 7
                           [Write 0 0 1; Display 1; Write 0 0 0; Display 4;
                            Write 0 0 4; Display 4; Write 0 0 0; Display 7]%Z))
    by (vm_compute; reflexivity).
  split; [exact Hrun|]. split; [reflexivity|]. split; [reflexivity|].
  exact (failed_solve_restores_grid 4 2 21 (mkRun dead4 0 []) _ Hrun).
Defined.

(** C3 (amended). With [std::shuffle] a permutation, for a grid dimension
    whose square fits an [int] and a difficulty [d] that is a double in
    [0, 1], [removeDigits] run on a grid without empty cells leaves
    exactly [min(p, size * size)] cells at 0, where [p] is the integer
    part of the double product [size * size * d] as the code computes
    it, rounded to the nearest double. That count is
    [floor(size * size * d)], the product taken exactly, or one more.
    For [size = 9], none is zeroed at [d = 0] and all 81 are at
    [d = 1]. *)
Theorem removal_count (G : Type)
    (shuffle : forall A : Type, list A -> G -> list A * G)
    size (d : spec_float) (b : Board) (g : G) :
  (forall A (l : list A) g, fst (shuffle A l g) ≡ₚ l) ->
  (Z.of_nat (size * size) < 2 ^ 31)%Z ->
  wf size b -> full size b ->
  valid_binary 53 1024 d = true ->
  SFleb double_zero d = true -> SFleb d double_one = true ->
  exists b' g',
    removeDigits G shuffle size d (b, g) = Some (b', g') /\
    emptyCount size b'
    = Z.to_nat (Z.min (floorDouble (doubleMul (doubleOfInt (Z.of_nat (size * size))) d))
                      (Z.of_nat (size * size))) /\
    (Z.of_nat (emptyCount size b') = floorTimes (Z.of_nat (size * size)) d \/
     Z.of_nat (emptyCount size b') = floorTimes (Z.of_nat (size * size)) d + 1)%Z /\
    (size = 9 -> d = double_zero -> emptyCount size b' = 0) /\
    (size = 9 -> d = double_one -> emptyCount size b' = 81).
Proof.
  intros Hperm Hsz Hwf Hfull Hv H0 H1.
  destruct (cellsToRemove_unit size d Hsz Hv H0 H1) as [Hn Hnn].
  destruct (doubleMul_floor (Z.of_nat (size * size)) d ltac:(lia) Hv H0 H1)
    as (_ & Hbr & Hft).
  destruct (removeDigits_count G shuffle Hperm size d b g _ Hwf Hfull Hn)
    as (b' & g' & Hrun & Hcount).
  exists b', g'. split; [done|]. split; [done|]. split.
  - rewrite Hcount, Z2Nat.id by lia. lia.
  - split; intros -> ->; rewrite Hcount; reflexivity.
Qed.

Lemma removal_count_witness :
  exists b' g',
    removeDigits nat revShuffle 4 DEFAULT_DIFFICULTY (solved4, 0) = Some (b', g') /\
    emptyCount 4 b' = 11 /\
    floorTimes 16 DEFAULT_DIFFICULTY = 11%Z.
Proof.
  destruct (removal_count nat revShuffle 4 DEFAULT_DIFFICULTY solved4 0)
    as (b' & g' & Hrun & Hcount & _).
  - exact revShuffle_perm.
  - vm_compute. reflexivity.
  - exact wf_solved4.
  - apply findEmptyCell_None. reflexivity.
  - reflexivity.
  - reflexivity.
  - reflexivity.
  - exists b', g'. split; [exact Hrun|]. split; [|reflexivity].
    rewrite Hcount. reflexivity.
Defined.

(** C3 as stated fails: for [size = 9] and the difficulty [third], a
    double in [0, 1], the exact product [81 * third] lies below 27 and
    its floor is 26, but the double product rounds to 27 and
    [removeDigits] zeroes 27 cells of the solved grid [solved9]. *)
Lemma removal_count_rounds_up :
  valid_binary 53 1024 third = true /\
  SFleb double_zero third = true /\ SFleb third double_one = true /\
  wf 9 solved9 /\ solved 9 3 solved9 /\
  floorTimes 81 third = 26%Z /\
  exists b' g',
    removeDigits nat revShuffle 9 third (solved9, 0) = Some (b', g') /\
    emptyCount 9 b' = 27.
Proof.
  assert (Hwf : wf 9 solved9) by (split; [done|repeat constructor]).
  do 3 (split; [reflexivity|]). split; [done|]. split; [|split].
  - apply (solved_iff 9 3 eq_refl solved9 Hwf). split.
    + apply validPartialb_true. vm_compute. reflexivity.
    + apply findEmptyCell_None. reflexivity.
  - reflexivity.
  - eexists _, _. split; [vm_compute; reflexivity|]. vm_compute. reflexivity.
Qed.

(** C8. On a well-formed grid, for [row], [col] in [0, size) and [num] in
    [1, size], [isValidPlacement] answers true exactly when [num] occurs
    neither in row [row], nor in column [col], nor in the box of
    [boxSize] rows from [row - row % boxSize] and [boxSize] columns from
    [col - col % boxSize]. It is a function from the grid to a boolean:
    it returns no grid and changes none. *)
Theorem isValidPlacement_correct size boxSize (b : Board) row col num :
  wf size b -> row < size -> col < size -> (1 <= num <= Z.of_nat size)%Z ->
  isValidPlacement size boxSize b row col num = true <->
  (forall c, c < size -> cell b row c <> num) /\
  (forall r, r < size -> cell b r col <> num) /\
  (forall r c,
      row - row mod boxSize <= r < row - row mod boxSize + boxSize ->
      col - col mod boxSize <= c < col - col mod boxSize + boxSize ->
      cell b r c <> num).
Proof.
  intros Hwf Hr _ _. unfold isValidPlacement.
  rewrite !andb_true_iff.
  rewrite (isValidInRow_iff size) by done.
  rewrite isValidInColumn_iff, isValidInBox_iff.
  tauto.
Qed.

Lemma isValidPlacement_correct_witness :
  isValidPlacement 4 2 seeded4 0 2 4%Z = true <->
  (forall c, c < 4 -> cell seeded4 0 c <> 4%Z) /\
  (forall r, r < 4 -> cell seeded4 r 2 <> 4%Z) /\
  (forall r c, 0 <= r < 2 -> 2 <= c < 4 -> cell seeded4 r c <> 4%Z).
Proof.
  apply (isValidPlacement_correct 4 2 seeded4 0 2 4%Z).
  - exact wf_seeded4.
  - lia.
  - lia.
  - lia.
Defined.

(** C7 (amended). For every well-formed grid of a square dimension
    [size > 0], [bruteForceSolver] terminates with a boolean: the fuel of
    one walk is enough and more fuel gives the same result. If the
    boolean is false, the grid is as given and no solved grid keeps its
    filled cells: no completion exists. If it is true and the given grid
    was a valid partial state, the grid is solved and keeps the given
    cells. *)
Theorem backtracking_terminates_and_decides size boxSize (s : Run) :
  boxSize * boxSize = size -> 0 < size -> wf size (board s) ->
  exists r s',
    (forall fuel, callsFrom size 0 0 <= fuel ->
                  bruteForceSolver size boxSize fuel s = Some (r, s')) /\
    (r = true -> validPartial size boxSize (board s) ->
     solved size boxSize (board s') /\ extends size (board s) (board s')) /\
    (r = false ->
     board s' = board s /\
     forall t, wf size t -> solved size boxSize t -> ~ extends size (board s) t).
Proof.
  intros Hsq Hpos Hwf.
  destruct (backtrack_total size boxSize (callsFrom size 0 0) 0 0 s Hpos)
    as [[r s1] Hrun]; [left; lia|done|].
  pose proof (backtrack_frame _ _ _ _ _ _ _ _ Hrun) as (Hsame & Hkeep & Hwf').
  assert (Hsolve : solveBoard size boxSize (S (size * size)) (board s)
                   = Some (r, board s1)).
  { apply (backtrack_solveBoard size boxSize (callsFrom size 0 0) 0 0 s r s1);
      try done.
    - left. lia.
    - intros i j _ _ Hlt. lia.
    - unfold cellsFrom. lia. }
  exists r, (if r then display s1 else s1). split; [|split].
  - intros fuel Hfuel. unfold bruteForceSolver.
    rewrite (backtrack_mono size boxSize _ fuel 0 0 s (r, s1) Hfuel Hrun).
    by destruct r.
  - intros -> Hvp. simpl. split.
    + by apply (solveBoard_sound_solved size boxSize Hsq (S (size * size)) (board s)).
    + intros i j _ _. apply Hkeep.
  - intros ->. split; [by apply Hsame|].
    intros t Hwft Hsolved Hext.
    apply (solved_iff size boxSize Hsq t Hwft) in Hsolved.
    by pose proof (solveBoard_complete size boxSize Hsq _ t Hsolved
                     (board s) false (board s1) Hwf Hext Hsolve).
Qed.

Lemma backtracking_terminates_and_decides_witness :
  exists r s',
    (forall fuel, 21 <= fuel ->
                  bruteForceSolver 4 2 fuel (mkRun stuck4 0 []) = Some (r, s')) /\
    (r = true -> validPartial 4 2 stuck4 ->
     solved 4 2 (board s') /\ extends 4 stuck4 (board s')) /\
    (r = false ->
     board s' = stuck4 /\
     forall t, wf 4 t -> solved 4 2 t -> ~ extends 4 stuck4 t).
Proof.
  apply (backtracking_terminates_and_decides 4 2 (mkRun stuck4 0 [])).
  - reflexivity.
  - lia.
  - split; [reflexivity|]. repeat constructor.
Defined.

(** C7 as stated fails: on [clash4], whose given cells repeat a 4 in
    row 3, [bruteForceSolver] returns true and the grid is not solved. *)
Lemma bruteForceSolver_conflicting_givens :
  let b' := [[1; 2; 3; 4]; [3; 4; 1; 2]; [2; 1; 4; 3]; [4; 3; 2; 4]]%Z in
  wf 4 clash4 /\
  bruteForceSolver 4 2 21 (mkRun clash4 0 [])
  = Some (true, mkRun b' 21 [Write 3 2 2; Display 18; Display 21]) /\
  ~ solved 4 2 b'.
Proof.
  split; [split; [done|repeat constructor]|]. split; [vm_compute; reflexivity|].
  intros (Hrows & _). specialize (Hrows 3 ltac:(lia) 1%Z ltac:(lia)).
  vm_compute in Hrows. discriminate.
Qed.

(** C6 (amended). The generator's completion step is the private search
    [solveBoard], whatever strategy the session was given: the Solution
    is what [solveBoard] makes of the seeded grid, and generation leaves
    the step counter and the strategy as they were. On every well-formed
    grid of dimension [size > 0], this search and the default strategy
    [bruteForceSolver] return the same boolean and leave the same grid. *)
Theorem solveBoard_agrees_with_default_strategy :
  (forall size boxSize (s : Run),
      0 < size -> wf size (board s) ->
      exists r s',
        defaultStrategy size boxSize s = Some (r, s') /\
        solveBoard size boxSize (S (size * size)) (board s) = Some (r, board s')) /\
  (forall (G : Type) (shuffle : forall A : Type, list A -> G -> list A * G)
          (s s' : Sudoku G),
      generatePuzzle G shuffle s = Some s' ->
      steps (state s') = steps (state s) /\ solver s' = solver s /\
      exists seeded g r,
        fillDiagonalBoxes G shuffle (size s) (boxSize s) (board (state s), rng s)
        = Some (seeded, g) /\
        solveBoard (size s) (boxSize s) (S (size s * size s)) seeded
        = Some (r, solution s')).
Proof.
  split.
  - intros size boxSize s Hpos Hwf. unfold defaultStrategy, bruteForceSolver.
    destruct (backtrack_total size boxSize (callsFrom size 0 0) 0 0 s Hpos)
      as [[r s1] Hrun]; [left; lia|done|].
    rewrite Hrun.
    assert (Hsolve : solveBoard size boxSize (S (size * size)) (board s)
                     = Some (r, board s1)).
    { apply (backtrack_solveBoard size boxSize (callsFrom size 0 0) 0 0 s r s1);
        try done.
      - left. lia.
      - intros i j _ _ Hlt. lia.
      - unfold cellsFrom. lia. }
    exists r, (if r then display s1 else s1). split; by destruct r.
  - intros G shuffle s s'. unfold generatePuzzle.
    destruct (fillDiagonalBoxes G shuffle (size s) (boxSize s) _)
      as [[seeded g1]|]; [|done].
    destruct (solveBoard (size s) (boxSize s) _ seeded) as [[r solvedBoard]|] eqn:E;
      [|done].
    destruct (removeDigits G shuffle (size s) _ _) as [[puzzle g2]|]; [|done].
    intros [= <-]. simpl. split; [done|]. split; [done|].
    by exists seeded, g1, r.
Qed.

Lemma solveBoard_agrees_with_default_strategy_witness :
  exists r s',
    defaultStrategy 4 2 (mkRun seeded4 0 []) = Some (r, s') /\
    solveBoard 4 2 17 seeded4 = Some (r, board s').
Proof.
  apply (proj1 solveBoard_agrees_with_default_strategy 4 2 (mkRun seeded4 0 [])).
  - lia.
  - exact wf_seeded4.
Defined.

(** C6 as stated fails: a session built with the strategy [giveUp] still
    gets a completed Solution, which is not what that strategy makes of
    the seeded grid; and the step counter is still 0, which no pass of a
    counting strategy would leave. *)
Lemma generator_ignores_the_strategy :
  exists s seeded,
    Sudoku_new nat revShuffle 4 (Some giveUp) 0 = Some s /\
    fillDiagonalBoxes nat revShuffle 4 2 (createEmptyBoard 4, 0) = Some (seeded, 2) /\
    giveUp 4 2 (mkRun seeded 0 []) = Some (false, mkRun seeded 0 []) /\
    solution s <> seeded /\
    solution s = [[4; 3; 1; 2]; [2; 1; 3; 4]; [1; 2; 4; 3]; [3; 4; 2; 1]]%Z /\
    steps (state s) = 0%Z.
Proof.
  eexists _, _. split; [vm_compute; reflexivity|].
  split; [vm_compute; reflexivity|]. split; [reflexivity|].
  split; [discriminate|]. split; reflexivity.
Qed.

(** C5 (amended). Construction validates nothing. With [std::shuffle] a
    permutation: for every dimension [n > 0] that [boxSize], the integer
    part of its square root, divides ([n * n] fitting an [int]), a
    square or not, and whatever strategy is supplied, or none, the
    constructor runs the generator to its end with every index in range
    and returns a session: the seeding and the internal search have run,
    the removal has run with the constant difficulty, nothing has been
    displayed, and the session is the same, up to the solver field, as
    the one built without a solver. For every other dimension [n > 0] the
    constructor rejects nothing either: the seeding runs and indexes a
    vector out of range. The one configuration error that is detected is
    the missing strategy, and it is detected by [solve]: the call throws
    before it displays or searches and leaves the session as it was. *)
Theorem missing_solver_detected_by_solve (G : Type)
    (shuffle : forall A : Type, list A -> G -> list A * G) :
  (forall A (l : list A) g, fst (shuffle A l g) ≡ₚ l) ->
  (forall n k st sol g,
      solve G (mkSudoku n k st sol None g)
      = Some (Threw "No solver function provided", mkSudoku n k st sol None g)) /\
  (forall boardSize strategy seed,
      0 < boardSize -> (Z.of_nat (boardSize * boardSize) < 2 ^ 31)%Z ->
      boardSize mod Nat.sqrt boardSize = 0 ->
      exists s seeded g r,
        Sudoku_newChecked G shuffle boardSize strategy seed = Some s /\
        Sudoku_new G shuffle boardSize strategy seed = Some s /\
        size s = boardSize /\ boxSize s = Nat.sqrt boardSize /\
        solver s = strategy /\
        fillDiagonalBoxesChecked G shuffle boardSize (Nat.sqrt boardSize)
          (createEmptyBoard boardSize, seed) = Some (seeded, g) /\
        solveBoardChecked boardSize (Nat.sqrt boardSize) (S (boardSize * boardSize))
          seeded = Some (r, solution s) /\
        removeDigitsChecked G shuffle boardSize DEFAULT_DIFFICULTY (solution s, g)
        = Some (board (state s), rng s) /\
        steps (state s) = 0%Z /\ log (state s) = [] /\
        Sudoku_newChecked G shuffle boardSize None seed
        = Some (mkSudoku (size s) (boxSize s) (state s) (solution s) None (rng s))) /\
  (forall boardSize strategy seed,
      0 < boardSize -> boardSize mod Nat.sqrt boardSize <> 0 ->
      fillDiagonalBoxesChecked G shuffle boardSize (Nat.sqrt boardSize)
        (createEmptyBoard boardSize, seed) = None /\
      Sudoku_newChecked G shuffle boardSize strategy seed = None).
Proof.
  intros Hperm. split; [done|]. split.
  - intros boardSize strategy seed Hpos Hint Hdiv.
    destruct (Sudoku_newChecked_runs G shuffle Hperm boardSize strategy seed
                Hpos Hint Hdiv)
      as (s & seeded & g & r & Hc & Hu & Hseed & Hsolve & Hrem & Hsz & Hbx & Hsv
          & Hst & Hlog).
    destruct (Sudoku_newChecked_runs G shuffle Hperm boardSize None seed
                Hpos Hint Hdiv)
      as (s0 & seeded0 & g0 & r0 & Hc0 & _).
    exists s, seeded, g, r. do 10 (split; [done|]).
    rewrite Hc0. f_equal. clear -Hc Hc0.
    revert Hc Hc0. unfold Sudoku_newChecked, generatePuzzleChecked.
    cbn [size boxSize state solution solver rng board steps log].
    destruct (fillDiagonalBoxesChecked G shuffle boardSize _ _) as [sg|]; [|done].
    cbn [mbind option_bind].
    destruct (solveBoardChecked boardSize _ _ _) as [rb|]; [|done].
    cbn [mbind option_bind].
    destruct (removeDigitsChecked G shuffle boardSize _ _) as [pg|]; [|done].
    cbn [mbind option_bind]. by intros [= <-] [= <-].
  - intros boardSize strategy seed Hpos Hndiv.
    assert (Hbox : 0 < Nat.sqrt boardSize).
    { destruct (Nat.sqrt boardSize) eqn:E; [|lia].
      pose proof (Nat.sqrt_spec boardSize ltac:(lia)) as Hs. rewrite E in Hs. lia. }
    assert (Hfit : Nat.sqrt boardSize * Nat.sqrt boardSize <= boardSize).
    { pose proof (Nat.sqrt_spec boardSize ltac:(lia)). lia. }
    assert (Hout : fillDiagonalBoxesChecked G shuffle boardSize (Nat.sqrt boardSize)
                     (createEmptyBoard boardSize, seed) = None).
    { apply (fillDiagonalBoxesChecked_out G shuffle Hperm boardSize _ Hbox Hfit);
        [apply createEmptyBoard_wf|done]. }
    split; [done|].
    unfold Sudoku_newChecked, generatePuzzleChecked.
    cbn [size boxSize state solution solver rng board steps log].
    by rewrite Hout.
Qed.

Lemma missing_solver_detected_by_solve_witness :
  solve nat (mkSudoku 4 2 (mkRun seeded4 0 []) solved4 None 0)
  = Some (Threw "No solver function provided",
          mkSudoku 4 2 (mkRun seeded4 0 []) solved4 None 0) /\
  (exists s,
      Sudoku_newChecked nat revShuffle 6 (Some giveUp) 0 = Some s /\
      size s = 6 /\ boxSize s = 2 /\ solver s = Some giveUp) /\
  Sudoku_newChecked nat revShuffle 5 None 0 = None.
Proof.
  destruct (missing_solver_detected_by_solve nat revShuffle revShuffle_perm)
    as (Hsolve & Hnew & Hout).
  split; [apply Hsolve|]. split.
  - destruct (Hnew 6 (Some giveUp) 0) as (s & _ & _ & _ & Hc & _ & Hsz & Hbx & Hsv & _).
    + lia.
    + vm_compute. reflexivity.
    + reflexivity.
    + exists s. split; [exact Hc|]. split; [exact Hsz|]. split; [exact Hbx|exact Hsv].
  - apply (Hout 5 None 0).
    + lia.
    + vm_compute. lia.
Defined.

(** C5 as stated fails: a session of dimension 2, which has no integer
    square root, and without a solver is constructed without any error,
    every index in range, and the generator has already searched and
    written the grid. *)
Lemma construction_validates_nothing :
  exists s,
    Sudoku_newChecked nat revShuffle 2 None 0 = Some s /\
    Sudoku_new nat revShuffle 2 None 0 = Some s /\
    solver s = None /\
    boxSize s * boxSize s <> size s /\
    board (state s) <> createEmptyBoard 2.
Proof.
  eexists. split; [vm_compute; reflexivity|]. split; [vm_compute; reflexivity|].
  split; [reflexivity|]. split; [simpl; lia|discriminate].
Qed.

(** * Part 5. Further properties of the code *)

(** ** Success, whatever the given cells *)

Section SearchSound.

Variables size boxSize : nat.
Hypothesis Hsquare : boxSize * boxSize = size.

Lemma placeDigits_full rec row col nums :
  (forall b b', rec b = Some (true, b') -> full size b') ->
  (forall b b', placeDigits size boxSize rec row col nums b = Some (true, b') ->
                full size b').
Proof using Type.
  intros Hrec. induction nums as [|num rest IH]; intros b b'; simpl; [done|].
  destruct (isValidPlacement size boxSize b row col num); [|by apply IH].
  destruct (rec _) as [[[] b1]|] eqn:E; [| |done].
  - intros [= <-]. by apply Hrec in E.
  - apply IH.
Qed.

Lemma solveBoard_full fuel :
  forall b b', solveBoard size boxSize fuel b = Some (true, b') -> full size b'.
Proof using Type.
  induction fuel as [|fuel IH]; intros b b'; simpl; [done|].
  destruct (findEmptyCell size b) as [[row col]|] eqn:E.
  - by apply placeDigits_full.
  - intros [= <-]. by apply findEmptyCell_None.
Qed.

(** The cells a successful search fills hold digits of [1, size]. *)
Lemma placeDigits_range rec row col nums :
  (forall b r b', rec b = Some (r, b') -> frame_post size b r b') ->
  (forall b b', wf size b -> rec b = Some (true, b') ->
     forall r c, r < size -> c < size -> cell b r c = 0%Z ->
                 (1 <= cell b' r c <= Z.of_nat size)%Z) ->
  row < size -> col < size ->
  (forall num, In num nums -> (1 <= num <= Z.of_nat size)%Z) ->
  forall b b',
    wf size b -> cell b row col = 0%Z ->
    placeDigits size boxSize rec row col nums b = Some (true, b') ->
    forall r c, r < size -> c < size -> cell b r c = 0%Z ->
                (1 <= cell b' r c <= Z.of_nat size)%Z.
Proof using Type.
  clear Hsquare.
  intros Hfr Hrec Hr Hc. induction nums as [|num rest IH];
    intros Hnums b b' Hwf Hz; simpl; [done|].
  assert (Hrest : forall n, In n rest -> (1 <= n <= Z.of_nat size)%Z)
    by (intros n Hn; apply Hnums; by right).
  assert (Hnum : (1 <= num <= Z.of_nat size)%Z) by (apply Hnums; by left).
  destruct (isValidPlacement size boxSize b row col num); [|by apply IH].
  destruct (rec _) as [[[] b1]|] eqn:E; [| |done].
  - intros [= <-] r c Hr' Hc' Hz'. pose proof (Hfr _ _ _ E) as (_ & Hkeep & _).
    destruct (decide ((r, c) = (row, col))) as [[= -> ->]|Hne].
    + rewrite Hkeep; rewrite (cell_setCell_eq size); try done. lia.
    + apply (Hrec _ _ (wf_setCell size b row col num Hwf) E); [done..|].
      by rewrite cell_setCell_ne.
  - apply Hfr in E as [Hsame _]. rewrite (Hsame eq_refl), setCell_undo by done.
    by apply IH.
Qed.

Lemma solveBoard_range fuel :
  forall b b',
    wf size b -> solveBoard size boxSize fuel b = Some (true, b') ->
    forall r c, r < size -> c < size -> cell b r c = 0%Z ->
                (1 <= cell b' r c <= Z.of_nat size)%Z.
Proof using Type.
  induction fuel as [|fuel IH]; intros b b' Hwf; simpl; [done|].
  destruct (findEmptyCell size b) as [[row col]|] eqn:E.
  - apply findEmptyCell_Some in E as (Hr & Hc & Hz).
    apply placeDigits_range; try done.
    + apply solveBoard_frame.
    + intros num. apply digits_range.
  - intros [= <-] r c Hr Hc Hz. apply findEmptyCell_None in E. by apply E in Hz.
Qed.

(** A clash of the grid after a placement that [isValidPlacement] let
    through does not involve the placed cell. *)
Lemma clashesWithin_place (b b' : Board) row col num :
  wf size b -> row < size -> col < size -> cell b row col = 0%Z ->
  isValidPlacement size boxSize b row col num = true ->
  (forall i j, cell (setCell b row col num) i j <> 0%Z ->
               cell b' i j = cell (setCell b row col num) i j) ->
  clashesWithin size boxSize (setCell b row col num) b' ->
  clashesWithin size boxSize b b'.
Proof using Hsquare.
  intros Hwf Hr Hc Hz Hok Hkeep Hcl r c r' c' Hr1 Hc1 Hr2 Hc2 Hp Hnz Heq.
  destruct (Hcl r c r' c' Hr1 Hc1 Hr2 Hc2 Hp Hnz Heq) as [Hn1 Hn2].
  assert (Hnum : num <> 0%Z -> cell b' row col = num).
  { intros Hn. rewrite Hkeep; rewrite (cell_setCell_eq size); done. }
  assert (Hfree : forall i j, i < size -> j < size -> peers boxSize row col i j ->
                              cell b i j <> num \/ num = 0%Z).
  { intros i j Hi Hj Hpij. destruct (decide (num = 0%Z)) as [|Hn]; [by right|left].
    apply (proj1 (isValidPlacement_peers size boxSize Hsquare b row col num
                    Hwf Hr Hc ltac:(congruence)) Hok); done. }
  destruct (decide ((r, c) = (row, col))) as [[= -> ->]|Hne1].
  - exfalso. rewrite (cell_setCell_eq size) in Hn1 by done.
    assert (Hne2 : (r', c') <> (row, col)) by (destruct Hp as [Hp _]; congruence).
    rewrite cell_setCell_ne in Hn2 by done.
    destruct (Hfree r' c' Hr2 Hc2 Hp) as [Hf|]; [|done]. apply Hf.
    rewrite <- (Hnum Hn1), Heq, Hkeep; rewrite cell_setCell_ne; done.
  - rewrite cell_setCell_ne in Hn1 by done.
    destruct (decide ((r', c') = (row, col))) as [[= -> ->]|Hne2].
    + exfalso. rewrite (cell_setCell_eq size) in Hn2 by done.
      destruct (Hfree r c Hr1 Hc1 (peers_sym boxSize _ _ _ _ Hp)) as [Hf|]; [|done].
      apply Hf. rewrite <- (Hnum Hn2), <- Heq, Hkeep; rewrite cell_setCell_ne; done.
    + by rewrite cell_setCell_ne in Hn2.
Qed.

Lemma placeDigits_clashes rec row col nums :
  (forall b r b', rec b = Some (r, b') -> frame_post size b r b') ->
  (forall b b', wf size b -> rec b = Some (true, b') ->
                clashesWithin size boxSize b b') ->
  row < size -> col < size ->
  forall b b',
    wf size b -> cell b row col = 0%Z ->
    placeDigits size boxSize rec row col nums b = Some (true, b') ->
    clashesWithin size boxSize b b'.
Proof using Hsquare.
  intros Hfr Hrec Hr Hc. induction nums as [|num rest IH];
    intros b b' Hwf Hz; simpl; [done|].
  destruct (isValidPlacement size boxSize b row col num) eqn:Hok; [|by apply IH].
  destruct (rec _) as [[[] b1]|] eqn:E; [| |done].
  - intros [= <-]. pose proof (Hfr _ _ _ E) as (_ & Hkeep & _).
    apply Hrec in E; [|by apply wf_setCell].
    by apply (clashesWithin_place b b1 row col num).
  - apply Hfr in E as [Hsame _]. rewrite (Hsame eq_refl), setCell_undo by done.
    by apply IH.
Qed.

Lemma solveBoard_clashes fuel :
  forall b b',
    wf size b -> solveBoard size boxSize fuel b = Some (true, b') ->
    clashesWithin size boxSize b b'.
Proof using Hsquare.
  induction fuel as [|fuel IH]; intros b b' Hwf; simpl; [done|].
  destruct (findEmptyCell size b) as [[row col]|] eqn:E.
  - apply findEmptyCell_Some in E as (Hr & Hc & Hz).
    apply placeDigits_clashes; try done. apply solveBoard_frame.
  - intros [= <-]. apply findEmptyCell_None in E.
    intros r c r' c' Hr Hc Hr' Hc' _ _ _. split; by apply E.
Qed.

(** *** The first completion in the order of the search *)

Lemma placeDigits_least rec row col (t : Board) a n :
  (forall b r b', rec b = Some (r, b') -> frame_post size b r b') ->
  (forall b r b', wf size b -> extends size b t -> rec b = Some (r, b') ->
                  r = true /\ lexLe size b' t) ->
  complete size boxSize t -> row < size -> col < size ->
  forall b b',
    wf size b -> extends size b t -> cell b row col = 0%Z ->
    filledBefore size b row col -> 0 < a ->
    In (cell t row col) (map Z.of_nat (seq a n)) ->
    placeDigits size boxSize rec row col (map Z.of_nat (seq a n)) b = Some (true, b') ->
    lexLe size b' t.
Proof using Hsquare.
  intros Hfr Hrec Ht Hr Hc. revert a.
  induction n as [|n IH]; intros a b b' Hwf Hext Hz Hbefore Ha Hin; simpl; [done|].
  simpl in Hin.
  destruct (decide (Z.of_nat a = cell t row col)) as [Ea|Hne].
  - rewrite Ea, (completion_valid size boxSize Hsquare b t row col) by done.
    destruct (rec _) as [[r1 b1]|] eqn:E; [|done].
    apply Hrec in E as [-> Hle]; [|by apply wf_setCell|by apply extends_place].
    by intros [= <-].
  - destruct Hin as [|Hin]; [done|].
    assert (Hlt : (Z.of_nat a < cell t row col)%Z).
    { apply in_map_iff in Hin as (x & <- & Hx%in_seq). lia. }
    destruct (isValidPlacement size boxSize b row col (Z.of_nat a));
      [|apply IH; try done; lia].
    destruct (rec _) as [[[] b1]|] eqn:E; [| |done].
    + intros [= <-]. apply Hfr in E as (_ & Hkeep & _). right.
      exists row, col. split; [done|]. split; [done|]. split.
      * rewrite Hkeep; rewrite (cell_setCell_eq size); try done. lia.
      * intros i j Hi Hj Hij.
        assert (Hnz : cell b i j <> 0%Z) by (by apply Hbefore).
        assert (Hne' : (i, j) <> (row, col)) by (intros [= -> ->]; lia).
        rewrite Hkeep; rewrite cell_setCell_ne; try done.
        symmetry. by apply Hext.
    + apply Hfr in E as [Hsame _]. rewrite (Hsame eq_refl), setCell_undo by done.
      apply IH; try done; lia.
Qed.

Lemma solveBoard_least fuel (t : Board) :
  complete size boxSize t ->
  forall b r b',
    wf size b -> extends size b t ->
    solveBoard size boxSize fuel b = Some (r, b') ->
    r = true /\ lexLe size b' t.
Proof using Hsquare.
  intros Ht. induction fuel as [|fuel IH]; intros b r b' Hwf Hext; simpl; [done|].
  destruct (findEmptyCell size b) as [[row col]|] eqn:E.
  - intros Hrun.
    assert (r = true) as ->.
    { apply (solveBoard_complete size boxSize Hsquare (S fuel) t Ht b r b'); try done.
      simpl. by rewrite E. }
    split; [done|].
    pose proof (find_cells_first size _ _ _ _ _ E) as Hfirst.
    apply findEmptyCell_Some in E as (Hr & Hc & Hz).
    revert Hrun. unfold digits.
    apply (placeDigits_least _ _ _ t); try done.
    + apply solveBoard_frame.
    + intros i j Hi Hj Hij. specialize (Hfirst i j ltac:(lia) Hj Hij).
      simpl in Hfirst. by apply Z.eqb_neq in Hfirst.
    + lia.
    + apply (digits_range size). destruct Ht as [[Hrange _] Hfull].
      specialize (Hrange row col Hr Hc). specialize (Hfull row col Hr Hc). lia.
  - intros [= <- <-]. split; [done|]. left. intros i j Hi Hj.
    symmetry. apply Hext; [done..|]. by apply (findEmptyCell_None size).
Qed.

End SearchSound.

(** ** Counting: undo writes, pairs, empty cells *)

Lemma undos_app l1 l2 : undos (l1 ++ l2) = undos l1 + undos l2.
Proof. unfold undos. by rewrite List.filter_app, length_app. Qed.

Lemma paired_app l1 l2 : paired l1 = true -> paired (l1 ++ l2) = paired l2.
Proof.
  remember (length l1) as n eqn:Hn. revert l1 Hn.
  induction n as [n IH] using lt_wf_ind. intros l1 Hn.
  destruct l1 as [|[r c v|k] [|[r' c' v'|k'] rest]]; simpl; try done.
  intros H. apply (IH (length rest)); [simpl in Hn; lia|done|done].
Qed.

Lemma filter_length_flip {A} (P Q : A -> Prop)
    `{!forall x, Decision (P x)} `{!forall x, Decision (Q x)} (l : list A) x :
  NoDup l -> x ∈ l -> P x -> ~ Q x ->
  (forall y, y ∈ l -> y <> x -> (P y <-> Q y)) ->
  length (filter P l) = S (length (filter Q l)).
Proof.
  intros Hnd Hx HP HQ. induction Hnd as [|y l Hy Hnd IH]; intros Hpq.
  - by apply elem_of_nil in Hx.
  - rewrite !filter_cons. apply elem_of_cons in Hx as [->|Hx].
    + rewrite decide_True, decide_False by done. simpl. f_equal. f_equal.
      apply filter_ext_elem. intros z Hz. apply Hpq; [by right|].
      intros ->. done.
    + assert (Hne : y <> x) by (intros ->; done).
      assert (Hy' : P y <-> Q y) by (apply Hpq; [by left|done]).
      specialize (IH Hx ltac:(intros z Hz; apply Hpq; by right)).
      destruct (decide (P y)), (decide (Q y)); simpl; try tauto; by rewrite IH.
Qed.

Section Counting.

Variable size : nat.

(** A digit placed on an empty cell leaves one empty cell less. *)
Lemma emptyCount_place (b : Board) row col num :
  wf size b -> row < size -> col < size ->
  cell b row col = 0%Z -> num <> 0%Z ->
  emptyCount size b = S (emptyCount size (setCell b row col num)).
Proof.
  intros Hwf Hr Hc Hz Hnum. unfold emptyCount.
  apply (filter_length_flip _ _ _ (row, col)).
  - apply allCells_NoDup.
  - by apply allCells_elem.
  - done.
  - simpl. by rewrite (cell_setCell_eq size).
  - intros [r c] _ Hne. simpl. by rewrite cell_setCell_ne.
Qed.

Lemma emptyCount_full (b : Board) : full size b -> emptyCount size b = 0.
Proof.
  intros Hfull. unfold emptyCount. rewrite filter_none; [done|].
  intros [r c] [Hr Hc]%allCells_elem. by apply Hfull.
Qed.

Lemma emptyCount_zero (b : Board) : emptyCount size b = 0 -> full size b.
Proof.
  unfold emptyCount. intros H r c Hr Hc Hz.
  apply length_zero_iff_nil in H.
  assert (Hin : (r, c) ∈ filter (fun rc => cell b (fst rc) (snd rc) = 0%Z) (allCells size)).
  { apply list_elem_of_filter. split; [done|]. by apply allCells_elem. }
  rewrite H in Hin. by apply elem_of_nil in Hin.
Qed.

End Counting.

(** ** The recursion of [solveBoard] is as deep as the grid has empty cells *)

Section SearchDepth.

Variables size boxSize : nat.

Lemma placeDigits_total rec row col nums (b : Board) :
  (forall b0 r b', rec b0 = Some (r, b') -> frame_post size b0 r b') ->
  cell b row col = 0%Z ->
  (forall num, In num nums -> is_Some (rec (setCell b row col num))) ->
  is_Some (placeDigits size boxSize rec row col nums b).
Proof.
  intros Hfr Hz. induction nums as [|num rest IH]; intros Hrec; simpl; [done|].
  assert (Hrest : is_Some (placeDigits size boxSize rec row col rest b))
    by (apply IH; intros n Hn; apply Hrec; by right).
  destruct (isValidPlacement size boxSize b row col num); [|done].
  destruct (Hrec num ltac:(by left)) as [[[] b1] E]; rewrite E; [done|].
  apply Hfr in E as [Hsame _]. by rewrite (Hsame eq_refl), setCell_undo.
Qed.

Lemma solveBoard_depth n :
  forall b : Board,
    wf size b -> emptyCount size b <= n ->
    is_Some (solveBoard size boxSize (S n) b).
Proof.
  induction n as [|n IH]; intros b Hwf Hn; simpl.
  - rewrite findEmptyCell_full; [done|]. apply emptyCount_zero. lia.
  - destruct (findEmptyCell size b) as [[row col]|] eqn:E; [|done].
    apply findEmptyCell_Some in E as (Hr & Hc & Hz).
    apply placeDigits_total; [apply (solveBoard_frame size boxSize (S n))|done|].
    intros num Hnum%digits_range. apply IH; [by apply wf_setCell|].
    pose proof (emptyCount_place size b row col num Hwf Hr Hc Hz ltac:(lia)). lia.
Qed.

End SearchDepth.

(** ** The log of a pass: pairs of write and display, balanced against
    the empty cells *)

Section SearchTrace.

Variables size boxSize : nat.

Lemma trace_post_refl s : trace_post size s s.
Proof.
  exists []. rewrite app_nil_r. split; [done|]. split; [done|]. split; [done|].
  done.
Qed.

Lemma trace_post_tick s s' : trace_post size (tick s) s' -> trace_post size s s'.
Proof. done. Qed.

Lemma placements_pair r c v n :
  v <> 0%Z -> placements [Write r c v; Display n] = 1 /\ undos [Write r c v; Display n] = 0.
Proof.
  intros Hv%Z.eqb_neq. unfold placements, undos. simpl. by rewrite Hv.
Qed.

Lemma tryDigits_trace rec row col nums :
  (forall s r s', wf size (board s) -> rec s = Some (r, s') ->
                  frame_post size (board s) r (board s') /\ trace_post size s s') ->
  row < size -> col < size ->
  (forall num, In num nums -> (1 <= num <= Z.of_nat size)%Z) ->
  forall s r s',
    wf size (board s) -> cell (board s) row col = 0%Z ->
    tryDigits size boxSize rec row col nums s = Some (r, s') ->
    trace_post size s s'.
Proof.
  intros Hrec Hr Hc. induction nums as [|num rest IH];
    intros Hnums s r s' Hwf Hz; simpl.
  - intros [= <- <-]. apply trace_post_refl.
  - assert (Hrest : forall n, In n rest -> (1 <= n <= Z.of_nat size)%Z)
      by (intros n Hn; apply Hnums; by right).
    assert (Hnum : (1 <= num <= Z.of_nat size)%Z) by (apply Hnums; by left).
    destruct (isValidPlacement size boxSize (board s) row col num); [|by apply IH].
    pose proof (emptyCount_place size (board s) row col num Hwf Hr Hc Hz ltac:(lia))
      as Hcount.
    destruct (placements_pair row col num (steps s) ltac:(lia)) as [Hp1 Hu1].
    destruct (rec _) as [[[] s1]|] eqn:E; [| |done];
      apply Hrec in E as [Hfr (new1 & Hlog1 & Hpair1 & Hin1 & Hbal1)];
      try (by apply wf_setCell); simpl in *.
    + intros [= <- <-]. exists ([Write row col num; Display (steps s)] ++ new1).
      rewrite Hlog1, <- !app_assoc. split; [done|]. split; [done|]. split.
      * apply Forall_app. split; [|done]. repeat constructor; lia.
      * rewrite placements_app, undos_app, Hp1, Hu1. lia.
    + destruct Hfr as [Hsame _]. specialize (Hsame eq_refl).
      intros H. apply IH in H; simpl; rewrite ?Hsame, ?setCell_undo; try done.
      destruct H as (new2 & Hlog2 & Hpair2 & Hin2 & Hbal2). simpl in *.
      rewrite Hsame, setCell_undo in Hbal2 by done. rewrite Hsame in Hbal1.
      exists ([Write row col num; Display (steps s)] ++ new1
                ++ [Write row col 0%Z; Display (steps s1)] ++ new2).
      rewrite Hlog2, Hlog1, <- !app_assoc. split; [done|]. split; [|split].
      * simpl. rewrite paired_app by done. done.
      * rewrite !Forall_app. split; [repeat constructor; lia|].
        split; [done|]. split; [repeat constructor; lia|done].
      * rewrite !placements_app, !undos_app, Hp1, Hu1.
        change (placements [Write row col 0%Z; Display (steps s1)]) with 0.
        change (undos [Write row col 0%Z; Display (steps s1)]) with 1.
        lia.
Qed.

Lemma backtrack_trace fuel :
  forall row col s r s',
    0 < size -> walkPos size row col -> wf size (board s) ->
    backtrack size boxSize fuel row col s = Some (r, s') ->
    trace_post size s s'.
Proof.
  unfold walkPos.
  induction fuel as [|fuel IH]; intros row col s r s' Hpos Hw Hwf; simpl; [done|].
  destruct (Nat.eqb_spec col size) as [->|Hcs].
  { intros H. apply trace_post_tick. apply IH in H; [done|done|lia|done]. }
  destruct (Nat.eqb_spec row size) as [->|Hrs].
  { intros [= <- <-]. apply trace_post_tick, trace_post_refl. }
  assert (Hr : row < size) by lia. assert (Hc : col < size) by lia.
  destruct (Z.eqb_spec (cell (board s) row col) 0) as [Hz|Hnz]; simpl.
  - intros Hbt. apply trace_post_tick. apply tryDigits_trace in Hbt; try done.
    + intros s1 r1 s1' Hwf1 H1. split; [by eapply backtrack_frame|].
      apply (IH row (col + 1) s1 r1 s1'); [done|lia|done|done].
    + intros num. apply digits_range.
  - intros Hbt. apply trace_post_tick. apply IH in Hbt; [done|done|lia|done].
Qed.

End SearchTrace.

(** ** Erasing cells *)

Section Erase.

Variables size boxSize : nat.

Lemma validPartial_erase (b b' : Board) :
  validPartial size boxSize b ->
  (forall r c, cell b' r c = 0%Z \/ cell b' r c = cell b r c) ->
  validPartial size boxSize b'.
Proof.
  intros [Hrange Hdiff] Her. split.
  - intros r c Hr Hc. destruct (Her r c) as [->| ->]; [lia|by apply Hrange].
  - intros r c r' c' Hr Hc Hr' Hc' Hp Hnz.
    destruct (Her r c) as [|E]; [done|]. rewrite E in *.
    destruct (Her r' c') as [->| ->]; [done|]. by apply Hdiff.
Qed.

End Erase.

Section RemovalErases.

Variable G : Type.
Variable shuffle : forall A : Type, list A -> G -> list A * G.
Hypothesis shuffle_perm : forall A (l : list A) g, fst (shuffle A l g) ≡ₚ l.

Variable size : nat.

Lemma removeDigits_erases (d : spec_float) (b b' : Board) (g g' : G) :
  wf size b ->
  removeDigits G shuffle size d (b, g) = Some (b', g') ->
  wf size b' /\
  (forall r c, cell b' r c = 0%Z \/ cell b' r c = cell b r c) /\
  g' = snd (shuffle (nat * nat)%type (allCells size) g).
Proof.
  intros Hwf. unfold removeDigits.
  destruct (cellsToRemove size d) as [n|]; [|done]. simpl.
  pose proof (shuffle_perm _ (allCells size) g) as Hperm.
  destruct (shuffle (nat * nat)%type (allCells size) g) as [cells g1]. simpl in *.
  intros [= <- <-].
  set (l := take _ cells).
  destruct (zeroed_cells size l b Hwf) as [Hwf' Hcells].
  { intros rc Hrc. rewrite <- Hperm. eapply elem_of_take in Hrc as (i & Hi & _).
    by eapply list_elem_of_lookup_2. }
  split; [done|]. split; [|done].
  intros r c. rewrite Hcells. destruct (decide _); auto.
Qed.

End RemovalErases.

(** ** The default strategy and the private search *)

Lemma defaultStrategy_runs size boxSize (s : Run) :
  0 < size -> wf size (board s) ->
  exists r s1,
    backtrack size boxSize (callsFrom size 0 0) 0 0 s = Some (r, s1) /\
    defaultStrategy size boxSize s = Some (r, if r then display s1 else s1) /\
    solveBoard size boxSize (S (size * size)) (board s) = Some (r, board s1).
Proof.
  intros Hpos Hwf.
  destruct (backtrack_total size boxSize (callsFrom size 0 0) 0 0 s Hpos)
    as [[r s1] Hrun]; [left; lia|done|].
  exists r, s1. split; [done|]. split.
  - unfold defaultStrategy, bruteForceSolver. rewrite Hrun. by destruct r.
  - apply (backtrack_solveBoard size boxSize (callsFrom size 0 0) 0 0 s r s1);
      try done.
    + left. lia.
    + intros i j _ _ Hlt. lia.
    + unfold cellsFrom. lia.
Qed.

(** A pass of [bruteForceSolver] that returns is a run of [solveBoard] on
    the same grid. *)
Lemma bruteForceSolver_solveBoard size boxSize fuel (s : Run) r s' :
  wf size (board s) ->
  bruteForceSolver size boxSize fuel s = Some (r, s') ->
  0 < size /\
  exists s1,
    backtrack size boxSize fuel 0 0 s = Some (r, s1) /\
    s' = (if r then display s1 else s1) /\
    solveBoard size boxSize (S (size * size)) (board s) = Some (r, board s').
Proof.
  intros Hwf Hrun.
  apply bruteForceSolver_inv in Hrun as (s1 & Hrun & ->).
  destruct (decide (size = 0)) as [->|Hpos].
  { by rewrite backtrack_size0 in Hrun. }
  split; [lia|]. exists s1. split; [done|]. split; [done|].
  replace (board (if r then display s1 else s1)) with (board s1) by (by destruct r).
  apply (backtrack_solveBoard size boxSize fuel 0 0 s r s1); try done.
  - lia.
  - left. lia.
  - intros i j _ _ Hlt. lia.
  - unfold cellsFrom. lia.
Qed.

(** ** Seeding, box by box *)

Section SeedingBoxes.

Variable G : Type.
Variable shuffle : forall A : Type, list A -> G -> list A * G.
Hypothesis shuffle_perm : forall A (l : list A) g, fst (shuffle A l g) ≡ₚ l.

Variables size boxSize : nat.
Hypothesis Hsquare : boxSize * boxSize = size.

Lemma fillDiagonalBoxes_seededUpTo (g : G) :
  exists seeded g',
    fillDiagonalBoxes G shuffle size boxSize (createEmptyBoard size, g)
    = Some (seeded, g') /\
    seededUpTo size boxSize size seeded.
Proof.
  unfold fillDiagonalBoxes.
  replace ((boxSize =? 0) && (0 <? size)) with false.
  2:{ symmetry. apply andb_false_iff.
      destruct (Nat.eqb_spec boxSize 0) as [E|]; [|by left].
      right. apply Nat.ltb_ge. nia. }
  unfold diagonalStarts. rewrite fold_left_filter.
  pose proof (fold_seq_inv (fun i (bg : Board * G) => seededUpTo size boxSize i (fst bg))
                (fun bg i => if i mod boxSize =? 0
                             then fillBox G shuffle size boxSize i i bg else bg)
                size 0 (createEmptyBoard size, g)) as Hfold.
  simpl in Hfold.
  destruct (fold_left _ (seq 0 size) _) as [seeded g'] eqn:E.
  exists seeded, g'. split; [done|].
  apply Hfold.
  - split; [apply createEmptyBoard_wf|]. split; [|split].
    + intros. apply createEmptyBoard_cell.
    + intros. lia.
    + intros. lia.
  - intros i [b gi] Hi Hinv. simpl in Hinv.
    destruct (Nat.eqb_spec (i mod boxSize) 0) as [Hm|Hm].
    + assert (exists q, q < boxSize /\ i = q * boxSize) as (q & Hq & ->).
      { assert (0 < boxSize) by nia.
        pose proof (Nat.div_mod_eq i boxSize) as Hdm.
        exists (i / boxSize). split; [|lia].
        apply Nat.Div0.div_lt_upper_bound. lia. }
      by apply fillBox_seeds.
    + by apply seededUpTo_skip.
Qed.

Lemma seededUpTo_box (b : Board) q :
  seededUpTo size boxSize size b -> q < boxSize ->
  exactlyOnce size (boxOf boxSize b q q).
Proof.
  intros (Hwf & _ & Hrange & Hdiff) Hq.
  assert (Hin : forall r c, (r, c) ∈ boxCells boxSize q q ->
            r < size /\ c < size /\ r / boxSize = q /\ c / boxSize = q).
  { intros r c [H1 H2]%boxCells_elem.
    split; [nia|]. split; [nia|].
    split; symmetry;
      [apply (Nat.div_unique r boxSize q (r - boxSize * q))
      |apply (Nat.div_unique c boxSize q (c - boxSize * q))]; lia. }
  apply exactlyOnce_of_NoDup; [by apply boxOf_length| |].
  - unfold boxOf. apply NoDup_fmap_2_strong.
    + intros [r c] [r' c'] Hp Hp' Heq. simpl in Heq.
      apply Hin in Hp as (Hr & Hc & Hrq & Hcq).
      apply Hin in Hp' as (Hr' & Hc' & Hrq' & Hcq').
      destruct (decide ((r, c) = (r', c'))) as [|Hne]; [done|]. exfalso.
      apply (Hdiff r c r' c'); try done; try congruence.
      rewrite Hrq. nia.
    + apply NoDup_list_prod; apply NoDup_seq.
  - intros x Hx. unfold boxOf in Hx.
    apply list_elem_of_In, in_map_iff in Hx as ([r c] & <- & Hp). simpl.
    apply list_elem_of_In, Hin in Hp as (Hr & Hc & Hrq & Hcq).
    apply Hrange; [done|done|congruence|]. rewrite Hrq. nia.
Qed.

End SeedingBoxes.

(** ** The generated puzzle *)

Section PuzzleFacts.

Variable G : Type.
Variable shuffle : forall A : Type, list A -> G -> list A * G.
Hypothesis shuffle_perm : forall A (l : list A) g, fst (shuffle A l g) ≡ₚ l.

Lemma Sudoku_new_puzzle boardSize strategy seed :
  Nat.sqrt boardSize * Nat.sqrt boardSize = boardSize ->
  (Z.of_nat (boardSize * boardSize) < 2 ^ 31)%Z ->
  exists s,
    Sudoku_new G shuffle boardSize strategy seed = Some s /\
    size s = boardSize /\ boxSize s = Nat.sqrt boardSize /\ solver s = strategy /\
    steps (state s) = 0%Z /\ log (state s) = [] /\
    wf boardSize (board (state s)) /\ wf boardSize (solution s) /\
    validPartial boardSize (Nat.sqrt boardSize) (solution s) /\
    validPartial boardSize (Nat.sqrt boardSize) (board (state s)) /\
    (forall r c, cell (board (state s)) r c = 0%Z \/
                 cell (board (state s)) r c = cell (solution s) r c) /\
    (full boardSize (solution s) ->
     emptyCount boardSize (board (state s))
     = Z.to_nat (Z.min (floorDouble (doubleMul (doubleOfInt (Z.of_nat (boardSize * boardSize)))
                                               DEFAULT_DIFFICULTY))
                       (Z.of_nat (boardSize * boardSize)))).
Proof.
  intros Hsq Hfit.
  destruct (fillDiagonalBoxes_seeds G shuffle shuffle_perm boardSize
              (Nat.sqrt boardSize) Hsq seed) as (seeded & g & Hseed & Hwf & Hvp).
  destruct (solveBoard_total boardSize (Nat.sqrt boardSize) seeded Hwf)
    as [[r solvedBoard] Hsolve].
  pose proof (solveBoard_frame _ _ _ _ _ _ Hsolve) as (Hsame & _ & Hwf').
  specialize (Hwf' Hwf).
  assert (Hvp' : validPartial boardSize (Nat.sqrt boardSize) solvedBoard).
  { destruct r; [|by rewrite (Hsame eq_refl)].
    by destruct (solveBoard_sound boardSize (Nat.sqrt boardSize) Hsq _ seeded
                   solvedBoard Hwf Hvp Hsolve). }
  destruct (cellsToRemove_unit boardSize DEFAULT_DIFFICULTY Hfit) as [Hn _];
    [reflexivity..|].
  unfold Sudoku_new, generatePuzzle.
  cbn [size boxSize state solution solver rng board steps log].
  rewrite Hseed, Hsolve.
  destruct (removeDigits G shuffle boardSize DEFAULT_DIFFICULTY (solvedBoard, g))
    as [[puzzle g2]|] eqn:Hrem.
  2:{ unfold removeDigits in Hrem. rewrite Hn in Hrem. simpl in Hrem.
      by destruct (shuffle (nat * nat)%type (allCells boardSize) g). }
  pose proof (removeDigits_erases G shuffle shuffle_perm _ _ _ _ _ _ Hwf' Hrem)
    as (Hwfp & Her & _).
  eexists. split; [done|]. cbn [size boxSize state solution solver rng board steps log].
  repeat (split; [done|]). split; [|split; [done|]].
  - by apply (validPartial_erase _ _ solvedBoard).
  - intros Hfull.
    destruct (removeDigits_count G shuffle shuffle_perm boardSize DEFAULT_DIFFICULTY
                solvedBoard g _ Hwf' Hfull Hn) as (b' & g' & Hrem' & Hcount).
    rewrite Hrem in Hrem'. by injection Hrem' as <- <-.
Qed.

End PuzzleFacts.

(** ** [solve] with the default strategy *)

Lemma solve_default (G : Type) (s : Sudoku G) :
  solver s = Some defaultStrategy ->
  boxSize s * boxSize s = size s -> 0 < size s ->
  wf (size s) (board (state s)) ->
  exists r s',
    solve G s = Some (Returned r, s') /\
    solution s' = solution s /\
    (r = true -> full (size s) (board (state s')) /\
                 extends (size s) (board (state s)) (board (state s'))) /\
    (r = true -> validPartial (size s) (boxSize s) (board (state s)) ->
                 solved (size s) (boxSize s) (board (state s'))) /\
    (r = false ->
     board (state s') = board (state s) /\
     forall t, wf (size s) t -> solved (size s) (boxSize s) t ->
               ~ extends (size s) (board (state s)) t) /\
    (forall t, complete (size s) (boxSize s) t ->
               extends (size s) (board (state s)) t ->
               r = true /\ lexLe (size s) (board (state s')) t).
Proof.
  intros Hsolver Hsq Hpos Hwf.
  destruct (defaultStrategy_runs (size s) (boxSize s) (display (state s)) Hpos Hwf)
    as (r & s1 & Hbt & Hrun & Hsolve).
  pose proof (solveBoard_frame _ _ _ _ _ _ Hsolve) as (Hsame & Hkeep & _).
  change (board (display (state s))) with (board (state s)) in *.
  exists r. eexists. split.
  { unfold solve. rewrite Hsolver, Hrun. done. }
  cbn [size boxSize state solution solver rng].
  replace (board (if r then display s1 else s1)) with (board s1) by (by destruct r).
  split; [done|]. split; [|split; [|split]].
  - intros ->. split; [by eapply solveBoard_full|].
    intros i j _ _. apply Hkeep.
  - intros -> Hvp.
    by apply (solveBoard_sound_solved (size s) (boxSize s) Hsq
                (S (size s * size s)) (board (state s))).
  - intros ->. split; [by apply Hsame|].
    intros t Hwft Hsolved Hext.
    apply (solved_iff (size s) (boxSize s) Hsq t Hwft) in Hsolved.
    by pose proof (solveBoard_complete (size s) (boxSize s) Hsq _ t Hsolved
                     (board (state s)) false (board s1) Hwf Hext Hsolve).
  - intros t Ht Hext.
    by apply (solveBoard_least (size s) (boxSize s) Hsq
                (S (size s * size s)) t Ht (board (state s)) r (board s1) Hwf).
Qed.

(** ** A grid that a solved grid extends is a valid partial state *)

Lemma extends_validPartial size boxSize (b t : Board) :
  complete size boxSize t -> extends size b t -> validPartial size boxSize b.
Proof.
  intros [[Hrange Hclash] _] Hext. split.
  - intros r c Hr Hc. destruct (decide (cell b r c = 0%Z)) as [->|Hnz]; [lia|].
    rewrite <- (Hext r c Hr Hc Hnz). by apply Hrange.
  - intros r c r' c' Hr Hc Hr' Hc' Hp Hnz.
    destruct (decide (cell b r' c' = 0%Z)) as [->|Hnz']; [done|].
    rewrite <- (Hext r c Hr Hc Hnz), <- (Hext r' c' Hr' Hc' Hnz').
    apply Hclash; try done. by rewrite (Hext r c Hr Hc Hnz).
Qed.

(** ** Checkers and examples *)

Lemma extendsb_true size (b t : Board) :
  extendsb size b t = true -> extends size b t.
Proof.
  unfold extendsb. rewrite forallb_forall. intros H r c Hr Hc Hnz.
  specialize (H (r, c) ltac:(apply list_elem_of_In, allCells_elem; lia)).
  simpl in H. apply orb_true_iff in H as [H|H].
  - by apply Z.eqb_eq in H.
  - by apply Z.eqb_eq in H.
Qed.

Lemma solved4_solved : solved 4 2 solved4.
Proof.
  apply (solved_iff 4 2 eq_refl solved4 wf_solved4). split.
  - apply validPartialb_true. reflexivity.
  - apply findEmptyCell_None. reflexivity.
Qed.

Lemma wf_stuck4 : wf 4 stuck4.
Proof. split; [done|]. repeat constructor. Qed.

Lemma wf_clash4 : wf 4 clash4.
Proof. split; [done|]. repeat constructor. Qed.

(** ** The cost of a pass in calls *)

Section SearchCost.

Variables size boxSize : nat.

Lemma tryDigits_cost rec row col nums (k K : Z) :
  (0 <= k <= K)%Z ->
  (forall s r s', rec s = Some (r, s') -> cost_post k K s s') ->
  (forall num, In num nums -> num <> 0%Z) ->
  forall s r s',
    tryDigits size boxSize rec row col nums s = Some (r, s') ->
    cost_post 0 K s s'.
Proof.
  intros Hk Hrec. induction nums as [|num rest IH]; intros Hnums s r s'; simpl.
  - intros [= <- <-]. exists []. rewrite app_nil_r. split; [done|].
    change (placements []) with 0. lia.
  - assert (Hrest : forall n, In n rest -> n <> 0%Z)
      by (intros n Hn; apply Hnums; by right).
    assert (Hnum : num <> 0%Z) by (apply Hnums; by left).
    destruct (isValidPlacement size boxSize (board s) row col num); [|by apply IH].
    destruct (placements_pair row col num (steps s) Hnum) as [Hp1 _].
    destruct (rec _) as [[[] s1]|] eqn:E; [| |done];
      apply Hrec in E as (new1 & Hlog1 & Hst1); simpl in *.
    + intros [= <- <-]. exists ([Write row col num; Display (steps s)] ++ new1).
      rewrite Hlog1, <- !app_assoc. split; [done|].
      rewrite placements_app, Hp1. lia.
    + intros H. apply IH in H as (new2 & Hlog2 & Hst2); [|done]. simpl in *.
      exists ([Write row col num; Display (steps s)] ++ new1
                ++ [Write row col 0%Z; Display (steps s1)] ++ new2).
      rewrite Hlog2, Hlog1, <- !app_assoc. split; [done|].
      rewrite !placements_app, Hp1.
      change (placements [Write row col 0%Z; Display (steps s1)]) with 0.
      lia.
Qed.

Lemma backtrack_cost fuel :
  forall row col s r s',
    0 < size -> walkPos size row col ->
    backtrack size boxSize fuel row col s = Some (r, s') ->
    cost_post (Z.of_nat (callsFrom size row col)) (Z.of_nat (callsFrom size 0 0)) s s'.
Proof.
  unfold walkPos, callsFrom.
  induction fuel as [|fuel IH]; intros row col s r s' Hpos Hw; simpl; [done|].
  destruct (Nat.eqb_spec col size) as [->|Hcs].
  { intros H. apply IH in H as (new & Hlog & Hst); [|done|lia]. simpl in *.
    exists new. split; [done|].
    assert (row * S size + S size <= size * S size) by nia. lia. }
  destruct (Nat.eqb_spec row size) as [->|Hrs].
  { intros [= <- <-]. exists []. simpl. rewrite app_nil_r. split; [done|].
    change (placements []) with 0. lia. }
  assert (Hr : row < size) by lia. assert (Hc : col < size) by lia.
  assert (Hle : row * S size + S size <= size * S size) by nia.
  destruct (Z.eqb_spec (cell (board s) row col) 0) as [Hz|Hnz]; simpl.
  - intros Hbt.
    apply (tryDigits_cost _ _ _ _
             (Z.of_nat (S (size * S size - (row * S size + (col + 1)))))
             (Z.of_nat (S (size * S size - (0 * S size + 0))))) in Hbt.
    + destruct Hbt as (new & Hlog & Hst). simpl in *.
      exists new. split; [done|]. lia.
    + lia.
    + intros s1 r1 s1' H1. apply IH in H1; [done|done|lia].
    + intros num Hnum%digits_range. lia.
  - intros Hbt. apply IH in Hbt as (new & Hlog & Hst); [|done|lia]. simpl in *.
    exists new. split; [done|]. lia.
Qed.

End SearchCost.

Lemma swapShuffle_perm A (l : list A) g : fst (swapShuffle A l g) ≡ₚ l.
Proof.
  unfold swapShuffle. simpl.
  destruct g as [|[|g]]; [done| |done].
  destruct l as [|a [|b [|c [|d [|e l]]]]]; try done.
  apply perm_skip, perm_swap.
Qed.

(** ** The text of the display *)

(** *** Strings *)

Lemma append_nil_r (s : string) : (s ++ "")%string = s.
Proof. induction s as [|a s IH]; simpl; [done|]. by rewrite IH. Qed.

Lemma append_assoc (s1 s2 s3 : string) :
  ((s1 ++ s2) ++ s3)%string = (s1 ++ (s2 ++ s3))%string.
Proof. induction s1 as [|a s1 IH]; simpl; [done|]. by rewrite IH. Qed.

Lemma append_inv_head (s x y : string) : (s ++ x)%string = (s ++ y)%string -> x = y.
Proof. induction s as [|a s IH]; simpl; [done|]. intros [= H]. by apply IH. Qed.

Lemma length_append (s1 s2 : string) :
  String.length (s1 ++ s2) = String.length s1 + String.length s2.
Proof. induction s1 as [|a s1 IH]; simpl; [done|]. by rewrite IH. Qed.

Lemma length_fill n c : String.length (fill n c) = n.
Proof. unfold fill. induction n as [|n IH]; simpl; [done|]. by rewrite IH. Qed.

(** Two strings that are cut at the first occurrence of [c] are cut at
    the same place. *)
Lemma append_cut (c : ascii) (s1 s2 t1 t2 : string) :
  absent c s1 -> absent c s2 ->
  (s1 ++ String c t1)%string = (s2 ++ String c t2)%string ->
  s1 = s2 /\ t1 = t2.
Proof.
  revert s2. induction s1 as [|a s1 IH]; intros [|a' s2]; simpl.
  - by intros _ _ [= ->].
  - intros _ [Hne _] [= E _]. by destruct Hne.
  - intros [Hne _] _ [= E _]. by destruct Hne.
  - intros [_ H1] [_ H2] [= -> E]. destruct (IH s2 H1 H2 E) as [-> ->]. done.
Qed.

Lemma allChars_absent (P : ascii -> Prop) c s : ~ P c -> allChars P s -> absent c s.
Proof.
  intros Hc. induction s as [|a s IH]; simpl; [done|].
  intros [Ha Hs]. split; [by intros ->|by apply IH].
Qed.

(** *** [to_string] *)

Lemma string_of_uint_chars d : allChars numeralChar (NilEmpty.string_of_uint d).
Proof.
  induction d; simpl; try done; (split; [right; vm_compute; lia|done]).
Qed.

Lemma to_string_chars z : allChars numeralChar (to_string z).
Proof.
  unfold to_string. destruct z as [|p|p]; simpl.
  - split; [right; vm_compute; lia|done].
  - pose proof (DecimalPos.Unsigned.to_uint_nonnil p) as Hn.
    unfold NilZero.string_of_uint. destruct (Pos.to_uint p) eqn:E; try done;
      rewrite <- E; apply string_of_uint_chars.
  - split; [by left|].
    pose proof (DecimalPos.Unsigned.to_uint_nonnil p) as Hn.
    unfold NilZero.string_of_uint. destruct (Pos.to_uint p) eqn:E; try done;
      rewrite <- E; apply string_of_uint_chars.
Qed.

Lemma to_string_inj z z' : to_string z = to_string z' -> z = z'.
Proof.
  unfold to_string. intros H. apply DecimalZ.to_int_inj.
  assert (Hnn : forall n, Z.to_int n <> Decimal.Pos Decimal.Nil /\
                          Z.to_int n <> Decimal.Neg Decimal.Nil).
  { intros [|p|p]; simpl; split; try done; intros [= E];
      by apply (DecimalPos.Unsigned.to_uint_nonnil p). }
  apply (f_equal NilZero.int_of_string) in H.
  rewrite !NilZero.isi in H by apply Hnn. by injection H.
Qed.

Lemma to_string_absent c z : ~ numeralChar c -> absent c (to_string z).
Proof. intros Hc. eapply allChars_absent; [exact Hc|apply to_string_chars]. Qed.

Lemma ESC_not_numeral : ~ numeralChar ESC.
Proof. intros [H|H]; [discriminate|vm_compute in H; lia]. Qed.

Lemma LF_not_numeral : ~ numeralChar LF.
Proof. intros [H|H]; [discriminate|vm_compute in H; lia]. Qed.

Lemma fold_left_append {A} (step : string -> A -> string) (f : A -> string) l :
  (forall acc x, step acc x = (acc ++ f x)%string) ->
  forall acc, fold_left step l acc = (acc ++ joined f l)%string.
Proof.
  intros Hstep. induction l as [|x l IH]; intros acc; simpl.
  - by rewrite append_nil_r.
  - by rewrite IH, Hstep, append_assoc.
Qed.

Lemma joined_ext {A} (f g : A -> string) l :
  (forall x, In x l -> f x = g x) -> joined f l = joined g l.
Proof.
  induction l as [|x l IH]; intros H; simpl; [done|].
  rewrite H by (by left). rewrite IH; [done|]. intros y Hy. apply H. by right.
Qed.

Lemma createRowString_joined size boxSize (b : Board) row :
  createRowString size boxSize b row
  = ("  " ++ joined (colText boxSize b row) (seq 0 size) ++ "|")%string.
Proof.
  unfold createRowString.
  rewrite (fold_left_append _ (colText boxSize b row)).
  - by rewrite append_assoc.
  - intros acc col. unfold colText, cellText.
    destruct (col mod boxSize =? 0), (cell b row col =? 0)%Z;
      by rewrite ?append_assoc.
Qed.

Lemma displayBoard_joined size boxSize (s : Run) :
  displayBoard size boxSize s
  = (String LF "  SUDOKU SOLVER v1.0  |  Steps: " ++ to_string (steps s)
       ++ String LF (String LF
            (joined (rowText size boxSize (board s)) (seq 0 size)
               ++ createHorizontalLine boxSize ++ String LF (String LF ""))))%string.
Proof.
  unfold displayBoard.
  rewrite (fold_left_append _ (rowText size boxSize (board s))).
  - rewrite !append_assoc. reflexivity.
  - intros acc i. unfold rowText.
    destruct (i mod boxSize =? 0); by rewrite ?append_assoc.
Qed.

(** *** The text determines the cells *)

Lemma cellText_cut v v' (x x' : string) :
  (cellText v ++ x)%string = (cellText v' ++ x')%string -> v = v' /\ x = x'.
Proof.
  unfold cellText.
  destruct (Z.eqb_spec v 0) as [->|Hv], (Z.eqb_spec v' 0) as [->|Hv']; simpl.
  - by intros [= ->].
  - by intros [=].
  - by intros [=].
  - intros [= E]. rewrite !append_assoc in E. simpl in E.
    apply append_cut in E as [E1 [= E2]];
      [|by apply to_string_absent, ESC_not_numeral..].
    split; [by apply to_string_inj|done].
Qed.

Lemma joined_cols_cut boxSize (b b' : Board) row cols (x x' : string) :
  (joined (colText boxSize b row) cols ++ x)%string
  = (joined (colText boxSize b' row) cols ++ x')%string ->
  (forall c, In c cols -> cell b row c = cell b' row c) /\ x = x'.
Proof.
  induction cols as [|c cols IH]; simpl.
  - intros ->. split; [|done]. by intros c [].
  - unfold colText at 1 3. rewrite !append_assoc. intros E.
    apply append_inv_head, cellText_cut in E as [Ec E].
    apply IH in E as [Hcols ->]. split; [|done].
    intros c' [<-|Hc']; [done|by apply Hcols].
Qed.

Lemma createRowString_cut size boxSize (b b' : Board) row (x x' : string) :
  (createRowString size boxSize b row ++ x)%string
  = (createRowString size boxSize b' row ++ x')%string ->
  (forall c, c < size -> cell b row c = cell b' row c) /\ x = x'.
Proof.
  rewrite !createRowString_joined, !append_assoc. intros E.
  apply append_inv_head in E. rewrite <- !append_assoc in E.
  rewrite !(append_assoc _ "|") in E.
  apply joined_cols_cut in E as [Hcols [= ->]]. split; [|done].
  intros c Hc. apply Hcols, in_seq. lia.
Qed.

Lemma joined_rows_cut size boxSize (b b' : Board) rows (x x' : string) :
  (joined (rowText size boxSize b) rows ++ x)%string
  = (joined (rowText size boxSize b') rows ++ x')%string ->
  (forall r c, In r rows -> c < size -> cell b r c = cell b' r c) /\ x = x'.
Proof.
  induction rows as [|r rows IH]; simpl.
  - intros ->. split; [|done]. by intros r c [].
  - unfold rowText at 1 3. rewrite !append_assoc. intros E.
    apply append_inv_head, createRowString_cut in E as [Hr [= E]].
    apply IH in E as [Hrows ->]. split; [|done].
    intros r' c [<-|Hr'] Hc; [by apply Hr|by apply Hrows].
Qed.

Lemma wf_cells_eq size (b b' : Board) :
  wf size b -> wf size b' ->
  (forall r c, r < size -> c < size -> cell b r c = cell b' r c) -> b = b'.
Proof.
  intros [Hlen Hrows] [Hlen' Hrows'] Hcells.
  apply (list_eq_same_length _ _ size); [done..|].
  intros r rw rw' Hr Hrw Hrw'.
  rewrite Forall_lookup in Hrows, Hrows'.
  pose proof (Hrows _ _ Hrw) as Hl. pose proof (Hrows' _ _ Hrw') as Hl'.
  apply (list_eq_same_length _ _ size); [done..|].
  intros c v v' Hc Hv Hv'.
  specialize (Hcells r c Hr Hc). unfold cell in Hcells.
  by rewrite Hrw, Hrw', Hv, Hv' in Hcells.
Qed.

(** *** The horizontal line *)

Lemma concat_repeat_joined (d : string) k a :
  String.concat "+" (repeat d (S k))
  = (d ++ joined (fun _ : nat => ("+" ++ d)%string) (seq a k))%string.
Proof.
  revert a. induction k as [|k IH]; intros a.
  - simpl. by rewrite append_nil_r.
  - change (String.concat "+" (repeat d (S (S k))))
      with (d ++ "+" ++ String.concat "+" (repeat d (S k)))%string.
    rewrite (IH (S a)). simpl. by rewrite ?append_assoc.
Qed.

Lemma length_joined_const {A} (d : string) (l : list A) :
  String.length (joined (fun _ => d) l) = length l * String.length d.
Proof.
  induction l as [|x l IH]; simpl; [done|]. by rewrite length_append, IH.
Qed.

(** ** The properties *)

(** X1. On a well-formed grid [findEmptyCell] answers with the first
    empty cell in the order of the rows, and within a row of the columns:
    the cell is inside the grid, it holds 0, and every cell before it is
    filled. It answers [nullopt] exactly when the grid has no empty
    cell. *)
Theorem findEmptyCell_first_empty size (b : Board) :
  wf size b ->
  (findEmptyCell size b = None <-> full size b) /\
  (forall row col,
      findEmptyCell size b = Some (row, col) <->
      row < size /\ col < size /\ cell b row col = 0%Z /\
      filledBefore size b row col).
Proof.
  intros _. split.
  - split; [apply findEmptyCell_None|apply findEmptyCell_full].
  - intros row col. split.
    + intros E. pose proof (find_cells_first size _ _ _ _ _ E) as Hfirst.
      apply findEmptyCell_Some in E as (Hr & Hc & Hz).
      repeat (split; [done|]).
      intros i j Hi Hj Hij. specialize (Hfirst i j ltac:(lia) Hj Hij).
      simpl in Hfirst. by apply Z.eqb_neq in Hfirst.
    + intros (Hr & Hc & Hz & Hbefore). by apply findEmptyCell_first.
Qed.

Lemma findEmptyCell_first_empty_witness :
  findEmptyCell 4 seeded4 = Some (0, 2) /\
  filledBefore 4 seeded4 0 2.
Proof.
  pose proof (findEmptyCell_first_empty 4 seeded4 wf_seeded4) as [_ H].
  split; [reflexivity|].
  apply (proj1 (H 0 2)). reflexivity.
Defined.

(** X2. On a valid partial state of a square dimension, for an empty cell
    and a digit of [1, size], [isValidPlacement] is true exactly when the
    grid with the digit written into the cell is again a valid partial
    state. *)
Theorem isValidPlacement_keeps_valid size boxSize (b : Board) row col num :
  boxSize * boxSize = size -> wf size b -> validPartial size boxSize b ->
  row < size -> col < size -> cell b row col = 0%Z ->
  (1 <= num <= Z.of_nat size)%Z ->
  isValidPlacement size boxSize b row col num = true <->
  validPartial size boxSize (setCell b row col num).
Proof.
  intros Hsq Hwf Hvp Hr Hc Hz Hnum. split.
  - intros Hok. by apply validPartial_place.
  - intros [_ Hdiff].
    apply (isValidPlacement_peers size boxSize Hsq); [done..|lia|].
    intros r c Hr' Hc' Hp Heq.
    assert (Hne : (r, c) <> (row, col)) by (destruct Hp as [Hp _]; congruence).
    apply (Hdiff row col r c); [done..| |].
    + rewrite (cell_setCell_eq size) by done. lia.
    + rewrite (cell_setCell_eq size), cell_setCell_ne by done. done.
Qed.

Lemma isValidPlacement_keeps_valid_witness :
  isValidPlacement 4 2 seeded4 0 2 4%Z = true <->
  validPartial 4 2 (setCell seeded4 0 2 4%Z).
Proof.
  apply (isValidPlacement_keeps_valid 4 2 seeded4 0 2 4%Z).
  - reflexivity.
  - exact wf_seeded4.
  - apply validPartialb_true. reflexivity.
  - lia.
  - lia.
  - reflexivity.
  - lia.
Defined.

(** X3. With [std::shuffle] a permutation and a square dimension,
    [fillDiagonalBoxes] run on the empty grid returns a grid in which
    each of the [boxSize] boxes on the diagonal holds every digit of
    [1, size] exactly once and every cell outside those boxes is still
    empty; the grid is a valid partial state. *)
Theorem fillDiagonalBoxes_fills_the_diagonal (G : Type)
    (shuffle : forall A : Type, list A -> G -> list A * G) size boxSize (g : G) :
  (forall A (l : list A) g, fst (shuffle A l g) ≡ₚ l) ->
  boxSize * boxSize = size ->
  exists seeded g',
    fillDiagonalBoxes G shuffle size boxSize (createEmptyBoard size, g)
    = Some (seeded, g') /\
    wf size seeded /\
    (forall q, q < boxSize -> exactlyOnce size (boxOf boxSize seeded q q)) /\
    (forall r c, r < size -> c < size -> r / boxSize <> c / boxSize ->
                 cell seeded r c = 0%Z) /\
    validPartial size boxSize seeded.
Proof.
  intros Hperm Hsq.
  destruct (fillDiagonalBoxes_seededUpTo G shuffle Hperm size boxSize Hsq g)
    as (seeded & g' & Hrun & Hseeded).
  exists seeded, g'. split; [done|]. split; [by destruct Hseeded|].
  split; [|split].
  - intros q Hq. by apply seededUpTo_box.
  - intros r c Hr Hc Hne. destruct Hseeded as (_ & Hzero & _).
    apply Hzero; [done..|]. by intros [? _].
  - by apply (seededUpTo_validPartial size boxSize Hsq).
Qed.

Lemma fillDiagonalBoxes_fills_the_diagonal_witness :
  exists seeded g',
    fillDiagonalBoxes nat revShuffle 4 2 (createEmptyBoard 4, 0) = Some (seeded, g') /\
    wf 4 seeded /\
    (forall q, q < 2 -> exactlyOnce 4 (boxOf 2 seeded q q)) /\
    (forall r c, r < 4 -> c < 4 -> r / 2 <> c / 2 -> cell seeded r c = 0%Z) /\
    validPartial 4 2 seeded.
Proof.
  apply (fillDiagonalBoxes_fills_the_diagonal nat revShuffle 4 2 0).
  - exact revShuffle_perm.
  - reflexivity.
Defined.

(** X4. [solveBoard] terminates on every well-formed grid: its recursion
    is at most one call deeper than the grid has empty cells, so any fuel
    above that number gives the same result; the fuel of [size * size + 1]
    that stands for the unbounded recursion of the source is always
    enough. *)
Theorem solveBoard_terminates size boxSize (b : Board) :
  wf size b ->
  emptyCount size b <= size * size /\
  exists r b',
    forall fuel, emptyCount size b < fuel ->
                 solveBoard size boxSize fuel b = Some (r, b').
Proof.
  intros Hwf. split.
  - unfold emptyCount. rewrite <- (allCells_length size). apply length_filter.
  - destruct (solveBoard_depth size boxSize (emptyCount size b) b Hwf ltac:(lia))
      as [[r b'] Hrun].
    exists r, b'. intros fuel Hfuel.
    apply (solveBoard_mono size boxSize (S (emptyCount size b))); [lia|done].
Qed.

Lemma solveBoard_terminates_witness :
  emptyCount 4 seeded4 <= 4 * 4 /\
  exists r b',
    forall fuel, emptyCount 4 seeded4 < fuel ->
                 solveBoard 4 2 fuel seeded4 = Some (r, b').
Proof.
  apply (solveBoard_terminates 4 2 seeded4). exact wf_seeded4.
Defined.

(** X5. If [solveBoard] reports failure on a well-formed grid of a square
    dimension, it hands the grid back exactly as it was given, and no
    solved grid keeps the filled cells of that grid: the failure says
    that the grid has no completion. *)
Theorem solveBoard_failure_means_no_completion size boxSize fuel (b b' : Board) :
  boxSize * boxSize = size -> wf size b ->
  solveBoard size boxSize fuel b = Some (false, b') ->
  b' = b /\
  forall t, wf size t -> solved size boxSize t -> ~ extends size b t.
Proof.
  intros Hsq Hwf Hrun. split.
  - apply solveBoard_frame in Hrun as [Hsame _]. by apply Hsame.
  - intros t Hwft Hsolved Hext.
    apply (solved_iff size boxSize Hsq t Hwft) in Hsolved.
    by pose proof (solveBoard_complete size boxSize Hsq _ t Hsolved
                     b false b' Hwf Hext Hrun).
Qed.

Lemma solveBoard_failure_means_no_completion_witness :
  solveBoard 4 2 17 stuck4 = Some (false, stuck4) /\
  forall t, wf 4 t -> solved 4 2 t -> ~ extends 4 stuck4 t.
Proof.
  split; [vm_compute; reflexivity|].
  apply (solveBoard_failure_means_no_completion 4 2 17 stuck4 stuck4).
  - reflexivity.
  - exact wf_stuck4.
  - vm_compute. reflexivity.
Defined.

(** X6. Whatever the given cells of a well-formed grid of a square
    dimension, a pass of [bruteForceSolver] that returns true leaves a
    grid without an empty cell, in which the given cells are kept and
    every cell that was empty holds a digit of [1, size]; and the solver
    has added no clash: two cells of a row, column or box that hold the
    same digit at the end were both filled, with that digit, at the
    start. *)
Theorem success_fills_and_adds_no_clash size boxSize fuel (s s' : Run) :
  boxSize * boxSize = size -> wf size (board s) ->
  bruteForceSolver size boxSize fuel s = Some (true, s') ->
  full size (board s') /\
  extends size (board s) (board s') /\
  (forall r c, r < size -> c < size -> cell (board s) r c = 0%Z ->
               (1 <= cell (board s') r c <= Z.of_nat size)%Z) /\
  clashesWithin size boxSize (board s) (board s').
Proof.
  intros Hsq Hwf Hrun.
  apply bruteForceSolver_solveBoard in Hrun as (_ & _ & _ & _ & Hsolve); [|done].
  split; [by eapply solveBoard_full|]. split; [|split].
  - apply solveBoard_frame in Hsolve as (_ & Hkeep & _).
    intros r c _ _. apply Hkeep.
  - by eapply solveBoard_range.
  - by eapply (solveBoard_clashes size boxSize Hsq).
Qed.

Lemma success_fills_and_adds_no_clash_witness :
  exists s',
    bruteForceSolver 4 2 21 (mkRun clash4 0 []) = Some (true, s') /\
    full 4 (board s') /\
    extends 4 clash4 (board s') /\
    (forall r c, r < 4 -> c < 4 -> cell clash4 r c = 0%Z ->
                 (1 <= cell (board s') r c <= 4)%Z) /\
    clashesWithin 4 2 clash4 (board s').
Proof.
  assert (Hrun : exists s', bruteForceSolver 4 2 21 (mkRun clash4 0 []) = Some (true, s'))
    by (eexists; vm_compute; reflexivity).
  destruct Hrun as [s' Hrun]. exists s'. split; [exact Hrun|].
  exact (success_fills_and_adds_no_clash 4 2 21 (mkRun clash4 0 []) s'
           eq_refl wf_clash4 Hrun).
Defined.

(** X7. On a well-formed grid of a square dimension [size > 0] that has
    a completion, [bruteForceSolver] returns true: the fuel of one walk is
    enough and more fuel gives the same result. The grid it leaves is a
    completion, solved and keeping the given cells, and it is the first
    in the order of the search: compared with any solved grid that keeps
    the given cells, it is the same, or holds the smaller digit at the
    first cell, row by row, where the two differ. *)
Theorem solver_finds_the_first_completion size boxSize (s : Run) (t : Board) :
  boxSize * boxSize = size -> 0 < size -> wf size (board s) ->
  wf size t -> solved size boxSize t -> extends size (board s) t ->
  exists s',
    (forall fuel, callsFrom size 0 0 <= fuel ->
                  bruteForceSolver size boxSize fuel s = Some (true, s')) /\
    solved size boxSize (board s') /\
    extends size (board s) (board s') /\
    forall t', wf size t' -> solved size boxSize t' -> extends size (board s) t' ->
               lexLe size (board s') t'.
Proof.
  intros Hsq Hpos Hwf Hwft Hsolved Hext.
  destruct (defaultStrategy_runs size boxSize s Hpos Hwf)
    as (r & s1 & Hrun & _ & Hsolve).
  apply (solved_iff size boxSize Hsq t Hwft) in Hsolved.
  destruct (solveBoard_least size boxSize Hsq _ t Hsolved _ _ _ Hwf Hext Hsolve)
    as [-> _].
  exists (display s1). split; [|split; [|split]].
  - intros fuel Hfuel. unfold bruteForceSolver.
    by rewrite (backtrack_mono size boxSize _ fuel 0 0 s (true, s1) Hfuel Hrun).
  - apply (solveBoard_sound_solved size boxSize Hsq (S (size * size)) (board s));
      try done.
    by apply (extends_validPartial size boxSize _ t).
  - apply solveBoard_frame in Hsolve as (_ & Hkeep & _).
    intros i j _ _. apply Hkeep.
  - intros t' Hwft' Hsolved' Hext'.
    apply (solved_iff size boxSize Hsq t' Hwft') in Hsolved'.
    by destruct (solveBoard_least size boxSize Hsq _ t' Hsolved' _ _ _ Hwf Hext' Hsolve).
Qed.

Lemma solver_finds_the_first_completion_witness :
  exists s',
    (forall fuel, 21 <= fuel ->
                  bruteForceSolver 4 2 fuel (mkRun seeded4 0 []) = Some (true, s')) /\
    solved 4 2 (board s') /\
    extends 4 seeded4 (board s') /\
    forall t', wf 4 t' -> solved 4 2 t' -> extends 4 seeded4 t' ->
               lexLe 4 (board s') t'.
Proof.
  apply (solver_finds_the_first_completion 4 2 (mkRun seeded4 0 []) solved4).
  - reflexivity.
  - lia.
  - exact wf_seeded4.
  - exact wf_solved4.
  - exact solved4_solved.
  - apply extendsb_true. reflexivity.
Defined.

(** X8. With [std::shuffle] a permutation, [removeDigits] only erases:
    on a well-formed grid every cell of the result is 0 or holds what it
    held before, so the grid it was given keeps every filled cell of the
    result and a valid partial state stays one; the grid keeps its
    shape, and the engine has been used for exactly one shuffle of the
    cell list. *)
Theorem removeDigits_only_erases (G : Type)
    (shuffle : forall A : Type, list A -> G -> list A * G)
    size boxSize (d : spec_float) (b b' : Board) (g g' : G) :
  (forall A (l : list A) g, fst (shuffle A l g) ≡ₚ l) ->
  wf size b ->
  removeDigits G shuffle size d (b, g) = Some (b', g') ->
  wf size b' /\
  (forall r c, cell b' r c = 0%Z \/ cell b' r c = cell b r c) /\
  extends size b' b /\
  (validPartial size boxSize b -> validPartial size boxSize b') /\
  g' = snd (shuffle (nat * nat)%type (allCells size) g).
Proof.
  intros Hperm Hwf Hrun.
  destruct (removeDigits_erases G shuffle Hperm size d b b' g g' Hwf Hrun)
    as (Hwf' & Her & Hg).
  split; [done|]. split; [done|]. split; [|split; [|done]].
  - intros r c _ _ Hnz. destruct (Her r c); [done|congruence].
  - intros Hvp. by apply (validPartial_erase size boxSize b).
Qed.

Lemma removeDigits_only_erases_witness :
  exists b',
    removeDigits nat revShuffle 4 DEFAULT_DIFFICULTY (solved4, 0) = Some (b', 1) /\
    wf 4 b' /\
    (forall r c, cell b' r c = 0%Z \/ cell b' r c = cell solved4 r c) /\
    extends 4 b' solved4 /\
    (validPartial 4 2 solved4 -> validPartial 4 2 b') /\
    1 = snd (revShuffle (nat * nat)%type (allCells 4) 0).
Proof.
  assert (Hrun : exists b',
             removeDigits nat revShuffle 4 DEFAULT_DIFFICULTY (solved4, 0) = Some (b', 1))
    by (eexists; vm_compute; reflexivity).
  destruct Hrun as [b' Hrun]. exists b'. split; [exact Hrun|].
  exact (removeDigits_only_erases nat revShuffle 4 2 DEFAULT_DIFFICULTY solved4 b' 0 1
           revShuffle_perm wf_solved4 Hrun).
Defined.

(** X9. With [std::shuffle] a permutation, construction of a session of a
    square dimension whose square fits an [int] returns, with the step
    counter at 0 and nothing displayed. The puzzle it leaves in the grid
    is a valid partial state and is the stored Solution with cells
    erased: every filled cell of the puzzle holds the digit the Solution
    holds there. If the generation-time search succeeded (the Solution
    has no empty cell), the Solution is solved and the number of empty
    cells of the puzzle is [min(floor(size * size * 0.7), size * size)];
    for the dimension 9 that is 56, so 25 cells are given. *)
Theorem generated_puzzle_agrees_with_solution (G : Type)
    (shuffle : forall A : Type, list A -> G -> list A * G)
    boardSize strategy (seed : G) :
  (forall A (l : list A) g, fst (shuffle A l g) ≡ₚ l) ->
  Nat.sqrt boardSize * Nat.sqrt boardSize = boardSize ->
  (Z.of_nat (boardSize * boardSize) < 2 ^ 31)%Z ->
  exists s,
    Sudoku_new G shuffle boardSize strategy seed = Some s /\
    size s = boardSize /\ boxSize s = Nat.sqrt boardSize /\
    steps (state s) = 0%Z /\ log (state s) = [] /\
    wf boardSize (board (state s)) /\ wf boardSize (solution s) /\
    validPartial boardSize (Nat.sqrt boardSize) (board (state s)) /\
    extends boardSize (board (state s)) (solution s) /\
    (full boardSize (solution s) ->
     solved boardSize (Nat.sqrt boardSize) (solution s) /\
     emptyCount boardSize (board (state s))
     = Z.to_nat (Z.min (floorDouble (doubleMul (doubleOfInt (Z.of_nat (boardSize * boardSize)))
                                               DEFAULT_DIFFICULTY))
                       (Z.of_nat (boardSize * boardSize))) /\
     (boardSize = 9 -> emptyCount boardSize (board (state s)) = 56)).
Proof.
  intros Hperm Hsq Hfit.
  destruct (Sudoku_new_puzzle G shuffle Hperm boardSize strategy seed Hsq Hfit)
    as (s & Hnew & Hsize & Hbox & _ & Hsteps & Hlog & Hwf & Hwfs & Hvps & Hvp & Her
        & Hcount).
  exists s. repeat (split; [done|]). split.
  - intros r c _ _ Hnz. destruct (Her r c); [done|congruence].
  - intros Hfull. split; [|split].
    + by apply (solved_iff boardSize (Nat.sqrt boardSize) Hsq).
    + by apply Hcount.
    + intros ->. rewrite (Hcount Hfull). reflexivity.
Qed.

Lemma generated_puzzle_agrees_with_solution_witness :
  exists s,
    Sudoku_new nat revShuffle 4 None 0 = Some s /\
    size s = 4 /\ boxSize s = Nat.sqrt 4 /\
    steps (state s) = 0%Z /\ log (state s) = [] /\
    wf 4 (board (state s)) /\ wf 4 (solution s) /\
    validPartial 4 (Nat.sqrt 4) (board (state s)) /\
    extends 4 (board (state s)) (solution s) /\
    (full 4 (solution s) ->
     solved 4 (Nat.sqrt 4) (solution s) /\
     emptyCount 4 (board (state s))
     = Z.to_nat (Z.min (floorDouble (doubleMul (doubleOfInt (Z.of_nat (4 * 4)))
                                               DEFAULT_DIFFICULTY))
                       (Z.of_nat (4 * 4))) /\
     (4 = 9 -> emptyCount 4 (board (state s)) = 56)).
Proof.
  apply (generated_puzzle_agrees_with_solution nat revShuffle 4 None 0).
  - exact revShuffle_perm.
  - reflexivity.
  - vm_compute. reflexivity.
Defined.

(** X10. [generatePuzzle] does not look at the boolean of [solveBoard].
    With [std::shuffle] a permutation, for a square dimension whose square
    fits an [int], the stored Solution is what the search left of the
    seeded grid: a solved grid when the search succeeded; otherwise the
    seeded grid itself, which then has no completion, and no error is
    raised. The second case does occur: for the dimension 4, with a
    shuffle (a permutation) that deals the first box 1 2 / 3 4 and the
    second 1 3 / 2 4, no digit fits the end of row 0, and the session is
    constructed with a Solution that has eight empty cells. *)
Theorem generatePuzzle_ignores_a_failed_search :
  (forall (G : Type) (shuffle : forall A : Type, list A -> G -> list A * G)
          boardSize strategy (seed : G),
      (forall A (l : list A) g, fst (shuffle A l g) ≡ₚ l) ->
      Nat.sqrt boardSize * Nat.sqrt boardSize = boardSize ->
      (Z.of_nat (boardSize * boardSize) < 2 ^ 31)%Z ->
      exists s seeded g,
        Sudoku_new G shuffle boardSize strategy seed = Some s /\
        fillDiagonalBoxes G shuffle boardSize (Nat.sqrt boardSize)
          (createEmptyBoard boardSize, seed) = Some (seeded, g) /\
        (solved boardSize (Nat.sqrt boardSize) (solution s) \/
         (solution s = seeded /\
          forall t, wf boardSize t -> solved boardSize (Nat.sqrt boardSize) t ->
                    ~ extends boardSize seeded t))) /\
  ((forall A (l : list A) g, fst (swapShuffle A l g) ≡ₚ l) /\
   exists s,
     Sudoku_new nat swapShuffle 4 (Some defaultStrategy) 0 = Some s /\
     solution s = [[1; 2; 0; 0]; [3; 4; 0; 0]; [0; 0; 1; 3]; [0; 0; 2; 4]]%Z /\
     emptyCount 4 (solution s) = 8 /\
     ~ solved 4 2 (solution s)).
Proof.
  split.
  - intros G shuffle boardSize strategy seed Hperm Hsq Hfit.
    destruct (Sudoku_new_generates G shuffle Hperm boardSize strategy seed Hsq Hfit)
      as (s & seeded & g & r & Hnew & Hseed & Hsolve & Hsolved).
    exists s, seeded, g. split; [done|]. split; [done|].
    destruct r; [left; by apply Hsolved|right].
    destruct (fillDiagonalBoxes_seeds G shuffle Hperm boardSize (Nat.sqrt boardSize)
                Hsq seed) as (seeded' & g' & Hseed' & Hwf & _).
    rewrite Hseed in Hseed'. injection Hseed' as <- <-.
    pose proof (solveBoard_frame _ _ _ _ _ _ Hsolve) as (Hsame & _).
    split; [by apply Hsame|].
    intros t Hwft Ht Hext.
    apply (solved_iff boardSize (Nat.sqrt boardSize) Hsq t Hwft) in Ht.
    by pose proof (solveBoard_complete boardSize (Nat.sqrt boardSize) Hsq _ t Ht
                     seeded false (solution s) Hwf Hext Hsolve).
  - split; [exact swapShuffle_perm|].
    eexists. split; [vm_compute; reflexivity|].
    split; [reflexivity|]. split; [reflexivity|].
    intros (Hrows & _). specialize (Hrows 0 ltac:(lia) 3%Z ltac:(lia)).
    vm_compute in Hrows. discriminate.
Qed.

(** X11. With [std::shuffle] a permutation, for a session of a square
    dimension [size > 0] built with the default strategy, [solve]
    returns - it does not throw and the search terminates - and leaves
    the Solution untouched. If it returns true the grid is solved and
    keeps the given cells of the puzzle; if it returns false the grid is
    the puzzle again and the puzzle has no completion. If the
    generation-time search had succeeded, [solve] returns true, and the
    grid it leaves is the stored Solution or precedes it in the order of
    the search. *)
Theorem solve_decides_the_generated_puzzle (G : Type)
    (shuffle : forall A : Type, list A -> G -> list A * G) boardSize (seed : G) :
  (forall A (l : list A) g, fst (shuffle A l g) ≡ₚ l) ->
  Nat.sqrt boardSize * Nat.sqrt boardSize = boardSize ->
  (Z.of_nat (boardSize * boardSize) < 2 ^ 31)%Z -> 0 < boardSize ->
  exists s r s',
    Sudoku_new G shuffle boardSize (Some defaultStrategy) seed = Some s /\
    solve G s = Some (Returned r, s') /\
    solution s' = solution s /\
    (r = true ->
     solved boardSize (Nat.sqrt boardSize) (board (state s')) /\
     extends boardSize (board (state s)) (board (state s'))) /\
    (r = false ->
     board (state s') = board (state s) /\
     forall t, wf boardSize t -> solved boardSize (Nat.sqrt boardSize) t ->
               ~ extends boardSize (board (state s)) t) /\
    (full boardSize (solution s) ->
     r = true /\ lexLe boardSize (board (state s')) (solution s)).
Proof.
  intros Hperm Hsq Hfit Hpos.
  destruct (Sudoku_new_puzzle G shuffle Hperm boardSize (Some defaultStrategy) seed
              Hsq Hfit)
    as (s & Hnew & Hsize & Hbox & Hsolver & _ & _ & Hwf & _ & Hvps & Hvp & Her & _).
  destruct (solve_default G s Hsolver) as
    (r & s' & Hrun & Hsol & Hfull & Htrue & Hfalse & Hleast);
    rewrite ?Hsize, ?Hbox in *; try done.
  exists s, r, s'. split; [done|]. split; [done|]. split; [done|].
  split; [|split; [done|]].
  - intros Hr. split; [by apply Htrue|]. by destruct (Hfull Hr).
  - intros Hfs. apply Hleast; [by split|].
    intros i j _ _ Hnz. destruct (Her i j); [done|congruence].
Qed.

Lemma solve_decides_the_generated_puzzle_witness :
  exists s r s',
    Sudoku_new nat revShuffle 4 (Some defaultStrategy) 0 = Some s /\
    solve nat s = Some (Returned r, s') /\
    solution s' = solution s /\
    (r = true ->
     solved 4 (Nat.sqrt 4) (board (state s')) /\
     extends 4 (board (state s)) (board (state s'))) /\
    (r = false ->
     board (state s') = board (state s) /\
     forall t, wf 4 t -> solved 4 (Nat.sqrt 4) t ->
               ~ extends 4 (board (state s)) t) /\
    (full 4 (solution s) ->
     r = true /\ lexLe 4 (board (state s')) (solution s)).
Proof.
  apply (solve_decides_the_generated_puzzle nat revShuffle 4 0).
  - exact revShuffle_perm.
  - reflexivity.
  - vm_compute. reflexivity.
  - lia.
Defined.

(** X12. [solve] does not reset the step counter, and a second call on
    a session that the default strategy has solved changes no cell: it
    shows the grid, walks over it without a single write, shows it
    again and returns true, with the counter moved on from where the
    first call left it by the [size * (size + 1) + 1] calls of one
    walk. *)
Theorem second_solve_only_counts (G : Type) (s s1 : Sudoku G) :
  solver s = Some defaultStrategy ->
  wf (size s) (board (state s)) ->
  solve G s = Some (Returned true, s1) ->
  let n := (steps (state s1) + Z.of_nat (size s * (size s + 1) + 1))%Z in
  solve G s1
  = Some (Returned true,
          mkSudoku (size s) (boxSize s)
            (mkRun (board (state s1)) n
               (log (state s1) ++ [Display (steps (state s1)); Display n]))
            (solution s) (solver s) (rng s)).
Proof.
  intros Hsolver Hwf Hrun n. unfold solve in Hrun. rewrite Hsolver in Hrun.
  destruct (defaultStrategy _ _ _) as [[r st]|] eqn:E; [|done].
  injection Hrun as -> <-.
  unfold defaultStrategy in E.
  apply bruteForceSolver_solveBoard in E as (Hpos & _ & _ & _ & Hsolve); [|done].
  apply solveBoard_full in Hsolve.
  unfold solve. cbn [size boxSize state solution solver rng] in *.
  rewrite Hsolver. unfold defaultStrategy, bruteForceSolver.
  rewrite (backtrack_full (size s) (boxSize s) _ 0 0 (display st) Hpos);
    [|left; lia|done|done].
  unfold display. cbn [board steps log]. unfold callsFrom.
  replace (S (size s * S (size s) - (0 * S (size s) + 0)))
    with (size s * (size s + 1) + 1) by lia.
  fold n. by rewrite <- app_assoc.
Qed.

Lemma second_solve_only_counts_witness :
  exists s1 s2,
    solve nat (mkSudoku 4 2 (mkRun seeded4 0 []) [] (Some defaultStrategy) 0)
    = Some (Returned true, s1) /\
    solve nat s1 = Some (Returned true, s2) /\
    board (state s2) = board (state s1) /\
    steps (state s1) = 21%Z /\ steps (state s2) = 42%Z.
Proof.
  assert (Hrun : exists s1,
             solve nat (mkSudoku 4 2 (mkRun seeded4 0 []) [] (Some defaultStrategy) 0)
             = Some (Returned true, s1) /\ steps (state s1) = 21%Z).
  { eexists. split; [vm_compute; reflexivity|reflexivity]. }
  destruct Hrun as (s1 & Hrun & Hsteps).
  pose proof (second_solve_only_counts nat
                (mkSudoku 4 2 (mkRun seeded4 0 []) [] (Some defaultStrategy) 0) s1
                eq_refl wf_seeded4 Hrun) as H2.
  eexists s1, _. split; [exact Hrun|]. split; [exact H2|].
  split; [reflexivity|]. split; [exact Hsteps|].
  cbn [state steps size]. rewrite Hsteps. reflexivity.
Defined.

(** X13. A session of dimension 0 is constructed without complaint, with
    an empty grid, and the default strategy never returns on it: with
    no column to visit, the test [col == size] holds at every call of
    [backtrack], which calls itself for the next row without end. *)
Theorem dimension_zero_never_solves (G : Type)
    (shuffle : forall A : Type, list A -> G -> list A * G) :
  (forall strategy seed,
      exists g, Sudoku_new G shuffle 0 strategy seed
                = Some (mkSudoku 0 0 (mkRun [] 0 []) [] strategy g)) /\
  (forall boxSize fuel s, bruteForceSolver 0 boxSize fuel s = None).
Proof.
  split.
  - intros strategy seed. unfold Sudoku_new, generatePuzzle.
    cbn [size boxSize state solution solver rng board steps log].
    change (Nat.sqrt 0) with 0.
    change (fillDiagonalBoxes G shuffle 0 0 (createEmptyBoard 0, seed))
      with (Some (@nil (list Z), seed)).
    change (solveBoard 0 0 (S (0 * 0)) []) with (Some (true, @nil (list Z))).
    unfold removeDigits.
    change (cellsToRemove 0 DEFAULT_DIFFICULTY) with (Some 0%Z).
    cbn [fst snd].
    destruct (shuffle (nat * nat)%type (allCells 0) seed) as [cells g].
    exists g. replace (Z.to_nat (Z.min 0 (Z.of_nat (length cells)))) with 0 by lia.
    done.
  - intros boxSize fuel s. unfold bruteForceSolver.
    by rewrite backtrack_size0.
Qed.

(** X14. In a pass of [bruteForceSolver] on a well-formed grid every
    change of the grid is shown at once: what the pass adds to the log
    is a run of pairs, a write and then a display, followed on success
    by the closing display of the final count. Every write is to a cell
    inside the grid and stores a value of [0, size]. *)
Theorem every_write_is_displayed size boxSize fuel (s s' : Run) r :
  wf size (board s) ->
  bruteForceSolver size boxSize fuel s = Some (r, s') ->
  exists new,
    log s' = log s ++ new ++ (if r then [Display (steps s')] else []) /\
    paired new = true /\
    Forall (inGrid size) new.
Proof.
  intros Hwf Hrun.
  apply bruteForceSolver_solveBoard in Hrun as (Hpos & s1 & Hrun & -> & _); [|done].
  apply backtrack_trace in Hrun as (new & Hlog & Hpair & Hin & _);
    [|done|left; lia|done].
  exists new. split; [|by split].
  destruct r; simpl; rewrite Hlog; [by rewrite <- app_assoc|by rewrite app_nil_r].
Qed.

Lemma every_write_is_displayed_witness :
  exists s' new,
    bruteForceSolver 4 2 21 (mkRun seeded4 0 []) = Some (true, s') /\
    log s' = [] ++ new ++ [Display (steps s')] /\
    paired new = true /\
    Forall (inGrid 4) new.
Proof.
  assert (Hrun : exists s', bruteForceSolver 4 2 21 (mkRun seeded4 0 []) = Some (true, s'))
    by (eexists; vm_compute; reflexivity).
  destruct Hrun as [s' Hrun].
  destruct (every_write_is_displayed 4 2 21 (mkRun seeded4 0 []) s' true
              wf_seeded4 Hrun) as (new & H).
  exists s', new. split; [exact Hrun|exact H].
Defined.

(** X15. In a pass of [bruteForceSolver] on a well-formed grid the
    placements and the undo writes balance against the empty cells: a
    pass that fails has undone every digit it placed, and a pass that
    succeeds has made as many placements as undo writes plus one for each
    cell that was empty at entry. *)
Theorem placements_balance_undos size boxSize fuel (s s' : Run) r :
  wf size (board s) ->
  bruteForceSolver size boxSize fuel s = Some (r, s') ->
  exists new,
    log s' = log s ++ new /\
    placements new = undos new + (if r then emptyCount size (board s) else 0).
Proof.
  intros Hwf Hrun.
  apply bruteForceSolver_solveBoard in Hrun as (Hpos & s1 & Hrun & -> & Hsolve);
    [|done].
  pose proof (backtrack_frame _ _ _ _ _ _ _ _ Hrun) as (Hsame & _).
  apply backtrack_trace in Hrun as (new & Hlog & _ & _ & Hbal);
    [|done|left; lia|done].
  destruct r.
  - apply solveBoard_full in Hsolve. simpl in Hsolve.
    rewrite (emptyCount_full size _ Hsolve) in Hbal.
    exists (new ++ [Display (steps s1)]). simpl.
    rewrite Hlog, app_assoc, placements_app, undos_app.
    change (placements [Display (steps s1)]) with 0.
    change (undos [Display (steps s1)]) with 0.
    split; [done|]. lia.
  - rewrite (Hsame eq_refl) in Hbal. exists new. split; [done|]. lia.
Qed.

Lemma placements_balance_undos_witness :
  exists s' new,
    bruteForceSolver 4 2 21 (mkRun seeded4 0 []) = Some (true, s') /\
    log s' = [] ++ new /\
    placements new = undos new + emptyCount 4 seeded4.
Proof.
  assert (Hrun : exists s', bruteForceSolver 4 2 21 (mkRun seeded4 0 []) = Some (true, s'))
    by (eexists; vm_compute; reflexivity).
  destruct Hrun as [s' Hrun].
  destruct (placements_balance_undos 4 2 21 (mkRun seeded4 0 []) s' true
              wf_seeded4 Hrun) as (new & H).
  exists s', new. split; [exact Hrun|exact H].
Defined.

(** X16. The step counter is bracketed by the placements: after a pass
    of [bruteForceSolver] it exceeds its starting value by at least one
    more than the number of placements, and by at most
    [size * (size + 1) + 1], the calls of one walk over the grid, for
    the first call and for each placement. *)
Theorem steps_bracketed_by_placements size boxSize fuel (s s' : Run) r :
  bruteForceSolver size boxSize fuel s = Some (r, s') ->
  exists new,
    log s' = log s ++ new /\
    (steps s + 1 + Z.of_nat (placements new) <= steps s')%Z /\
    (steps s' <= steps s
                 + (Z.of_nat (placements new) + 1) * Z.of_nat (size * (size + 1) + 1))%Z.
Proof.
  intros (s1 & Hrun & ->)%bruteForceSolver_inv.
  destruct (decide (size = 0)) as [->|Hpos].
  { by rewrite backtrack_size0 in Hrun. }
  pose proof (backtrack_log _ _ _ _ _ _ _ _ Hrun) as (new & Hlog & Hlow & _).
  apply backtrack_cost in Hrun as (new' & Hlog' & Hup); [|lia|left; lia].
  assert (new' = new) as ->.
  { rewrite Hlog in Hlog'. by apply app_inv_head in Hlog'. }
  assert (HK : callsFrom size 0 0 = size * (size + 1) + 1)
    by (unfold callsFrom; lia).
  rewrite HK in Hup.
  destruct r.
  - exists (new ++ [Display (steps s1)]). simpl.
    rewrite Hlog, app_assoc, placements_app.
    change (placements [Display (steps s1)]) with 0.
    split; [done|]. lia.
  - exists new. split; [done|]. lia.
Qed.

Lemma steps_bracketed_by_placements_witness :
  exists s' new,
    bruteForceSolver 4 2 21 (mkRun seeded4 0 []) = Some (true, s') /\
    log s' = [] ++ new /\
    (0 + 1 + Z.of_nat (placements new) <= steps s')%Z /\
    (steps s' <= 0 + (Z.of_nat (placements new) + 1) * Z.of_nat (4 * (4 + 1) + 1))%Z.
Proof.
  assert (Hrun : exists s', bruteForceSolver 4 2 21 (mkRun seeded4 0 []) = Some (true, s'))
    by (eexists; vm_compute; reflexivity).
  destruct Hrun as [s' Hrun].
  destruct (steps_bracketed_by_placements 4 2 21 (mkRun seeded4 0 []) s' true Hrun)
    as (new & H).
  exists s', new. split; [exact Hrun|exact H].
Defined.

(** X17. With [std::shuffle] a permutation, [main] terminates and never
    ends in the exception of [solve]: the session of dimension 9 is built
    with the default strategy, so [solve] finds a solver and returns. If
    it returns true the grid is a solved 9x9 grid with 3x3 boxes; it
    returns true whenever the generation-time search had succeeded. *)
Theorem main_returns (G : Type)
    (shuffle : forall A : Type, list A -> G -> list A * G) (seed : G) :
  (forall A (l : list A) g, fst (shuffle A l g) ≡ₚ l) ->
  exists r s',
    main G shuffle seed = Some (Returned r, s') /\
    (r = true -> solved 9 3 (board (state s'))) /\
    (full 9 (solution s') -> r = true).
Proof.
  intros Hperm.
  destruct (Sudoku_new_puzzle G shuffle Hperm 9 (Some defaultStrategy) seed eq_refl)
    as (s & Hnew & Hsize & Hbox & Hsolver & _ & _ & Hwf & _ & Hvps & Hvp & Her & _);
    [done|].
  change (Nat.sqrt 9) with 3 in *.
  destruct (solve_default G s Hsolver) as
    (r & s' & Hrun & Hsol & _ & Htrue & _ & Hleast);
    rewrite ?Hsize, ?Hbox in *; try done; [lia|].
  exists r, s'. unfold main. rewrite Hnew. split; [done|]. split.
  - intros Hr. by apply Htrue.
  - rewrite Hsol. intros Hfs.
    destruct (Hleast (solution s)) as [Hr _]; [by split| |done].
    intros i j _ _ Hnz. destruct (Her i j); [done|congruence].
Qed.

Lemma main_returns_witness :
  exists r s',
    main nat revShuffle 0 = Some (Returned r, s') /\
    (r = true -> solved 9 3 (board (state s'))) /\
    (full 9 (solution s') -> r = true).
Proof.
  apply (main_returns nat revShuffle 0). exact revShuffle_perm.
Defined.

(** X18. The horizontal line of the display is two spaces followed by
    [boxSize] runs of [2 * boxSize + 1] dashes that are joined by a plus
    sign; for [boxSize > 0] it is [2 * boxSize * boxSize + 2 * boxSize + 1]
    characters long (25 for the 9x9 grid), and for [boxSize = 0] it is
    the two spaces. *)
Theorem createHorizontalLine_joins_dashes boxSize :
  createHorizontalLine boxSize
  = ("  " ++ String.concat "+" (repeat (fill (boxSize * 2 + 1) "-") boxSize))%string /\
  String.length (createHorizontalLine boxSize)
  = 2 + boxSize * (boxSize * 2 + 1) + (boxSize - 1).
Proof.
  set (d := fill (boxSize * 2 + 1) "-").
  set (piece := fun i : nat => ((if (0 <? i)%nat then "+" else "") ++ d)%string).
  assert (Hfold : createHorizontalLine boxSize
                  = ("  " ++ joined piece (seq 0 boxSize))%string).
  { unfold createHorizontalLine. apply fold_left_append.
    intros acc i. unfold piece. fold d.
    destruct (0 <? i); by rewrite ?append_assoc. }
  assert (Hjoin : joined piece (seq 0 boxSize)
                  = String.concat "+" (repeat d boxSize)).
  { destruct boxSize as [|k]; [done|].
    rewrite (concat_repeat_joined d k 1).
    change (seq 0 (S k)) with (0 :: seq 1 k). cbn [joined].
    change (piece 0) with d. f_equal.
    apply joined_ext. intros i Hi%in_seq. unfold piece.
    destruct (Nat.ltb_spec 0 i); [done|lia]. }
  split; [by rewrite Hfold, Hjoin|].
  rewrite Hfold, Hjoin. destruct boxSize as [|k]; [done|].
  rewrite (concat_repeat_joined d k 0), !length_append, length_joined_const.
  rewrite length_seq, length_append. unfold d. rewrite length_fill. simpl. lia.
Qed.

(** X19. The display loses nothing of the state: for grids of the same
    shape and [boxSize > 0], if [displayBoard] writes the same text for
    two states, then the two states have the same step count and the
    same grid, cell by cell. In particular [createRowString] tells a
    cell that holds a number of several digits from its neighbours. *)
Theorem displayBoard_shows_the_state size boxSize (s1 s2 : Run) :
  0 < boxSize -> wf size (board s1) -> wf size (board s2) ->
  displayBoard size boxSize s1 = displayBoard size boxSize s2 ->
  steps s1 = steps s2 /\ board s1 = board s2.
Proof.
  intros _ Hwf1 Hwf2. rewrite !displayBoard_joined. intros E.
  apply (append_inv_head (String LF "  SUDOKU SOLVER v1.0  |  Steps: ")) in E.
  apply append_cut in E as [E1 [= E2]];
    [|by apply to_string_absent, LF_not_numeral..].
  split; [by apply to_string_inj|].
  apply joined_rows_cut in E2 as [Hcells _].
  apply (wf_cells_eq size); [done..|].
  intros r c Hr Hc. apply Hcells; [|done]. apply in_seq. lia.
Qed.

Lemma displayBoard_shows_the_state_witness :
  steps (mkRun seeded4 7 []) = steps (mkRun seeded4 7 [Display 7]) /\
  board (mkRun seeded4 7 []) = board (mkRun seeded4 7 [Display 7]).
Proof.
  apply (displayBoard_shows_the_state 4 2).
  - lia.
  - exact wf_seeded4.
  - exact wf_seeded4.
  - reflexivity.
Defined.

(** X20. Construction stays inside its vectors exactly when [boxSize]
    divides the dimension. With [std::shuffle] a permutation, for a
    dimension [n > 0] whose square fits an [int] and [boxSize] the
    integer part of its square root: if [n % boxSize = 0], the
    constructor run with every vector index checked meets no index out
    of range and builds the session of the unchecked run; otherwise
    [fillDiagonalBoxes] reaches an index out of range. So the dimensions
    5, 7, 10, ... write outside the grid, while 2, 3, 6 and 8 do not,
    although they are not squares. *)
Theorem construction_in_bounds_iff_boxSize_divides (G : Type)
    (shuffle : forall A : Type, list A -> G -> list A * G)
    boardSize strategy (seed : G) :
  (forall A (l : list A) g, fst (shuffle A l g) ≡ₚ l) ->
  0 < boardSize -> (Z.of_nat (boardSize * boardSize) < 2 ^ 31)%Z ->
  (boardSize mod Nat.sqrt boardSize = 0 ->
   Sudoku_newChecked G shuffle boardSize strategy seed
   = Sudoku_new G shuffle boardSize strategy seed /\
   is_Some (Sudoku_new G shuffle boardSize strategy seed)) /\
  (boardSize mod Nat.sqrt boardSize <> 0 ->
   Sudoku_newChecked G shuffle boardSize strategy seed = None /\
   fillDiagonalBoxesChecked G shuffle boardSize (Nat.sqrt boardSize)
     (createEmptyBoard boardSize, seed) = None).
Proof.
  intros Hperm Hpos Hint.
  assert (Hbox : 0 < Nat.sqrt boardSize).
  { destruct (Nat.sqrt boardSize) eqn:E; [|lia].
    pose proof (Nat.sqrt_spec boardSize ltac:(lia)) as Hs. rewrite E in Hs. lia. }
  assert (Hfit : Nat.sqrt boardSize * Nat.sqrt boardSize <= boardSize).
  { pose proof (Nat.sqrt_spec boardSize ltac:(lia)). lia. }
  pose proof (createEmptyBoard_wf boardSize) as Hwf.
  unfold Sudoku_newChecked, Sudoku_new, generatePuzzleChecked, generatePuzzle.
  cbn [size boxSize state solution solver rng board steps log].
  split.
  - intros Hdiv.
    rewrite (fillDiagonalBoxesChecked_in G shuffle Hperm boardSize _ Hbox Hfit)
      by done.
    unfold fillDiagonalBoxes.
    destruct (Nat.eqb_spec (Nat.sqrt boardSize) 0) as [|_]; [lia|].
    cbn [andb mbind option_bind].
    pose proof (fillBoxes_wf G shuffle boardSize (Nat.sqrt boardSize)
                  (diagonalStarts boardSize (Nat.sqrt boardSize)) _ seed Hwf) as Hwfs.
    destruct (fold_left _ (diagonalStarts boardSize (Nat.sqrt boardSize)) _)
      as [seeded g1].
    cbn [fst snd] in *.
    rewrite (solveBoardChecked_eq boardSize (Nat.sqrt boardSize) Hbox Hdiv) by done.
    destruct (solveBoard_total boardSize (Nat.sqrt boardSize) seeded Hwfs)
      as [[r solvedBoard] Hsolve].
    rewrite Hsolve. cbn [mbind option_bind fst snd].
    pose proof (solveBoard_frame _ _ _ _ _ _ Hsolve) as (_ & _ & Hwf').
    rewrite (removeDigitsChecked_eq G shuffle Hperm boardSize) by (by apply Hwf').
    destruct (cellsToRemove_unit boardSize DEFAULT_DIFFICULTY Hint) as [Hn _];
      [reflexivity..|].
    unfold removeDigits. rewrite Hn. cbn [fst snd].
    destruct (shuffle (nat * nat)%type (allCells boardSize) g1) as [cells g2].
    cbn [mbind option_bind fst snd]. done.
  - intros Hndiv.
    rewrite (fillDiagonalBoxesChecked_out G shuffle Hperm boardSize _ Hbox Hfit)
      by done.
    done.
Qed.

Lemma construction_in_bounds_iff_boxSize_divides_witness :
  (Sudoku_newChecked nat revShuffle 6 None 0 = Sudoku_new nat revShuffle 6 None 0 /\
   is_Some (Sudoku_new nat revShuffle 6 None 0)) /\
  (Sudoku_newChecked nat revShuffle 5 None 0 = None /\
   fillDiagonalBoxesChecked nat revShuffle 5 (Nat.sqrt 5) (createEmptyBoard 5, 0) = None).
Proof.
  split.
  - apply (construction_in_bounds_iff_boxSize_divides nat revShuffle 6 None 0
             revShuffle_perm).
    + lia.
    + vm_compute. reflexivity.
    + reflexivity.
  - apply (construction_in_bounds_iff_boxSize_divides nat revShuffle 5 None 0
             revShuffle_perm).
    + lia.
    + vm_compute. reflexivity.
    + vm_compute. lia.
Defined.

(** X21. The two searches stay inside the grid: on a well-formed grid, for
    [boxSize > 0] that divides the dimension, [solveBoard] and
    [bruteForceSolver] run with every vector index checked meet no index
    out of range; they return what the unchecked runs return, for every
    fuel. *)
Theorem searches_stay_in_bounds size boxSize fuel (s : Run) :
  0 < boxSize -> size mod boxSize = 0 -> wf size (board s) ->
  solveBoardChecked size boxSize fuel (board s) = solveBoard size boxSize fuel (board s) /\
  bruteForceSolverChecked size boxSize fuel s = bruteForceSolver size boxSize fuel s.
Proof.
  intros Hbox Hdiv Hwf. split.
  - by apply solveBoardChecked_eq.
  - unfold bruteForceSolverChecked, bruteForceSolver.
    destruct (decide (size = 0)) as [->|Hpos].
    + rewrite backtrack_size0.
      assert (H0 : forall fuel row s, backtrackChecked 0 boxSize fuel row 0 s = None).
      { clear. induction fuel as [|fuel IH]; intros row s; simpl; [done|]. apply IH. }
      by rewrite H0.
    + rewrite (backtrackChecked_eq size boxSize Hbox Hdiv); [done|lia|left; lia|done].
Qed.

Lemma searches_stay_in_bounds_witness :
  solveBoardChecked 4 2 21 seeded4 = solveBoard 4 2 21 seeded4 /\
  bruteForceSolverChecked 4 2 21 (mkRun seeded4 0 [])
  = bruteForceSolver 4 2 21 (mkRun seeded4 0 []).
Proof.
  apply (searches_stay_in_bounds 4 2 21 (mkRun seeded4 0 [])).
  - lia.
  - reflexivity.
  - exact wf_seeded4.
Defined.
